(** * goiter: lazy sequences as interaction trees

    A Go iterator [iter.Seq[T]] is a function [func(yield func(T) bool)]:
    it calls [yield] once per element and stops when [yield] answers
    [false].  It is modelled by an interaction tree whose only event is
    [Yield v], answered with the consumer's boolean.  A sequence may be
    infinite, or may loop without ever yielding again; both are trees.
    A sequence is a value: it can be run any number of times, and every run
    is the same.

    [iter.Pull] runs a sequence as a coroutine.  The cursor it hands out is
    the tree that remains to be run, [next()] resumes it up to its next
    [Yield] (see [pull]), and [stop()] abandons it: the sequences at hand
    have no effect besides yielding, so nothing is left to observe of an
    abandoned tree.

    Go's [int] (counters, lengths, indices into the ring buffers) is
    modelled by [Z] without a bound; the fixed-width element types of
    [RangeStep] are modelled with their wrap-around. *)

From Stdlib Require Import ZArith List Lia Bool Sorted.
From ITree Require Import ITree Eq.Shallow.
Import ListNotations.
Import ITreeNotations.
Local Open Scope itree_scope.
Local Open Scope Z_scope.

(** ** The sequence protocol *)

Variant yieldE (T : Type) : Type -> Type :=
| Yield (v : T) : yieldE T bool.
Arguments Yield {T} v.

(** [iter.Seq[T]] *)
Definition Seq (T : Type) : Type := itree (yieldE T) unit.

(** [yield(v)]: hands [v] to the consumer, the answer says whether to go on. *)
Definition yield {T : Type} (v : T) : itree (yieldE T) bool :=
  ITree.trigger (Yield v).

(** What a coroutine does when it is resumed: it returns, it takes an
    internal step, or it reaches a [yield] and waits for the answer. *)
Variant Resumed (T R : Type) : Type :=
| Returned (r : R)
| Stepped (t : itree (yieldE T) R)
| Yielded (v : T) (k : bool -> itree (yieldE T) R).
Arguments Returned {T R} r.
Arguments Stepped {T R} t.
Arguments Yielded {T R} v k.

Definition resume {T R : Type} (t : itree (yieldE T) R) : Resumed T R :=
  match observe t with
  | RetF r => Returned r
  | TauF t' => Stepped t'
  | VisF e k =>
      match e in yieldE _ X return (X -> itree (yieldE T) R) -> Resumed T R with
      | Yield v => fun k => Yielded v k
      end k
  end.

(** [next, stop := iter.Pull(seq)]; [v, ok := next()].  The result is
    [None] when the sequence has returned ([ok = false]), and otherwise the
    value together with the cursor for the following call. *)
Definition pull {T : Type} (cur : Seq T) : itree (yieldE T) (option (T * Seq T)) :=
  ITree.iter (fun c : Seq T =>
    match resume c with
    | Returned _ => Ret (inr None)
    | Stepped c' => Ret (inl c')
    | Yielded v k => Ret (inr (Some (v, k true)))
    end) cur.

(** ** Driving a sequence

    [drive fuel t] runs [t] for at most [fuel] steps against a consumer
    that always asks for more.  It gives the elements yielded so far, and
    the result when [t] returned within the fuel. *)
Fixpoint drive {T R : Type} (fuel : nat) (t : itree (yieldE T) R)
  : list T * option R :=
  match fuel with
  | O => ([], None)
  | S fuel =>
      match resume t with
      | Returned r => ([], Some r)
      | Stepped t' => drive fuel t'
      | Yielded v k => let '(l, r) := drive fuel (k true) in (v :: l, r)
      end
  end.

(** [Observes t l o]: some finite drive of [t] has yielded exactly [l];
    [o = Some r] when [t] has returned [r] after that, [o = None] when the
    drive was cut short. *)
Definition Observes {T R : Type} (t : itree (yieldE T) R) (l : list T)
  (o : option R) : Prop :=
  exists fuel, drive fuel t = (l, o).

(** [t] yields exactly the elements [l], then returns. *)
Definition Yields {T : Type} (t : Seq T) (l : list T) : Prop :=
  Observes t l (Some tt).

(** [t] yields at least the elements [l], in this order, as its first ones. *)
Definition Emits {T : Type} (t : Seq T) (l : list T) : Prop :=
  Observes t l None.

(** Two sequences yield the same elements in the same order: they have the
    same finite observations (complete and partial ones). *)
Definition SameElements {T : Type} (a b : Seq T) : Prop :=
  forall l o, Observes a l o <-> Observes b l o.

(** The sequence yields nothing, and returns. *)
Definition YieldsNothing {T : Type} (t : Seq T) : Prop :=
  Yields t [] /\ forall l o, Observes t l o -> l = [].

(** ** Reading loops and cursors

    The runs of a loop [ITree.iter f i], iteration by iteration: the drive
    is cut short inside an iteration, or an iteration leaves the loop, or
    it hands over to the next one. *)
Inductive IterObs {T I R : Type} (f : I -> itree (yieldE T) (I + R))
  : I -> list T -> option R -> Prop :=
| IterObs_cut i l :
    Observes (f i) l None -> IterObs f i l None
| IterObs_exit i l r :
    Observes (f i) l (Some (inr r)) -> IterObs f i l (Some r)
| IterObs_next i i' l1 l2 o :
    Observes (f i) l1 (Some (inl i')) -> IterObs f i' l2 o ->
    IterObs f i (l1 ++ l2) o.

(** [Next c x]: what [next()] answers on the cursor [c]. *)
Inductive Next {T : Type} : Seq T -> option (T * Seq T) -> Prop :=
| Next_done c r : resume c = Returned r -> Next c None
| Next_step c c' x : resume c = Stepped c' -> Next c' x -> Next c x
| Next_value c v k : resume c = Yielded v k -> Next c (Some (v, k true)).

(** ** Go statements

    The body of a [for] loop run by [ITree.iter] ends in [continue_ st]
    (next iteration, with the loop variables [st]) or in [break_ r] (the
    loop is left, or the function returns). *)
Definition continue_ {T I R : Type} (st : I) : itree (yieldE T) (I + R) :=
  Ret (inl st).
Definition break_ {T I R : Type} (r : R) : itree (yieldE T) (I + R) :=
  Ret (inr r).

(** A run-time panic (an index out of range) never comes back to the
    consumer: it neither yields nor returns. *)
Definition panic {T R : Type} : itree (yieldE T) R := ITree.spin.

(** [for v := range seq { body }]: the body answers [false] when it leaves
    the loop by [return]; the sequence is then told to stop and only
    unwinds.  The loop gives [true] when the sequence was run to its end. *)
Definition for_range {T U : Type} (seq : Seq T)
  (body : T -> itree (yieldE U) bool) : itree (yieldE U) bool :=
  ITree.iter (fun c : Seq T =>
    match resume c with
    | Returned _ => break_ true
    | Stepped c' => continue_ c'
    | Yielded v k =>
        go_on <- body v ;;
        if (go_on : bool) then continue_ (k true) else break_ false
    end) seq.

(** Slices: [make([]T, n)], [s[i]], [s[i] = v]; an index out of range has
    no result ([None]), the caller panics. *)
Definition make {T : Type} (zero : T) (n : Z) : list T := repeat zero (Z.to_nat n).

Definition len {T : Type} (s : list T) : Z := Z.of_nat (length s).

Definition load {T : Type} (s : list T) (i : Z) : option T :=
  if (i <? 0) then None else nth_error s (Z.to_nat i).

Fixpoint update {T : Type} (s : list T) (i : nat) (v : T) : list T :=
  match s, i with
  | [], _ => []
  | _ :: s', O => v :: s'
  | x :: s', S i' => x :: update s' i' v
  end.

Definition store {T : Type} (s : list T) (i : Z) (v : T) : option (list T) :=
  if (0 <=? i) && (i <? len s) then Some (update s (Z.to_nat i) v) else None.

(** Values of a [comparable] type: [==] decides equality.  (Floating-point
    NaNs, which differ from themselves, are not covered.) *)
Class Comparable (T : Type) : Type := {
  equal : T -> T -> bool;
  equal_eq : forall x y, equal x y = true <-> x = y
}.

(** [map[K]V]: the entries, the latest first. *)
Definition gomap (K V : Type) : Type := list (K * V).

Fixpoint map_lookup {K V : Type} `{Comparable K} (m : gomap K V) (key : K) : option V :=
  match m with
  | [] => None
  | (k, v) :: m' => if equal k key then Some v else map_lookup m' key
  end.

(** [m[key]]: the zero value when the key is absent. *)
Definition map_get {K V : Type} `{Comparable K} (zero : V) (m : gomap K V) (key : K) : V :=
  match map_lookup m key with
  | Some v => v
  | None => zero
  end.

(** [m[key] = v] *)
Definition map_set {K V : Type} (m : gomap K V) (key : K) (v : V) : gomap K V :=
  (key, v) :: m.

(** ** sequence.go and filtering.go: the operators *)

(** Modelled from the spec: [Empty] is called by [Take], [TakeLast],
    [RangeStep] and [RangeTime] but declared outside the files at hand; it is
    the sequence that produces nothing (another revision of [RangeStep],
    src/unnamed/part_000, has [func(yield func(T) bool) {}] in its place). *)
Definition Empty {T : Type} : Seq T := Ret tt.

(** The loop of [Take], with its variables [next] and [count]. *)
Definition Take_loop {T : Type} (n : Z) : Seq T * Z -> Seq T :=
  ITree.iter (fun '(next, count) =>
    r <- pull next ;;
    match r with
    | None => break_ tt
    | Some (v, next) =>
        ok <- yield v ;;
        if negb ok then break_ tt else
        let count := count + 1 in
        if count >=? n then break_ tt else
        continue_ (next, count)
    end).

Definition Take {T : Type} (iterator : Seq T) (n : Z) : Seq T :=
  if n <=? 0 then Empty else Take_loop n (iterator, 0).

Definition Skip_loop {T : Type} (n : Z) : Seq T * Z -> Seq T :=
  ITree.iter (fun '(next, count) =>
    r <- pull next ;;
    match r with
    | None => break_ tt
    | Some (v, next) =>
        let count := count + 1 in
        if count <=? n then continue_ (next, count) else
        ok <- yield v ;;
        if negb ok then break_ tt else
        continue_ (next, count)
    end).

Definition Skip {T : Type} (iterator : Seq T) (n : Z) : Seq T :=
  if n <=? 0 then iterator else Skip_loop n (iterator, 0).

(** The ring buffer of [TakeLast] takes in [v]: the first element, or an
    element that overwrites the oldest one of a full buffer, or one more
    element.  The loop goes on with the new indices and buffer. *)
Definition TakeLast_push {T A : Type} (n : Z) (next : Seq T)
  (idxHead idxTail : Z) (buffer : list T) (v : T)
  : itree (yieldE T) (Seq T * Z * Z * list T + A) :=
  if idxHead =? -1 then
    match store buffer 0 v with
    | Some buffer => continue_ (next, 0, 0, buffer)
    | None => panic
    end
  else if Z.rem (idxHead + n - 1) n =? idxTail then
    let idxTail := idxHead in
    let idxHead := Z.rem (idxHead + 1) n in
    match store buffer idxTail v with
    | Some buffer => continue_ (next, idxHead, idxTail, buffer)
    | None => panic
    end
  else
    let idxTail := Z.rem (idxTail + 1) n in
    match store buffer idxTail v with
    | Some buffer => continue_ (next, idxHead, idxTail, buffer)
    | None => panic
    end.

(** The first loop of [TakeLast]: the ring buffer is filled from the source;
    the loop is left by [break] with the indices and the buffer. *)
Definition TakeLast_fill {T : Type} (n : Z)
  : Seq T * Z * Z * list T -> itree (yieldE T) (Z * Z * list T) :=
  ITree.iter (fun '(next, idxHead, idxTail, buffer) =>
    r <- pull next ;;
    match r with
    | None => break_ (idxHead, idxTail, buffer)
    | Some (v, next) => TakeLast_push n next idxHead idxTail buffer v
    end).

(** The second loop of [TakeLast]: [for i := 0; i < n; i++]. *)
Definition TakeLast_drain {T : Type} (n idxHead idxTail : Z) (buffer : list T)
  : Z -> Seq T :=
  ITree.iter (fun i =>
    if i <? n then
      let idx := Z.rem (idxHead + i) n in
      match load buffer idx with
      | None => panic
      | Some v =>
          ok <- yield v ;;
          if negb ok then break_ tt else
          if idx =? idxTail then break_ tt else
          continue_ (i + 1)
      end
    else break_ tt).

Definition TakeLast {T : Type} (zero : T) (iterator : Seq T) (n : Z) : Seq T :=
  if n <=? 0 then Empty else
  '(idxHead, idxTail, buffer) <- TakeLast_fill n (iterator, -1, -1, make zero n) ;;
  if idxHead <? 0 then Ret tt else
  TakeLast_drain n idxHead idxTail buffer 0.

(** The ring buffer of [SkipLast] takes in [v]; a full buffer gives up its
    oldest element, which is yielded. *)
Definition SkipLast_push {T : Type} (n : Z) (next : Seq T)
  (idxHead idxTail : Z) (ringBuff : list T) (v : T)
  : itree (yieldE T) (Seq T * Z * Z * list T + unit) :=
  if idxHead =? -1 then
    match store ringBuff 0 v with
    | Some ringBuff => continue_ (next, 0, 0, ringBuff)
    | None => panic
    end
  else if Z.rem (idxHead + n - 1) n =? idxTail then
    match load ringBuff idxHead with
    | None => panic
    | Some yieldVal =>
        let idxTail := idxHead in
        let idxHead := Z.rem (idxHead + 1) n in
        match store ringBuff idxTail v with
        | None => panic
        | Some ringBuff =>
            ok <- yield yieldVal ;;
            if negb ok then break_ tt else
            continue_ (next, idxHead, idxTail, ringBuff)
        end
    end
  else
    let idxTail := Z.rem (idxTail + 1) n in
    match store ringBuff idxTail v with
    | Some ringBuff => continue_ (next, idxHead, idxTail, ringBuff)
    | None => panic
    end.

Definition SkipLast_loop {T : Type} (n : Z) : Seq T * Z * Z * list T -> Seq T :=
  ITree.iter (fun '(next, idxHead, idxTail, ringBuff) =>
    r <- pull next ;;
    match r with
    | None => break_ tt
    | Some (v, next) => SkipLast_push n next idxHead idxTail ringBuff v
    end).

Definition SkipLast {T : Type} (zero : T) (iterator : Seq T) (n : Z) : Seq T :=
  if n <=? 0 then iterator else SkipLast_loop n (iterator, -1, -1, make zero n).

Definition Distinct_loop {T : Type} `{Comparable T} : Seq T * gomap T bool -> Seq T :=
  ITree.iter (fun '(next, yielded) =>
    r <- pull next ;;
    match r with
    | None => break_ tt
    | Some (v, next) =>
        if map_get false yielded v then continue_ (next, yielded) else
        let yielded := map_set yielded v true in
        ok <- yield v ;;
        if negb ok then break_ tt else
        continue_ (next, yielded)
    end).

Definition Distinct {T : Type} `{Comparable T} (iterator : Seq T) : Seq T :=
  Distinct_loop (iterator, []).

(** [distinctor]: the set of the keys seen so far. *)
Record distinctor (T : Type) : Type := { dm : gomap T bool }.
Arguments dm {T} d.

Definition newDistinctor {T : Type} : distinctor T := {| dm := [] |}.

(** [d.mark(key)]: the answer, and the distinctor as the call leaves it. *)
Definition mark {T : Type} `{Comparable T} (d : distinctor T) (key : T)
  : bool * distinctor T :=
  match map_lookup (dm d) key with
  | None => (true, {| dm := map_set (dm d) key true |})
  | Some _ => (false, d)
  end.

Definition DistinctBy_loop {T K : Type} `{Comparable K} (keySelector : T -> K)
  : Seq T * distinctor K -> Seq T :=
  ITree.iter (fun '(next, yielded) =>
    r <- pull next ;;
    match r with
    | None => break_ tt
    | Some (v, next) =>
        let '(fresh, yielded) := mark yielded (keySelector v) in
        if negb fresh then continue_ (next, yielded) else
        ok <- yield v ;;
        if negb ok then break_ tt else
        continue_ (next, yielded)
    end).

Definition DistinctBy {T K : Type} `{Comparable K} (iterator : Seq T)
  (keySelector : T -> K) : Seq T :=
  DistinctBy_loop keySelector (iterator, newDistinctor).

Fixpoint Concat {T : Type} (seqs : list (Seq T)) : Seq T :=
  match seqs with
  | [] => Ret tt
  | seq :: seqs' =>
      finished <- for_range seq (fun v => yield v) ;;
      if (finished : bool) then Concat seqs' else Ret tt
  end.

(** The first loop of [Reverse]: the source is drained into the buffer. *)
Definition Reverse_fill {T : Type} : Seq T * list T -> itree (yieldE T) (list T) :=
  ITree.iter (fun '(next, buffer) =>
    r <- pull next ;;
    match r with
    | None => break_ buffer
    | Some (v, next) => continue_ (next, buffer ++ [v])
    end).

(** The second loop of [Reverse]: [for i := len(buffer) - 1; i >= 0; i--]. *)
Definition Reverse_drain {T : Type} (buffer : list T) : Z -> Seq T :=
  ITree.iter (fun i =>
    if i >=? 0 then
      match load buffer i with
      | None => panic
      | Some v =>
          ok <- yield v ;;
          if negb ok then break_ tt else continue_ (i - 1)
      end
    else break_ tt).

Definition Reverse {T : Type} (seq : Seq T) : Seq T :=
  buffer <- Reverse_fill (seq, []) ;;
  Reverse_drain buffer (len buffer - 1).

(** ** Fixed-width integers: the types of the constraint [TInt]

    [int] and [uint] are 64 bits wide, as on amd64 and arm64. *)
Inductive TInt : Type :=
| Tint | Tint8 | Tint16 | Tint32 | Tint64
| Tuint | Tuint8 | Tuint16 | Tuint32 | Tuint64.

Definition bitSize (t : TInt) : Z :=
  match t with
  | Tint8 | Tuint8 => 8
  | Tint16 | Tuint16 => 16
  | Tint32 | Tuint32 => 32
  | Tint | Tint64 | Tuint | Tuint64 => 64
  end.

Definition signed (t : TInt) : bool :=
  match t with
  | Tint | Tint8 | Tint16 | Tint32 | Tint64 => true
  | _ => false
  end.

Definition minOf (t : TInt) : Z := if signed t then - 2 ^ (bitSize t - 1) else 0.
Definition maxOf (t : TInt) : Z :=
  if signed t then 2 ^ (bitSize t - 1) - 1 else 2 ^ bitSize t - 1.

(** The values of type [t]. *)
Definition InRange (t : TInt) (z : Z) : Prop := minOf t <= z <= maxOf t.

(** Conversion to [t], and the result of an operation in [t]: the low bits
    are kept (two's complement for the signed types). *)
Definition wrap (t : TInt) (z : Z) : Z :=
  if signed t
  then (z + 2 ^ (bitSize t - 1)) mod 2 ^ bitSize t - 2 ^ (bitSize t - 1)
  else z mod 2 ^ bitSize t.

Definition int_add (t : TInt) (x y : Z) : Z := wrap t (x + y).
Definition int_sub (t : TInt) (x y : Z) : Z := wrap t (x - y).
Definition int_not (t : TInt) (x : Z) : Z := wrap t (Z.lnot x).
Definition int_xor (t : TInt) (x y : Z) : Z := wrap t (Z.lxor x y).
Definition int_shl (t : TInt) (x : Z) (bits : Z) : Z := wrap t (Z.shiftl x bits).

Definition MaxInt64 : Z := 2 ^ 63 - 1.

(** [countBits]: the array literal [[4]int{8, 16, 32}] has a fourth
    element, [0]. *)
Definition countBits (t : TInt) : Z :=
  let v := 1 in
  (fix loop (bitss : list Z) : Z :=
     match bitss with
     | [] => 64
     | bits :: rest => if int_shl t v bits =? 0 then bits else loop rest
     end) [8; 16; 32; 0].

Definition intMin (t : TInt) : Z :=
  let ones := int_not t 0 in
  if ones <? 0 then int_not t (int_xor t ones (int_shl t 1 (countBits t - 1))) else 0.

Definition intMax (t : TInt) : Z :=
  let ones := int_not t 0 in
  if ones <? 0 then int_xor t ones (int_shl t 1 (countBits t - 1)) else ones.

(** [willOverflow(v, step, inc)], [v] of type [t], [step] a [uint64]. *)
Definition willOverflow (t : TInt) (v : Z) (step : Z) (inc : bool) : bool :=
  let tMax := wrap Tint64 (intMax t) in
  let tMin := wrap Tint64 (intMin t) in
  if negb (tMax =? MaxInt64)
     && (step >=? wrap Tuint64 (int_add Tint64 (int_sub Tint64 tMax tMin) 1)) then true
  else if inc && (int_add t v (wrap t step) <? v) then true
  else if negb inc && (int_sub t v (wrap t step) >? v) then true
  else false.

(** [RangeStep[T, S](start, stop, stepSize)]: [start] and [stop] are values
    of [T], [stepSize] is a value of [S]. *)
Definition RangeStep_loop (T : TInt) (start stop step : Z) (inc : bool) : Z -> Seq Z :=
  ITree.iter (fun curr =>
    ok <- yield curr ;;
    if negb ok then break_ tt else
    if inc then
      let next := int_add T curr (wrap T step) in
      if (next >=? stop) || (next <? start) || (next <=? curr) then break_ tt
      else continue_ next
    else
      let next := int_sub T curr (wrap T step) in
      if (next <=? stop) || (next >? start) || (next >=? curr) then break_ tt
      else continue_ next).

Definition RangeStep (T S : TInt) (start stop : Z) (stepSize : Z) : Seq Z :=
  if stepSize <=? 0 then Empty else
  let step := wrap Tuint64 stepSize in
  let inc := if start >? stop then false else true in
  if willOverflow T start step inc then
    (_ <- yield start ;; Ret tt)
  else
    RangeStep_loop T start stop step inc start.

(** [Range(start, stop)]: the constant [1] takes the type [int]. *)
Definition Range (T : TInt) (start stop : Z) : Seq Z := RangeStep T Tint start stop 1.

(** ** Time

    The package [time]: a [time.Time] is an instant, counted in nanoseconds
    on an unbounded line; a [time.Duration] is a count of nanoseconds.
    [Before], [After] and [Equal] compare instants, [Add] shifts one. *)
Module time.

Definition Time : Type := Z.
Definition Duration : Type := Z.

Definition Before (t u : Time) : bool := t <? u.
Definition After (t u : Time) : bool := t >? u.
Definition Equal (t u : Time) : bool := t =? u.
Definition Add (t : Time) (d : Duration) : Time := t + d.


End time.

Definition RangeTime_up (to : time.Time) (interval : time.Duration)
  : time.Time -> Seq time.Time :=
  ITree.iter (fun t =>
    if time.Before t to || time.Equal t to then
      ok <- yield t ;;
      if negb ok then break_ tt else continue_ (time.Add t interval)
    else break_ tt).

Definition RangeTime_down (to : time.Time) (interval : time.Duration)
  : time.Time -> Seq time.Time :=
  ITree.iter (fun t =>
    if time.After t to || time.Equal t to then
      ok <- yield t ;;
      if negb ok then break_ tt else continue_ (time.Add t (- interval))
    else break_ tt).

Definition RangeTime (from to : time.Time) (interval : time.Duration)
  : Seq time.Time :=
  if interval <=? 0 then Empty else
  if time.Before from to || time.Equal from to
  then RangeTime_up to interval from
  else RangeTime_down to interval from.

(** ** Reference functions on lists

    [distinct_from seen l]: the elements of [l] that occur neither in
    [seen] nor earlier in [l]. *)
Fixpoint distinct_from {T : Type} `{Comparable T} (seen l : list T) : list T :=
  match l with
  | [] => []
  | v :: l' =>
      if existsb (fun k => equal k v) seen then distinct_from seen l'
      else v :: distinct_from (v :: seen) l'
  end.

(** The first occurrence of each value of [l], in the order of [l]. *)
Definition first_occurrences {T : Type} `{Comparable T} (l : list T) : list T :=
  distinct_from [] l.

(** The map of [Distinct] after the values [seen] were yielded (the latest
    first). *)
Definition marks {T : Type} (seen : list T) : gomap T bool :=
  map (fun k => (k, true)) seen.

(** [l] without its last [n] elements (nothing when it has fewer). *)
Definition droplast {T : Type} (n : Z) (l : list T) : list T :=
  firstn (length l - Z.to_nat n) l.


(** The ring buffer of [TakeLast] and [SkipLast], of capacity [n], holds
    the window [w] (the oldest element first) from [idxHead] to [idxTail]. *)
Definition Ring {T : Type} (n : Z) (w : list T) (st : Z * Z * list T) : Prop :=
  let '(idxHead, idxTail, buffer) := st in
  len buffer = n /\ len w <= n /\
  match w with
  | [] => idxHead = -1 /\ idxTail = -1
  | _ :: _ =>
      0 <= idxHead < n /\
      idxTail = Z.rem (idxHead + len w - 1) n /\
      forall i, 0 <= i < len w ->
                load buffer (Z.rem (idxHead + i) n) = nth_error w (Z.to_nat i)
  end.

Instance Comparable_Z : Comparable Z :=
  {| equal := Z.eqb; equal_eq := Z.eqb_eq |}.


(** The arithmetic progression of [count] values from [from], [step] apart. *)
Fixpoint progression (from step : Z) (count : nat) : list Z :=
  match count with
  | O => []
  | S count' => from :: progression (from + step) step count'
  end.

(** ** [Cache]

    [Cache] is called by [Iterator.Cache] and exercised by
    [TestIterator2_Cache], but declared outside the files at hand.  The
    definitions of this part follow section 4.8 of the spec. *)

(** Modelled from the spec: the upstream of [Cache] is a pipeline with a
    stage that has a side effect (a filter that counts its calls).
    [Invoke a] is one call of the stage, on [a]; [Produce v] hands [v]
    downstream and waits for the answer. *)
Variant pipeE (A T : Type) : Type -> Type :=
| Invoke (a : A) : pipeE A T unit
| Produce (v : T) : pipeE A T bool.
Arguments Invoke {A T} a.
Arguments Produce {A T} v.

Definition Pipeline (A T : Type) : Type := itree (pipeE A T) unit.

Variant PResumed (A T : Type) : Type :=
| PReturned
| PStepped (t : Pipeline A T)
| PInvoked (a : A) (t : Pipeline A T)
| PProduced (v : T) (k : bool -> Pipeline A T).
Arguments PReturned {A T}.
Arguments PStepped {A T} t.
Arguments PInvoked {A T} a t.
Arguments PProduced {A T} v k.

Definition presume {A T : Type} (t : Pipeline A T) : PResumed A T :=
  match observe t with
  | RetF _ => PReturned
  | TauF t' => PStepped t'
  | VisF e k =>
      match e in pipeE _ _ X return (X -> Pipeline A T) -> PResumed A T with
      | Invoke a => fun k => PInvoked a (k tt)
      | Produce v => fun k => PProduced v k
      end k
  end.

(** Modelled from the spec: what [Cache] keeps between two drives, the
    values recorded so far and the upstream pipeline, suspended where the
    last drive left it. *)
Record CacheStore (A T : Type) : Type := {
  recorded : list T;
  upstream : Pipeline A T
}.
Arguments recorded {A T} c.
Arguments upstream {A T} c.

(** Modelled from the spec: [Cache(S)] wraps [S]; nothing is recorded yet,
    the upstream has not started. *)
Definition Cache {A T : Type} (S : Pipeline A T) : CacheStore A T :=
  {| recorded := []; upstream := S |}.

(** Modelled from the spec: a drive of [Cache(S)] replays the recorded
    values to the consumer [yield], whose state is [c]; the answer is
    [false] when the consumer has stopped. *)
Fixpoint replay {T C : Type} (yield : T -> C -> bool * C) (vs : list T) (c : C)
  : bool * C :=
  match vs with
  | [] => (true, c)
  | v :: vs' =>
      let '(ok, c) := yield v c in
      if ok then replay yield vs' c else (false, c)
  end.

(** Modelled from the spec: past the recorded positions a drive of
    [Cache(S)] drives the upstream on; its stage invocations are appended to
    [log], each value it produces is recorded and handed to the consumer.
    When the consumer stops, the upstream stays suspended at that value.
    [None]: the fuel ran out. *)
Fixpoint Cache_continue {A T C : Type} (fuel : nat) (yield : T -> C -> bool * C)
  (rec : list T) (cur : Pipeline A T) (c : C) (log : list A)
  : option (CacheStore A T * C * list A) :=
  match fuel with
  | O => None
  | S fuel =>
      match presume cur with
      | PReturned => Some ({| recorded := rec; upstream := cur |}, c, log)
      | PStepped cur' => Cache_continue fuel yield rec cur' c log
      | PInvoked a cur' => Cache_continue fuel yield rec cur' c (log ++ [a])
      | PProduced v k =>
          let rec := rec ++ [v] in
          let '(ok, c) := yield v c in
          if ok then Cache_continue fuel yield rec (k true) c log
          else Some ({| recorded := rec; upstream := k true |}, c, log)
      end
  end.

(** Modelled from the spec: one drive of [Cache(S)] by the consumer
    [yield], the replay first, the upstream after it. *)
Definition Cache_drive {A T C : Type} (fuel : nat) (yield : T -> C -> bool * C)
  (st : CacheStore A T) (c : C) (log : list A)
  : option (CacheStore A T * C * list A) :=
  let '(go_on, c) := replay yield (recorded st) c in
  if go_on then Cache_continue fuel yield (recorded st) (upstream st) c log
  else Some (st, c, log).

(** Modelled from the spec: [Cache(S)] is driven again and again, each time
    by a consumer of its own (a callback and its initial state); the result
    has the final states of the consumers. *)
Fixpoint Cache_drives {A T C : Type} (fuel : nat)
  (consumers : list ((T -> C -> bool * C) * C))
  (st : CacheStore A T) (log : list A)
  : option (CacheStore A T * list C * list A) :=
  match consumers with
  | [] => Some (st, [], log)
  | (yield, c) :: consumers' =>
      match Cache_drive fuel yield st c log with
      | None => None
      | Some (st, c, log) =>
          match Cache_drives fuel consumers' st log with
          | None => None
          | Some (st, cs, log) => Some (st, c :: cs, log)
          end
      end
  end.

(** [Runs_to S log vs S']: the pipeline [S], run on its own and always asked
    for more, invokes its stage on [log] and produces [vs] on its way to
    [S']. *)
Inductive Runs_to {A T : Type}
  : Pipeline A T -> list A -> list T -> Pipeline A T -> Prop :=
| Runs_here S : Runs_to S [] [] S
| Runs_step S S1 log vs S' :
    presume S = PStepped S1 -> Runs_to S1 log vs S' -> Runs_to S log vs S'
| Runs_invoke S a S1 log vs S' :
    presume S = PInvoked a S1 -> Runs_to S1 log vs S' -> Runs_to S (a :: log) vs S'
| Runs_produce S v k log vs S' :
    presume S = PProduced v k -> Runs_to (k true) log vs S' ->
    Runs_to S log (v :: vs) S'.

(** The pipeline of [TestIterator2_Cache]: the elements of a slice go
    through a filter that counts its calls and keeps the even values. *)
Fixpoint counting_filter (l : list Z) : Pipeline Z Z :=
  match l with
  | [] => Ret tt
  | x :: l' =>
      ITree.bind (ITree.trigger (Invoke x)) (fun _ =>
      if Z.even x then
        ITree.bind (ITree.trigger (Produce x)) (fun ok : bool =>
        if ok then counting_filter l' else Ret tt)
      else counting_filter l')
  end.

(** The consumers of [TestIterator2_Cache]: the first loop appends every
    value, the second one breaks at [6]. *)
Definition collect_all (v : Z) (c : list Z) : bool * list Z := (true, c ++ [v]).
Definition until_six (v : Z) (c : list Z) : bool * list Z :=
  if v =? 6 then (false, c) else (true, c ++ [v]).

(** The consumer [yield], started in [c], is in [c'] after a drive that left
    the store [st]: it was handed the recorded values, up to its stop. *)
Definition fed {A T C : Type} (yield : T -> C -> bool * C) (c : C)
  (st : CacheStore A T) (c' : C) : Prop :=
  c' = snd (replay yield (recorded st) c).

(** The number of values of the half-open progression from [start] to
    [stop], [step] apart. *)
Definition steps_between (start stop step : Z) : nat :=
  Z.to_nat ((Z.abs (stop - start) - 1) / step + 1).

(** [distinct_by key seen l]: the elements of [l] whose key occurs neither
    in [seen] nor as the key of an earlier element of [l]. *)
Fixpoint distinct_by {T K : Type} `{Comparable K} (key : T -> K) (seen : list K)
  (l : list T) : list T :=
  match l with
  | [] => []
  | v :: l' =>
      if existsb (fun k => equal k (key v)) seen then distinct_by key seen l'
      else v :: distinct_by key (key v :: seen) l'
  end.

(** ** filtering.go: [Filter]

    The predicate is a function of the value alone. *)
Definition Filter {T : Type} (iterator : Seq T) (predicate : T -> bool) : Seq T :=
  ITree.iter (fun next =>
    r <- pull next ;;
    match r with
    | None => break_ tt
    | Some (v, next) =>
        if negb (predicate v) then continue_ next else
        ok <- yield v ;;
        if negb ok then break_ tt else
        continue_ next
    end) iterator.

(** ** filtering.go: the operators on pairs

    [iter.Seq2[T1, T2]]: the consumer is handed two values at a time,
    [yield(v1, v2)]; they are modelled as one pair. *)
Definition Seq2 (T1 T2 : Type) : Type := Seq (T1 * T2).

Definition DistinctV1 {T1 T2 : Type} `{Comparable T1} (iterator : Seq2 T1 T2)
  : Seq2 T1 T2 :=
  ITree.iter (fun '(next, yielded) =>
    r <- pull next ;;
    match r with
    | None => break_ tt
    | Some ((v1, v2), next) =>
        let '(fresh, yielded) := mark yielded v1 in
        if negb fresh then continue_ (next, yielded) else
        ok <- yield (v1, v2) ;;
        if negb ok then break_ tt else
        continue_ (next, yielded)
    end) (iterator, newDistinctor).

Definition DistinctV2 {T1 T2 : Type} `{Comparable T2} (iterator : Seq2 T1 T2)
  : Seq2 T1 T2 :=
  ITree.iter (fun '(next, yielded) =>
    r <- pull next ;;
    match r with
    | None => break_ tt
    | Some ((v1, v2), next) =>
        let '(fresh, yielded) := mark yielded v2 in
        if negb fresh then continue_ (next, yielded) else
        ok <- yield (v1, v2) ;;
        if negb ok then break_ tt else
        continue_ (next, yielded)
    end) (iterator, newDistinctor).

Definition Distinct2By {T1 T2 K : Type} `{Comparable K} (iterator : Seq2 T1 T2)
  (keySelector : T1 -> T2 -> K) : Seq2 T1 T2 :=
  ITree.iter (fun '(next, yielded) =>
    r <- pull next ;;
    match r with
    | None => break_ tt
    | Some ((v1, v2), next) =>
        let '(fresh, yielded) := mark yielded (keySelector v1 v2) in
        if negb fresh then continue_ (next, yielded) else
        ok <- yield (v1, v2) ;;
        if negb ok then break_ tt else
        continue_ (next, yielded)
    end) (iterator, newDistinctor).

Definition Filter2 {T1 T2 : Type} (iterator : Seq2 T1 T2) (predicate : T1 -> T2 -> bool)
  : Seq2 T1 T2 :=
  ITree.iter (fun next =>
    r <- pull next ;;
    match r with
    | None => break_ tt
    | Some ((v1, v2), next) =>
        if negb (predicate v1 v2) then continue_ next else
        ok <- yield (v1, v2) ;;
        if negb ok then break_ tt else
        continue_ next
    end) iterator.

Definition Take2 {T1 T2 : Type} (iterator : Seq2 T1 T2) (n : Z) : Seq2 T1 T2 :=
  if n <=? 0 then Empty else
  ITree.iter (fun '(next, count) =>
    r <- pull next ;;
    match r with
    | None => break_ tt
    | Some ((v1, v2), next) =>
        ok <- yield (v1, v2) ;;
        if negb ok then break_ tt else
        let count := count + 1 in
        if count >=? n then break_ tt else
        continue_ (next, count)
    end) (iterator, 0).

Definition Skip2 {T1 T2 : Type} (iterator : Seq2 T1 T2) (n : Z) : Seq2 T1 T2 :=
  if n <=? 0 then iterator else
  ITree.iter (fun '(next, count) =>
    r <- pull next ;;
    match r with
    | None => break_ tt
    | Some ((v1, v2), next) =>
        let count := count + 1 in
        if count <=? n then continue_ (next, count) else
        ok <- yield (v1, v2) ;;
        if negb ok then break_ tt else
        continue_ (next, count)
    end) (iterator, 0).

Fixpoint Concat2 {T1 T2 : Type} (seqs : list (Seq2 T1 T2)) : Seq2 T1 T2 :=
  match seqs with
  | [] => Ret tt
  | seq :: seqs' =>
      finished <- for_range seq (fun '(v1, v2) => yield (v1, v2)) ;;
      if (finished : bool) then Concat2 seqs' else Ret tt
  end.

(** ** sequence.go: [Sequence]

    The generator is a closure, [func() (T, bool)]: it answers from the
    variables it has captured, and updates them.  [G] is the type of these
    variables; a call takes their values and gives the answer together with
    their new values.  A run of [Sequence(generator)] leaves the generator
    where its last call has left it, and gives that state as its result. *)
Definition Sequence {G T : Type} (generator : G -> T * bool * G)
  : G -> itree (yieldE T) G :=
  ITree.iter (fun g =>
    let '(v, hasMore, g) := generator g in
    if negb hasMore then break_ g else
    ok <- yield v ;;
    if negb ok then break_ g else
    continue_ g).

(** The values a generator gives in at most [calls] calls, up to the first
    call that answers [false]; with the state after that call, when there
    is one. *)
Fixpoint generated {G T : Type} (generator : G -> T * bool * G) (calls : nat) (g : G)
  : list T * option G :=
  match calls with
  | O => ([], None)
  | S calls =>
      let '(v, hasMore, g) := generator g in
      if hasMore then
        let '(l, r) := generated generator calls g in (v :: l, r)
      else ([], Some g)
  end.

(** The generator of the Fibonacci numbers in the comment of [Sequence]:
    [genFib(n)] captures [n], [a] and [b]. *)
Definition genFib (g : Z * Z * Z) : Z * bool * (Z * Z * Z) :=
  let '(n, a, b) := g in
  if n <=? 0 then (0, false, (n, a, b))
  else (b, true, (n - 1, b, a + b)).

(** ** iterator.go: the methods of [Iterator[T]]

    [it.Take(n)] is [Take(it, n)], and so on: the methods let the operators
    be chained. *)
Module Iterator.

Definition Filter {T : Type} (it : Seq T) (predicate : T -> bool) : Seq T :=
  Filter it predicate.
Definition Take {T : Type} (it : Seq T) (n : Z) : Seq T := Take it n.
Definition TakeLast {T : Type} (zero : T) (it : Seq T) (n : Z) : Seq T :=
  TakeLast zero it n.
Definition Skip {T : Type} (it : Seq T) (n : Z) : Seq T := Skip it n.
Definition SkipLast {T : Type} (zero : T) (it : Seq T) (n : Z) : Seq T :=
  SkipLast zero it n.
Definition Concat {T : Type} (it : Seq T) (its : list (Seq T)) : Seq T :=
  Concat (it :: its).
Definition Reverse {T : Type} (it : Seq T) : Seq T := Reverse it.

End Iterator.

(** ** The answer [false]

    [YieldPoint t v k]: driven by a consumer that has asked for more so
    far, [t] comes to a call [yield(v)], and goes on as [k b] when the
    answer is [b]. *)
Inductive YieldPoint {T R : Type}
  : itree (yieldE T) R -> T -> (bool -> itree (yieldE T) R) -> Prop :=
| YieldPoint_here t v k :
    resume t = Yielded v k -> YieldPoint t v k
| YieldPoint_step t t' v k :
    resume t = Stepped t' -> YieldPoint t' v k -> YieldPoint t v k
| YieldPoint_next t v' k' v k :
    resume t = Yielded v' k' -> YieldPoint (k' true) v k -> YieldPoint t v k.

(** [StopsWhenTold t]: at whichever call of [yield] the consumer answers
    [false], [t] returns without calling [yield] again. *)
Definition StopsWhenTold {T R : Type} (t : itree (yieldE T) R) : Prop :=
  forall v k, YieldPoint t v k -> exists r, Observes (k false) [] (Some r).

(** * Part II: properties *)

(** ** Resuming binds and loops *)

Section Semantics.
Context {T : Type}.

Lemma resume_bind {R U : Type} (t : itree (yieldE T) R) (k : R -> itree (yieldE T) U) :
  resume (ITree.bind t k) =
  match resume t with
  | Returned x => resume (k x)
  | Stepped t' => Stepped (ITree.bind t' k)
  | Yielded v h => Yielded v (fun b => ITree.bind (h b) k)
  end.
Proof.
  unfold resume. rewrite observe_bind.
  destruct (observe t) as [r | t' | X e h]; try reflexivity.
  destruct e; reflexivity.
Qed.

Lemma resume_iter {I R : Type} (f : I -> itree (yieldE T) (I + R)) (i : I) :
  resume (ITree.iter f i) =
  resume (ITree.bind (f i) (fun lr =>
            match lr with
            | inl i' => Tau (ITree.iter f i')
            | inr r => Ret r
            end)).
Proof. reflexivity. Qed.

Lemma drive_resume {R : Type} (t t' : itree (yieldE T) R) (n : nat) :
  resume t = resume t' -> drive n t = drive n t'.
Proof. intros E. destruct n as [|n]; simpl; [reflexivity | now rewrite E]. Qed.

Lemma drive_more {R : Type} (n : nat) :
  forall (t : itree (yieldE T) R) l r m,
    drive n t = (l, Some r) -> (n <= m)%nat -> drive m t = (l, Some r).
Proof.
  induction n as [|n IH]; intros t l r m H Hm; simpl in H; [discriminate|].
  destruct m as [|m]; [lia|]. simpl.
  destruct (resume t) as [x | t' | v k]; auto.
  - apply IH with (m := m) in H; [assumption | lia].
  - destruct (drive n (k true)) as [l0 o0] eqn:E. inversion H; subst.
    rewrite (IH _ _ _ m E); [reflexivity | lia].
Qed.

Lemma drive_grows {R : Type} (n : nat) :
  forall (t : itree (yieldE T) R) m,
    (n <= m)%nat -> exists rest, fst (drive m t) = fst (drive n t) ++ rest.
Proof.
  induction n as [|n IH]; intros t m Hm; simpl.
  - eexists; reflexivity.
  - destruct m as [|m]; [lia|]. simpl.
    destruct (resume t) as [x | t' | v k].
    + exists []; reflexivity.
    + apply IH; lia.
    + destruct (IH (k true) m) as [rest E]; [lia|].
      destruct (drive m (k true)), (drive n (k true)); simpl in *.
      exists rest. now rewrite E.
Qed.

Lemma drive_cut {R : Type} (n : nat) :
  forall (t : itree (yieldE T) R) l l' o,
    drive n t = (l ++ l', o) -> exists m, drive m t = (l, None).
Proof.
  induction n as [|n IH]; intros t l l' o H; simpl in H.
  - exists O. destruct l; [reflexivity | discriminate].
  - destruct l as [|v l]; [exists O; reflexivity|].
    destruct (resume t) as [x | t' | w k] eqn:E; [discriminate | |].
    + destruct (IH _ _ _ _ H) as [m Hm]. exists (S m). simpl. now rewrite E.
    + destruct (drive n (k true)) as [l0 o0] eqn:E0. inversion H; subst.
      destruct (IH _ _ _ _ E0) as [m Hm]. exists (S m). simpl. now rewrite E, Hm.
Qed.

(** *** Basic facts on observations *)

Lemma Observes_nil {R : Type} (t : itree (yieldE T) R) : Observes t [] None.
Proof. exists O. reflexivity. Qed.

Lemma Observes_cut {R : Type} (t : itree (yieldE T) R) l l' o :
  Observes t (l ++ l') o -> Observes t l None.
Proof. intros [n H]. exact (drive_cut n t l l' o H). Qed.

Lemma Observes_partial {R : Type} (t : itree (yieldE T) R) l o :
  Observes t l o -> Observes t l None.
Proof. intros H. apply Observes_cut with (l' := []) (o := o). now rewrite app_nil_r. Qed.

Lemma Observes_det {R : Type} (t : itree (yieldE T) R) l l' r r' :
  Observes t l (Some r) -> Observes t l' (Some r') -> l = l' /\ r = r'.
Proof.
  intros [n H] [m H'].
  apply drive_more with (m := Nat.max n m) in H; [|lia].
  apply drive_more with (m := Nat.max n m) in H'; [|lia].
  rewrite H in H'. inversion H'. auto.
Qed.

Lemma Observes_prefix {R : Type} (t : itree (yieldE T) R) l l' r o :
  Observes t l (Some r) -> Observes t l' o -> exists rest, l = l' ++ rest.
Proof.
  intros [n H] [m H'].
  apply drive_more with (m := Nat.max n m) in H; [|lia].
  destruct (drive_grows m t (Nat.max n m)) as [rest E]; [lia|].
  rewrite H, H' in E. simpl in E. eauto.
Qed.

Lemma Observes_chain {R : Type} (t : itree (yieldE T) R) l l' o o' :
  Observes t l o -> Observes t l' o' ->
  (exists rest, l = l' ++ rest) \/ (exists rest, l' = l ++ rest).
Proof.
  intros [n H] [m H'].
  destruct (Nat.le_ge_cases n m) as [L | L].
  - destruct (drive_grows n t m L) as [rest E]. rewrite H, H' in E. eauto.
  - destruct (drive_grows m t n L) as [rest E]. rewrite H, H' in E. eauto.
Qed.

Lemma Observes_resume {R : Type} (t t' : itree (yieldE T) R) l o :
  resume t = resume t' -> Observes t l o <-> Observes t' l o.
Proof.
  intros E. split; intros [n H]; exists n.
  - now rewrite <- (drive_resume t t' n E).
  - now rewrite (drive_resume t t' n E).
Qed.

Lemma Observes_Returned {R : Type} (t : itree (yieldE T) R) r l o :
  resume t = Returned r ->
  Observes t l o <-> l = [] /\ (o = None \/ o = Some r).
Proof.
  intros E. split.
  - intros [[|n] H]; simpl in H; [|rewrite E in H]; inversion H; auto.
  - intros [-> [-> | ->]]; [apply Observes_nil|].
    exists 1%nat. simpl. now rewrite E.
Qed.

Lemma Observes_Stepped {R : Type} (t t' : itree (yieldE T) R) l o :
  resume t = Stepped t' -> Observes t l o <-> Observes t' l o.
Proof.
  intros E. split.
  - intros [[|n] H]; simpl in H.
    + inversion H. apply Observes_nil.
    + rewrite E in H. now exists n.
  - intros [n H]. exists (S n). simpl. now rewrite E.
Qed.

Lemma Observes_Yielded {R : Type} (t : itree (yieldE T) R) v k l o :
  resume t = Yielded v k ->
  Observes t l o <->
  (l = [] /\ o = None) \/ exists l', l = v :: l' /\ Observes (k true) l' o.
Proof.
  intros E. split.
  - intros [[|n] H]; simpl in H.
    + inversion H. auto.
    + rewrite E in H. destruct (drive n (k true)) as [l0 o0] eqn:E0.
      inversion H; subst. right. exists l0. split; [reflexivity | now exists n].
  - intros [[-> ->] | [l' [-> [n H]]]]; [apply Observes_nil|].
    exists (S n). simpl. now rewrite E, H.
Qed.

Lemma Observes_Ret {R : Type} (r : R) l o :
  Observes (Ret r : itree (yieldE T) R) l o <-> l = [] /\ (o = None \/ o = Some r).
Proof. now apply Observes_Returned. Qed.

Lemma Observes_Tau {R : Type} (t : itree (yieldE T) R) l o :
  Observes (Tau t) l o <-> Observes t l o.
Proof. now apply Observes_Stepped. Qed.

Lemma Observes_yield (v : T) l o :
  Observes (yield v) l o <->
  (l = [] /\ o = None) \/ (l = [v] /\ (o = None \/ o = Some true)).
Proof.
  rewrite (Observes_Yielded (yield v) v (fun b => Ret b) l o) by reflexivity.
  split.
  - intros [H | [l' [-> H]]]; [auto|]. apply Observes_Ret in H as [-> H]. auto.
  - intros [H | [-> H]]; [auto|]. right. exists []. split; [reflexivity|].
    apply Observes_Ret. auto.
Qed.

(** *** Sequential composition *)

Lemma drive_bind_inv {R U : Type} (k : R -> itree (yieldE T) U) (n : nat) :
  forall (t : itree (yieldE T) R) l o,
    drive n (ITree.bind t k) = (l, o) ->
    (o = None /\ exists m, drive m t = (l, None)) \/
    (exists l1 x l2 n1 n2,
        drive n1 t = (l1, Some x) /\ drive n2 (k x) = (l2, o) /\
        l = l1 ++ l2 /\ (n2 <= n)%nat).
Proof.
  induction n as [|n IH]; intros t l o H.
  - inversion H. left. split; [reflexivity | now exists O].
  - cbn [drive] in H. rewrite resume_bind in H.
    destruct (resume t) as [x | t' | v h] eqn:E.
    + right. exists [], x, l, 1%nat, (S n). simpl. rewrite E. auto.
    + destruct (IH _ _ _ H) as [[-> [m Hm]] | (l1 & x & l2 & n1 & n2 & H1 & H2 & -> & Hn)].
      * left. split; [reflexivity|]. exists (S m). simpl. now rewrite E.
      * right. exists l1, x, l2, (S n1), n2. simpl. rewrite E. auto.
    + destruct (drive n (ITree.bind (h true) k)) as [l0 o0] eqn:E0.
      inversion H; subst.
      destruct (IH _ _ _ E0) as [[-> [m Hm]] | (l1 & x & l2 & n1 & n2 & H1 & H2 & -> & Hn)].
      * left. split; [reflexivity|]. exists (S m). simpl. now rewrite E, Hm.
      * right. exists (v :: l1), x, l2, (S n1), n2. simpl. rewrite E, H1. auto.
Qed.

Lemma drive_bind_cut {R U : Type} (k : R -> itree (yieldE T) U) (n : nat) :
  forall (t : itree (yieldE T) R) l,
    drive n t = (l, None) -> drive n (ITree.bind t k) = (l, None).
Proof.
  induction n as [|n IH]; intros t l H; [now inversion H|].
  cbn [drive] in *. rewrite resume_bind.
  destruct (resume t) as [x | t' | v h]; [discriminate | auto |].
  destruct (drive n (h true)) as [l0 o0] eqn:E0. inversion H; subst.
  now rewrite (IH _ _ E0).
Qed.

Lemma drive_bind_through {R U : Type} (k : R -> itree (yieldE T) U) (n1 : nat) :
  forall (t : itree (yieldE T) R) l1 x n2 l2 o,
    drive n1 t = (l1, Some x) -> drive n2 (k x) = (l2, o) ->
    exists n, drive n (ITree.bind t k) = (l1 ++ l2, o).
Proof.
  induction n1 as [|n1 IH]; intros t l1 x n2 l2 o H1 H2; [discriminate|].
  simpl in H1. destruct (resume t) as [y | t' | v h] eqn:E.
  - inversion H1; subst. exists n2. cbn [app]. rewrite <- H2.
    apply drive_resume. rewrite resume_bind. now rewrite E.
  - destruct (IH _ _ _ _ _ _ H1 H2) as [n Hn]. exists (S n). cbn [drive].
    rewrite resume_bind. now rewrite E.
  - destruct (drive n1 (h true)) as [l0 o0] eqn:E0. inversion H1; subst.
    destruct (IH _ _ _ _ _ _ E0 H2) as [n Hn]. exists (S n). cbn [drive].
    rewrite resume_bind. now rewrite E, Hn.
Qed.

Lemma Observes_bind {R U : Type} (t : itree (yieldE T) R)
  (k : R -> itree (yieldE T) U) l o :
  Observes (ITree.bind t k) l o <->
  (o = None /\ Observes t l None) \/
  (exists l1 x l2, Observes t l1 (Some x) /\ Observes (k x) l2 o /\ l = l1 ++ l2).
Proof.
  split.
  - intros [n H]. apply drive_bind_inv in H.
    destruct H as [[-> [m Hm]] | (l1 & x & l2 & n1 & n2 & H1 & H2 & -> & _)].
    + left. split; [reflexivity | now exists m].
    + right. exists l1, x, l2. repeat split; [now exists n1 | now exists n2].
  - intros [[-> [n H]] | (l1 & x & l2 & [n1 H1] & [n2 H2] & ->)].
    + exists n. now apply drive_bind_cut.
    + exact (drive_bind_through k n1 t l1 x n2 l2 o H1 H2).
Qed.

(** *** Loops *)

Lemma Observes_iter_unfold {I R : Type} (f : I -> itree (yieldE T) (I + R)) i l o :
  Observes (ITree.iter f i) l o <->
  Observes (ITree.bind (f i) (fun lr =>
              match lr with
              | inl i' => Tau (ITree.iter f i')
              | inr r => Ret r
              end)) l o.
Proof. apply Observes_resume, resume_iter. Qed.

Lemma drive_iter {I R : Type} (f : I -> itree (yieldE T) (I + R)) (n : nat) :
  forall i l o, drive n (ITree.iter f i) = (l, o) -> IterObs f i l o.
Proof.
  induction n as [n IH] using lt_wf_ind. intros i l o H.
  destruct n as [|n].
  - inversion H. apply IterObs_cut, Observes_nil.
  - rewrite (drive_resume _ _ _ (resume_iter f i)) in H.
    apply drive_bind_inv in H.
    destruct H as [[-> [m Hm]] | (l1 & x & l2 & n1 & n2 & H1 & H2 & -> & Hn)].
    + apply IterObs_cut. now exists m.
    + destruct x as [i' | r].
      * apply (IterObs_next f i i'); [now exists n1|].
        destruct n2 as [|n2].
        -- inversion H2. apply IterObs_cut, Observes_nil.
        -- simpl in H2. apply (IH n2); [lia | assumption].
      * destruct n2 as [|n2]; inversion H2; subst; rewrite app_nil_r.
        -- apply IterObs_cut. apply Observes_partial with (o := Some (inr r)).
           now exists n1.
        -- apply IterObs_exit. now exists n1.
Qed.

Lemma Observes_iter {I R : Type} (f : I -> itree (yieldE T) (I + R)) i l o :
  Observes (ITree.iter f i) l o <-> IterObs f i l o.
Proof.
  split.
  - intros [n H]. exact (drive_iter f n i l o H).
  - intros H. induction H as [i l H | i l r H | i i' l1 l2 o H _ IH];
      apply Observes_iter_unfold, Observes_bind.
    + left. auto.
    + right. exists l, (inr r), []. rewrite app_nil_r. repeat split; [assumption|].
      apply Observes_Ret. auto.
    + right. exists l1, (inl i'), l2. repeat split; [assumption|].
      now apply Observes_Tau.
Qed.

(** *** Cursors *)

Lemma Next_det (c : Seq T) x y : Next c x -> Next c y -> x = y.
Proof.
  intros H. revert y.
  induction H as [c r E | c c' x E _ IH | c v k E]; intros y Hy;
    inversion Hy; subst; try congruence.
  apply IH. congruence.
Qed.

Lemma Observes_pull (c : Seq T) l o :
  Observes (pull c) l o <->
  l = [] /\ (o = None \/ exists x, o = Some x /\ Next c x).
Proof.
  unfold pull. rewrite Observes_iter. split.
  - intros H. induction H as [i l H | i l r H | i i' l1 l2 o H _ IH].
    + destruct (resume i); apply Observes_Ret in H as [-> _]; auto.
    + destruct (resume i) eqn:E; apply Observes_Ret in H as [-> [H | H]];
        inversion H; subst; split; auto; right; eexists; split; eauto.
      * eapply Next_done; eauto.
      * now apply Next_value.
    + destruct (resume i) eqn:E; apply Observes_Ret in H as [-> [H | H]];
        inversion H; subst.
      destruct IH as [-> [-> | (x & -> & Hx)]]; split; auto.
      right. exists x. split; [reflexivity|]. eapply Next_step; eauto.
  - intros [-> [-> | (x & -> & H)]].
    + apply IterObs_cut, Observes_nil.
    + induction H as [c r E | c c' x E _ IH | c v k E].
      * apply IterObs_exit. rewrite E. apply Observes_Ret. auto.
      * apply (IterObs_next _ c c' [] []); [|exact IH].
        rewrite E. apply Observes_Ret. auto.
      * apply IterObs_exit. rewrite E. apply Observes_Ret. auto.
Qed.

(** Every observation of a sequence, read through its cursor. *)
Lemma Observes_cursor (c : Seq T) l o :
  Observes c l o <->
  (l = [] /\ o = None) \/
  (l = [] /\ o = Some tt /\ Next c None) \/
  (exists v c' l', l = v :: l' /\ Next c (Some (v, c')) /\ Observes c' l' o).
Proof.
  split.
  - intros [n H]. revert c l o H.
    induction n as [|n IH]; intros c l o H; simpl in H.
    + inversion H. auto.
    + destruct (resume c) as [[] | c' | v k] eqn:E.
      * inversion H; subst. right; left. repeat split. eapply Next_done; eauto.
      * destruct (IH _ _ _ H) as [? | [(-> & -> & Hn) | (v & c1 & l' & -> & Hn & Ho)]];
          [auto | right; left | right; right].
        -- repeat split. eapply Next_step; eauto.
        -- exists v, c1, l'. repeat split; [|assumption]. eapply Next_step; eauto.
      * destruct (drive n (k true)) as [l0 o0] eqn:E0. inversion H; subst.
        right; right. exists v, (k true), l0. repeat split.
        -- now apply Next_value.
        -- now exists n.
  - intros [[-> ->] | [(-> & -> & H) | (v & c' & l' & -> & H & Ho)]].
    + apply Observes_nil.
    + remember None as x eqn:Ex.
      induction H as [c [] E | c c1 x E _ IH | c v k E]; [| |discriminate].
      * apply (Observes_Returned _ tt); auto.
      * apply (Observes_Stepped _ c1); auto.
    + remember (Some (v, c')) as x eqn:Ex.
      induction H as [c r E | c c1 x E _ IH | c w k E]; [discriminate | |].
      * apply (Observes_Stepped _ c1); auto.
      * inversion Ex; subst. apply (Observes_Yielded _ v k); auto.
        right. eauto.
Qed.

End Semantics.

(** ** Statements *)

Create HintDb obs.

Lemma Observes_break {T I R : Type} (r : R) l (x : option (I + R)) :
  Observes (break_ r : itree (yieldE T) (I + R)) l x <->
  l = [] /\ (x = None \/ x = Some (inr r)).
Proof. apply Observes_Ret. Qed.

Lemma Observes_continue {T I R : Type} (st : I) l (x : option (I + R)) :
  Observes (continue_ st : itree (yieldE T) (I + R)) l x <->
  l = [] /\ (x = None \/ x = Some (inl st)).
Proof. apply Observes_Ret. Qed.

(** Reading an observation of a piece of straight-line code. *)
Ltac obs_step :=
  match goal with
  | H : Observes (ITree.bind _ _) _ _ |- _ =>
      apply Observes_bind in H;
      destruct H as [[? H] | (? & ? & ? & ? & H & ?)]; cbv beta in H
  | H : Observes (pull _) _ _ |- _ =>
      apply Observes_pull in H; destruct H as [? [? | (? & ? & ?)]]
  | H : Observes (yield _) _ _ |- _ =>
      apply Observes_yield in H; destruct H as [[? ?] | [? [? | ?]]]
  | H : Observes (Ret _) _ _ |- _ =>
      apply Observes_Ret in H; destruct H as [? [? | ?]]
  | H : Observes (break_ _) _ _ |- _ =>
      apply Observes_break in H; destruct H as [? [? | ?]]
  | H : Observes (continue_ _) _ _ |- _ =>
      apply Observes_continue in H; destruct H as [? [? | ?]]
  | H : Observes (Tau _) _ _ |- _ => apply Observes_Tau in H
  | H : Observes (match ?x with _ => _ end) _ _ |- _ => destruct x eqn:?
  | H : Observes (let '(_, _) := ?x in _) _ _ |- _ => destruct x eqn:?
  | H : false = true |- _ => discriminate H
  | H : true = false |- _ => discriminate H
  | H : Some _ = None |- _ => discriminate H
  | H : None = Some _ |- _ => discriminate H
  | H : Some _ = Some _ |- _ => inversion H; clear H
  | H : inl _ = inr _ |- _ => discriminate H
  | H : inr _ = inl _ |- _ => discriminate H
  | H : inl _ = inl _ |- _ => inversion H; clear H
  | H : inr _ = inr _ |- _ => inversion H; clear H
  end.

Ltac obs_inv := repeat (obs_step; subst; cbn [app negb] in *).

Ltac len_simpl :=
  unfold len in *;
  repeat (rewrite ?length_app, ?length_rev, ?length_firstn, ?length_skipn, ?repeat_length in *;
          cbn [length] in *).
Ltac len_lia := len_simpl; lia.

(** ** Cursors and observations *)

Section Cursors.
Context {T : Type}.

Lemma Next_nil (c : Seq T) : Next c None -> Observes c [] (Some tt).
Proof. intros H. apply Observes_cursor. auto. Qed.

Lemma Next_cons (c c' : Seq T) v l o :
  Next c (Some (v, c')) -> Observes c' l o -> Observes c (v :: l) o.
Proof. intros H Ho. apply Observes_cursor. right; right. exists v, c', l. auto. Qed.

Lemma Observes_cons_inv (c : Seq T) v l o :
  Observes c (v :: l) o -> exists c', Next c (Some (v, c')) /\ Observes c' l o.
Proof.
  intros H. apply Observes_cursor in H.
  destruct H as [[H _] | [[H _] | (w & c' & l' & E & Hn & Ho)]]; try discriminate.
  inversion E; subst. eauto.
Qed.

Lemma Observes_done_inv (c : Seq T) : Observes c [] (Some tt) -> Next c None.
Proof.
  intros H. apply Observes_cursor in H.
  destruct H as [[_ H] | [(_ & _ & H) | (w & c' & l' & E & _)]]; try discriminate.
  assumption.
Qed.

Lemma Next_pull (c c' : Seq T) v :
  Next c (Some (v, c')) -> Observes (pull c) [] (Some (Some (v, c'))).
Proof. intros H. apply Observes_pull. split; [reflexivity|]. right. eauto. Qed.

Lemma Next_pull_done (c : Seq T) :
  Next c None -> Observes (pull c) [] (Some None).
Proof. intros H. apply Observes_pull. split; [reflexivity|]. right. eauto. Qed.

Lemma app_same_length (a b x y : list T) :
  a ++ x = b ++ y -> length a = length b -> a = b /\ x = y.
Proof.
  revert b. induction a as [|v a IH]; intros [|w b] E L; try discriminate; auto.
  cbn in E. inversion E; subst. destruct (IH b) as [-> ->]; auto.
Qed.

Lemma Observes_same_length (S : Seq T) l1 l2 o1 o2 :
  Observes S l1 o1 -> Observes S l2 o2 -> length l1 = length l2 -> l1 = l2.
Proof.
  intros H1 H2 L.
  destruct (Observes_chain _ _ _ _ _ H1 H2) as [[rest E] | [rest E]].
  - assert (rest = []) as -> by (destruct rest; [reflexivity|]; subst; len_lia).
    now rewrite app_nil_r in E.
  - assert (rest = []) as -> by (destruct rest; [reflexivity|]; subst; len_lia).
    now rewrite app_nil_r in E.
Qed.

End Cursors.

#[global] Hint Resolve Next_nil Next_cons Observes_nil : obs.

(** ** Windowing: [Take], [Skip] and [Concat] *)

Section Windowing.
Context {T : Type}.

Lemma Take_loop_sound (n : Z) (st : Seq T * Z) l o :
  Observes (Take_loop n st) l o ->
  snd st < n ->
  (snd st + len l < n /\ Observes (fst st) l o) \/
  (snd st + len l = n /\ Observes (fst st) l None /\ (o = None \/ o = Some tt)).
Proof.
  intros H. unfold Take_loop in H. apply Observes_iter in H.
  induction H as [[c count] l H | [c count] l r H | [c count] [c' count'] l1 l2 o H _ IH];
    cbn [fst snd] in *; intros Hc.
  - obs_inv; try solve [left; split; [len_lia | eauto with obs]].
    all: destruct (Z.eq_dec (count + 1) n);
      [right | left]; repeat split; eauto with obs; try len_lia.
  - obs_inv;
      first [ solve [left; split; [len_lia | eauto with obs]]
            | solve [right; repeat split; eauto with obs; len_lia] ].
  - obs_inv. destruct IH as [[Hl Ho] | (Hl & Ho & Hr)]; [lia | |].
    + left. split; [len_lia | eauto with obs].
    + right. repeat split; eauto with obs. len_lia.
Qed.

Lemma Take_loop_complete (n : Z) l :
  forall (c : Seq T) count o,
    Observes c l o -> count + len l < n ->
    Observes (Take_loop n (c, count)) l o.
Proof.
  induction l as [|v l IH]; intros c count o H Hl; apply Observes_iter.
  - destruct o as [[]|]; [|apply IterObs_cut, Observes_nil].
    apply IterObs_exit. apply Observes_bind. right.
    exists [], None, []. repeat split.
    + apply Observes_pull. split; [reflexivity|]. right. eexists; split; eauto.
      now apply Observes_done_inv.
    + apply Observes_break. auto.
  - apply Observes_cons_inv in H as (c' & Hn & Ho).
    apply (IterObs_next _ (c, count) (c', count + 1) [v] l).
    + apply Observes_bind. right. exists [], (Some (v, c')), [v]. repeat split.
      * apply Observes_pull. split; [reflexivity|]. right. eexists; split; eauto.
      * apply Observes_bind. right. exists [v], true, []. repeat split.
        -- apply Observes_yield. auto.
        -- cbn. destruct (Z.geb_spec (count + 1) n); [len_lia|]. apply Observes_continue. auto.
    + apply Observes_iter. apply IH; [assumption | len_lia].
Qed.

Lemma Take_loop_full (n : Z) l :
  forall (c : Seq T) count o,
    Observes c l None -> count < n -> count + len l = n ->
    o = None \/ o = Some tt ->
    Observes (Take_loop n (c, count)) l o.
Proof.
  induction l as [|v l IH]; intros c count o H Hc Hl Ho; [len_lia|].
  apply Observes_cons_inv in H as (c' & Hn & Hc').
  assert (Hpull : Observes (pull c) [] (Some (Some (v, c')))).
  { apply Observes_pull. split; [reflexivity|]. right. eexists; split; eauto. }
  apply Observes_iter.
  destruct (Z.geb_spec (count + 1) n) as [Hge | Hlt].
  - assert (l = []) as -> by (destruct l; [reflexivity | len_lia]).
    destruct Ho as [-> | ->]; [apply IterObs_cut | apply IterObs_exit];
      apply Observes_bind; right; exists [], (Some (v, c')), [v];
      (repeat split; [assumption|]); apply Observes_bind.
    + left. split; [reflexivity|]. apply Observes_yield. auto.
    + right. exists [v], true, []. repeat split; [apply Observes_yield; auto|].
      cbn. destruct (Z.geb_spec (count + 1) n); [|lia]. apply Observes_break. auto.
  - apply (IterObs_next _ (c, count) (c', count + 1) [v] l).
    + apply Observes_bind. right. exists [], (Some (v, c')), [v].
      repeat split; [assumption|]. apply Observes_bind. right.
      exists [v], true, []. repeat split; [apply Observes_yield; auto|].
      cbn. destruct (Z.geb_spec (count + 1) n); [lia|]. apply Observes_continue. auto.
    + apply Observes_iter. apply IH; auto; len_lia.
Qed.

Lemma Observes_Take (S : Seq T) (n : Z) l o :
  0 < n ->
  Observes (Take S n) l o <->
  (len l < n /\ Observes S l o) \/
  (len l = n /\ Observes S l None /\ (o = None \/ o = Some tt)).
Proof.
  intros Hn. unfold Take. destruct (Z.leb_spec n 0) as [|_]; [lia|]. split.
  - intros H. apply (Take_loop_sound n (S, 0)) in H; auto.
  - intros [[Hl H] | (Hl & H & Ho)].
    + apply Take_loop_complete; auto.
    + apply Take_loop_full; auto.
Qed.

Lemma Skip_loop_sound (n : Z) (st : Seq T * Z) l o :
  Observes (Skip_loop n st) l o ->
  exists p, Observes (fst st) (p ++ l) o /\
            (len p = Z.max 0 (n - snd st) \/ (len p < n - snd st /\ l = [])).
Proof.
  intros H. unfold Skip_loop in H. apply Observes_iter in H.
  induction H as [[c count] l H | [c count] l r H | [c count] [c' count'] l1 l2 o H _ IH];
    cbn [fst snd] in *.
  - obs_inv; exists []; (split; [cbn [app]; eauto with obs|]);
      destruct (Z_le_gt_dec n count);
      first [ left; len_lia | right; split; [len_lia | reflexivity] | exfalso; len_lia ].
  - obs_inv. exists []. split; [cbn [app]; eauto with obs|].
    destruct (Z_le_gt_dec n count);
      first [ left; len_lia | right; split; [len_lia | reflexivity] ].
  - obs_inv; destruct IH as (p & Hp & Hc).
    + exists (t :: p). split; [cbn [app]; eauto with obs|].
      destruct Hc as [Hc | [Hc ->]]; [left | right; split; [|reflexivity]]; len_lia.
    + assert (p = []) as -> by (destruct p; [reflexivity | len_lia]).
      exists []. split; [cbn [app] in *; eauto with obs | left; len_lia].
Qed.

Lemma Skip_loop_pass (n : Z) l :
  forall (c : Seq T) count o,
    Observes c l o -> n <= count -> Observes (Skip_loop n (c, count)) l o.
Proof.
  induction l as [|v l IH]; intros c count o H Hc; apply Observes_iter.
  - destruct o as [[]|]; [|apply IterObs_cut, Observes_nil].
    apply IterObs_exit. apply Observes_bind. right. exists [], None, [].
    repeat split; [now apply Next_pull_done, Observes_done_inv|].
    apply Observes_break. auto.
  - apply Observes_cons_inv in H as (c' & Hn & Ho).
    apply (IterObs_next _ (c, count) (c', count + 1) [v] l).
    + apply Observes_bind. right. exists [], (Some (v, c')), [v].
      repeat split; [now apply Next_pull|]. cbn.
      destruct (Z.leb_spec (count + 1) n); [lia|].
      apply Observes_bind. right. exists [v], true, [].
      repeat split; [apply Observes_yield; auto|]. apply Observes_continue. auto.
    + apply Observes_iter. apply IH; [assumption | lia].
Qed.

Lemma Skip_loop_complete (n : Z) p :
  forall (c : Seq T) count l o,
    Observes c (p ++ l) o ->
    len p = Z.max 0 (n - count) \/ (len p < n - count /\ l = []) ->
    Observes (Skip_loop n (c, count)) l o.
Proof.
  induction p as [|v p IH]; intros c count l o H Hc; cbn [app] in H.
  - destruct Hc as [Hc | [Hc ->]]; [apply Skip_loop_pass; [assumption | len_lia]|].
    apply Observes_iter.
    destruct o as [[]|]; [|apply IterObs_cut, Observes_nil].
    apply IterObs_exit. apply Observes_bind. right. exists [], None, [].
    repeat split; [now apply Next_pull_done, Observes_done_inv|].
    apply Observes_break. auto.
  - apply Observes_cons_inv in H as (c' & Hn & Ho).
    apply Observes_iter.
    apply (IterObs_next _ (c, count) (c', count + 1) [] l).
    + apply Observes_bind. right. exists [], (Some (v, c')), [].
      repeat split; [now apply Next_pull|]. cbn.
      destruct (Z.leb_spec (count + 1) n); [|len_lia]. apply Observes_continue. auto.
    + apply Observes_iter. apply IH; [assumption|].
      destruct Hc as [Hc | [Hc ->]]; [left | right; split; [|reflexivity]]; len_lia.
Qed.

Lemma Observes_Skip (S : Seq T) (n : Z) l o :
  0 < n ->
  Observes (Skip S n) l o <->
  exists p, Observes S (p ++ l) o /\ (len p = n \/ (len p < n /\ l = [])).
Proof.
  intros Hn. unfold Skip. destruct (Z.leb_spec n 0) as [|_]; [lia|]. split.
  - intros H. apply Skip_loop_sound in H. cbn [fst snd] in H.
    destruct H as (p & H & Hp). exists p. split; [assumption|].
    destruct Hp as [Hp | [Hp ->]]; [left | right; split; [|reflexivity]]; lia.
  - intros (p & H & Hp). apply (Skip_loop_complete n p); [assumption|].
    destruct Hp as [Hp | [Hp ->]]; [left | right; split; [|reflexivity]]; lia.
Qed.

(** *** [for v := range seq] and [Concat] *)

Lemma Observes_for_range (seq : Seq T) l x :
  Observes (for_range seq (fun v => yield v)) l x <->
  (x = None /\ Observes seq l None) \/ (x = Some true /\ Observes seq l (Some tt)).
Proof.
  unfold for_range. rewrite Observes_iter. split.
  - intros H.
    induction H as [c l H | c l r H | c c' l1 l2 o H _ IH];
      destruct (resume c) as [[] | c1 | v k] eqn:E; obs_inv.
    all: try solve [left; split; [reflexivity | apply Observes_nil]].
    + left. split; [reflexivity|]. apply (Observes_Yielded _ v k); auto.
      right. exists []. split; [reflexivity | apply Observes_nil].
    + left. split; [reflexivity|]. apply (Observes_Yielded _ v k); auto.
      right. exists []. split; [reflexivity | apply Observes_nil].
    + right. split; [reflexivity|]. apply (Observes_Returned _ tt); auto.
    + rewrite (Observes_Stepped c _ _ _ E), (Observes_Stepped c _ _ _ E). exact IH.
    + destruct IH as [[-> IH] | [-> IH]]; [left | right]; (split; [reflexivity|]);
        apply (Observes_Yielded _ v k); auto; right; eauto.
  - intros H.
    assert (G : exists o, Observes seq l o /\
              (x = None /\ o = None \/ x = Some true /\ o = Some tt)).
    { destruct H as [[-> H] | [-> H]]; eauto 6. }
    clear H. destruct G as (o & [n H] & Hx). revert seq l o H x Hx.
    induction n as [|n IH]; intros c l o H x Hx.
    + inversion H; subst. destruct Hx as [[-> _] | [_ Hx]]; [|discriminate].
      apply IterObs_cut, Observes_nil.
    + cbn [drive] in H. destruct (resume c) as [[] | c1 | v k] eqn:E.
      * inversion H; subst. destruct Hx as [[_ Hx] | [-> _]]; [discriminate|].
        apply IterObs_exit. rewrite E. apply Observes_break. auto.
      * apply (IterObs_next _ c c1 [] l); [|eapply IH; eauto].
        rewrite E. apply Observes_continue. auto.
      * destruct (drive n (k true)) as [l0 o0] eqn:E0. inversion H; subst.
        apply (IterObs_next _ c (k true) [v] l0); [|eapply IH; eauto].
        rewrite E. apply Observes_bind. right. exists [v], true, [].
        repeat split; [apply Observes_yield; auto|]. apply Observes_continue. auto.
Qed.

Lemma Observes_Concat_nil l o :
  Observes (Concat ([] : list (Seq T))) l o <-> l = [] /\ (o = None \/ o = Some tt).
Proof. apply Observes_Ret. Qed.

Lemma Observes_Concat_cons (seq : Seq T) seqs l o :
  Observes (Concat (seq :: seqs)) l o <->
  (o = None /\ Observes seq l None) \/
  (exists l1 l2, Observes seq l1 (Some tt) /\ Observes (Concat seqs) l2 o /\ l = l1 ++ l2).
Proof.
  cbn [Concat]. rewrite Observes_bind. split.
  - intros [[-> H] | (l1 & x & l2 & H1 & H2 & ->)].
    + apply Observes_for_range in H as [[_ H] | [H _]]; [auto | discriminate].
    + apply Observes_for_range in H1 as [[H1 _] | [H1 Hs]]; [discriminate|].
      inversion H1; subst. right. eauto.
  - intros [[-> H] | (l1 & l2 & H1 & H2 & ->)].
    + left. split; [reflexivity|]. apply Observes_for_range. auto.
    + right. exists l1, true, l2. repeat split; [|assumption].
      apply Observes_for_range. auto.
Qed.

Lemma Observes_Concat2 (a b : Seq T) l o :
  Observes (Concat [a; b]) l o <->
  (o = None /\ Observes a l None) \/
  (exists l1 l2, Observes a l1 (Some tt) /\ Observes b l2 o /\ l = l1 ++ l2).
Proof.
  rewrite Observes_Concat_cons. split.
  - intros [H | (l1 & l2 & H1 & H2 & ->)]; [auto|]. right. exists l1, l2.
    repeat split; [assumption|].
    apply Observes_Concat_cons in H2 as [[-> H2] | (l3 & l4 & H3 & H4 & ->)]; [assumption|].
    apply Observes_Concat_nil in H4 as [-> [-> | ->]]; rewrite app_nil_r; [|assumption].
    now apply Observes_partial in H3.
  - intros [H | (l1 & l2 & H1 & H2 & ->)]; [auto|]. right. exists l1, l2.
    repeat split; [assumption|]. apply Observes_Concat_cons.
    destruct o as [[]|]; [right | left; auto].
    exists l2, []. rewrite app_nil_r. repeat split; [assumption|].
    apply Observes_Concat_nil. auto.
Qed.

(** C3. For every sequence [S], finite or not, and every positive [n],
    [Concat(Take(S, n), Skip(S, n))] yields the same elements in the same
    order as [S] itself. *)
Theorem Concat_Take_Skip (S : Seq T) (n : Z) :
  0 < n -> SameElements (Concat [Take S n; Skip S n]) S.
Proof.
  intros Hn l o. rewrite Observes_Concat2. split.
  - intros [[-> H] | (l1 & l2 & H1 & H2 & ->)].
    + apply Observes_Take in H as [[_ H] | (_ & H & _)]; assumption.
    + apply Observes_Take in H1; [|assumption].
      apply Observes_Skip in H2 as (p & H2 & Hp); [|assumption].
      destruct H1 as [[L1 H1] | (L1 & H1 & _)].
      * destruct (Observes_prefix _ _ _ _ _ H1 H2) as [rest E].
        destruct Hp as [Hp | [Hp ->]]; [subst l1; len_lia|].
        rewrite app_nil_r in *. destruct o as [[]|].
        -- now destruct (Observes_det _ _ _ _ _ H1 H2) as [-> _].
        -- now apply Observes_partial in H1.
      * destruct Hp as [Hp | [Hp ->]].
        -- assert (l1 = p) as ->; [|assumption].
           apply Observes_cut in H2.
           apply (Observes_same_length S _ _ _ _ H1 H2). len_lia.
        -- rewrite app_nil_r in *. destruct o as [[]|]; [|assumption].
           destruct (Observes_prefix _ _ _ _ _ H2 H1) as [rest E]. subst p. len_lia.
  - intros H. destruct (Z_lt_ge_dec (len l) n) as [L | L].
    + destruct o as [[]|].
      * right. exists l, []. rewrite app_nil_r. repeat split.
        -- apply Observes_Take; auto.
        -- apply Observes_Skip; [assumption|]. exists l. rewrite app_nil_r. auto.
      * left. split; [reflexivity|]. apply Observes_Take; auto.
    + right. exists (firstn (Z.to_nat n) l), (skipn (Z.to_nat n) l).
      rewrite firstn_skipn. repeat split.
      * apply Observes_Take; [assumption|]. right. repeat split; [len_lia | | auto].
        apply (Observes_cut S _ (skipn (Z.to_nat n) l) o). now rewrite firstn_skipn.
      * apply Observes_Skip; [assumption|]. exists (firstn (Z.to_nat n) l).
        rewrite firstn_skipn. split; [assumption | left; len_lia].
Qed.
End Windowing.

Lemma Concat_Take_Skip_witness :
  0 < 2 /\
  SameElements (Concat [Take (Range Tint 0 5) 2; Skip (Range Tint 0 5) 2])
               (Range Tint 0 5).
Proof. split; [lia | apply Concat_Take_Skip; lia]. Defined.
(** ** Non-positive counts and steps *)

Lemma YieldsNothing_Empty {T : Type} : YieldsNothing (@Empty T).
Proof.
  split.
  - apply Observes_Ret. auto.
  - intros l o H. now apply Observes_Ret in H.
Qed.

Lemma SameElements_refl {T : Type} (S : Seq T) : SameElements S S.
Proof. intros l o. reflexivity. Qed.

(** C9. Non-positive counts and steps are no errors: for [n <= 0], [Take]
    and [TakeLast] yield nothing and return, [Skip] and [SkipLast] yield
    the elements of the source unchanged; for [stepSize <= 0], [RangeStep]
    yields nothing and returns, as do [RangeStep(0, 5, 0)] and
    [RangeStep(0, 5, -1)]. *)
Theorem nonpositive_count_or_step {T : Type} (zero : T) (S : Seq T) (n : Z)
  (Ty St : TInt) (start stop stepSize : Z) :
  n <= 0 -> stepSize <= 0 ->
  YieldsNothing (Take S n) /\
  YieldsNothing (TakeLast zero S n) /\
  SameElements (Skip S n) S /\
  SameElements (SkipLast zero S n) S /\
  YieldsNothing (RangeStep Ty St start stop stepSize) /\
  YieldsNothing (RangeStep Tint Tint 0 5 0) /\
  YieldsNothing (RangeStep Tint Tint 0 5 (-1)).
Proof.
  intros Hn Hs.
  unfold Take, TakeLast, Skip, SkipLast, RangeStep.
  destruct (Z.leb_spec n 0); [|lia].
  destruct (Z.leb_spec stepSize 0); [|lia].
  cbn [Z.leb Z.compare].
  repeat split; try apply YieldsNothing_Empty; try apply SameElements_refl;
    intros l o H'; try (apply YieldsNothing_Empty in H'; assumption);
    try (apply Observes_Ret; auto).
Qed.

Lemma nonpositive_count_or_step_witness :
  -1 <= 0 /\ 0 <= 0 /\
  YieldsNothing (Take (Range Tint 0 5) (-1)) /\
  YieldsNothing (TakeLast 0 (Range Tint 0 5) (-1)) /\
  SameElements (Skip (Range Tint 0 5) (-1)) (Range Tint 0 5) /\
  SameElements (SkipLast 0 (Range Tint 0 5) (-1)) (Range Tint 0 5) /\
  YieldsNothing (RangeStep Tuint8 Tuint8 0 5 0) /\
  YieldsNothing (RangeStep Tint Tint 0 5 0) /\
  YieldsNothing (RangeStep Tint Tint 0 5 (-1)).
Proof.
  split; [lia|]. split; [lia|].
  apply (nonpositive_count_or_step 0 (Range Tint 0 5) (-1) Tuint8 Tuint8 0 5 0); lia.
Defined.

(** ** Deduplication: [Distinct] *)

Section Deduplication.
Context {T : Type} `{Comparable T}.

Lemma map_get_marks (seen : list T) (v : T) :
  map_get false (marks seen) v = existsb (fun k => equal k v) seen.
Proof.
  unfold map_get. induction seen as [|k seen IH]; cbn; [reflexivity|].
  destruct (equal k v); [reflexivity | exact IH].
Qed.

Lemma Distinct_loop_sound (st : Seq T * gomap T bool) l o :
  Observes (Distinct_loop st) l o ->
  forall seen, snd st = marks seen ->
  exists l0, Observes (fst st) l0 o /\ l = distinct_from seen l0.
Proof.
  intros Hl. unfold Distinct_loop in Hl. apply Observes_iter in Hl.
  induction Hl as [[c yielded] l Hl | [c yielded] l r Hl | [c yielded] [c' yielded'] l1 l2 o Hl _ IH];
    cbn [fst snd] in *; intros seen ->.
  - rewrite ?map_get_marks in *. obs_inv; try solve [exists []; split; [apply Observes_nil | reflexivity]].
    all: exists [t]; (split; [eauto with obs|]); cbn; rewrite map_get_marks in *;
      match goal with E : existsb _ _ = _ |- _ => rewrite E end; reflexivity.
  - obs_inv. exists []. split; [eauto with obs | reflexivity].
  - obs_inv; rewrite map_get_marks in *.
    + destruct (IH seen eq_refl) as (l0 & H0 & ->). exists (t :: l0).
      split; [eauto with obs|]. cbn.
      match goal with E : existsb _ _ = _ |- _ => now rewrite E end.
    + destruct (IH (t :: seen) eq_refl) as (l0 & H0 & ->). exists (t :: l0).
      split; [eauto with obs|]. cbn.
      match goal with E : existsb _ _ = _ |- _ => now rewrite E end.
Qed.

Lemma Distinct_loop_complete l0 :
  forall (c : Seq T) seen o,
    Observes c l0 o ->
    Observes (Distinct_loop (c, marks seen)) (distinct_from seen l0) o.
Proof.
  induction l0 as [|v l0 IH]; intros c seen o Hc; apply Observes_iter; cbn [distinct_from].
  - destruct o as [[]|]; [|apply IterObs_cut, Observes_nil].
    apply IterObs_exit. apply Observes_bind. right. exists [], None, [].
    repeat split; [now apply Next_pull_done, Observes_done_inv|].
    apply Observes_break. auto.
  - apply Observes_cons_inv in Hc as (c' & Hn & Ho).
    destruct (existsb (fun k => equal k v) seen) eqn:E.
    + apply (IterObs_next _ (c, marks seen) (c', marks seen) [] (distinct_from seen l0)).
      * apply Observes_bind. right. exists [], (Some (v, c')), [].
        repeat split; [now apply Next_pull|]. cbv beta iota.
        rewrite map_get_marks, E. apply Observes_continue. auto.
      * apply Observes_iter. now apply IH.
    + apply (IterObs_next _ (c, marks seen) (c', marks (v :: seen)) [v]
               (distinct_from (v :: seen) l0)).
      * apply Observes_bind. right. exists [], (Some (v, c')), [v].
        repeat split; [now apply Next_pull|]. cbv beta iota.
        rewrite map_get_marks, E. apply Observes_bind. right. exists [v], true, [].
        repeat split; [apply Observes_yield; auto|]. apply Observes_continue. auto.
      * apply Observes_iter. now apply IH.
Qed.

Lemma Observes_Distinct (S : Seq T) l o :
  Observes (Distinct S) l o <->
  exists l0, Observes S l0 o /\ l = first_occurrences l0.
Proof.
  split.
  - intros Hl. exact (Distinct_loop_sound (S, []) l o Hl [] eq_refl).
  - intros (l0 & H0 & ->). exact (Distinct_loop_complete l0 S [] o H0).
Qed.

(** *** The reference function *)

Lemma existsb_eqb (seen : list T) (v : T) :
  existsb (fun k => equal k v) seen = true <-> In v seen.
Proof.
  rewrite existsb_exists. split.
  - intros (k & Hk & E). apply equal_eq in E. now subst.
  - intros Hv. exists v. split; [assumption | now apply equal_eq].
Qed.

Lemma distinct_from_In (l seen : list T) (v : T) :
  In v (distinct_from seen l) <-> In v l /\ ~ In v seen.
Proof.
  revert seen. induction l as [|w l IH]; intros seen; cbn; [tauto|].
  destruct (existsb (fun k => equal k w) seen) eqn:E.
  - apply existsb_eqb in E. rewrite IH. split; [tauto|].
    intros [[-> | Hv] Hn]; tauto.
  - assert (Hw : ~ In w seen) by (rewrite <- existsb_eqb, E; discriminate).
    cbn. rewrite IH. cbn. split.
    + intros [-> | [Hv Hn]]; tauto.
    + intros [[-> | Hv] Hn]; [tauto|].
      destruct (equal w v) eqn:Ev; [apply equal_eq in Ev; tauto|].
      right. split; [assumption|]. intros [-> | ?]; [|tauto].
      assert (equal v v = true) by now apply equal_eq. congruence.
Qed.

Lemma distinct_from_NoDup (l seen : list T) : NoDup (distinct_from seen l).
Proof.
  revert seen. induction l as [|w l IH]; intros seen; cbn; [constructor|].
  destruct (existsb (fun k => equal k w) seen); [apply IH|].
  constructor; [|apply IH]. rewrite distinct_from_In. cbn. tauto.
Qed.

Lemma distinct_from_app (l1 l2 seen : list T) :
  distinct_from seen (l1 ++ l2) =
  distinct_from seen l1 ++ distinct_from (rev (distinct_from seen l1) ++ seen) l2.
Proof.
  revert seen. induction l1 as [|w l1 IH]; intros seen; cbn; [reflexivity|].
  destruct (existsb (fun k => equal k w) seen) eqn:E; [apply IH|].
  cbn. rewrite IH. f_equal. f_equal. now rewrite <- app_assoc.
Qed.

Lemma distinct_from_ext (l seen seen' : list T) :
  (forall v, In v seen <-> In v seen') ->
  distinct_from seen l = distinct_from seen' l.
Proof.
  revert seen seen'. induction l as [|w l IH]; intros seen seen' E; cbn; [reflexivity|].
  assert (Ew : existsb (fun k => equal k w) seen = existsb (fun k => equal k w) seen').
  { apply eq_true_iff_eq. rewrite !existsb_eqb. apply E. }
  rewrite Ew. destruct (existsb (fun k => equal k w) seen'); [now apply IH|].
  f_equal. apply IH. intros v. cbn. rewrite E. tauto.
Qed.

(** A value is kept exactly when it did not occur before. *)
Lemma first_occurrences_snoc (l : list T) (v : T) :
  first_occurrences (l ++ [v]) =
  if existsb (fun k => equal k v) l then first_occurrences l
  else first_occurrences l ++ [v].
Proof.
  unfold first_occurrences. rewrite distinct_from_app. cbn.
  assert (E : existsb (fun k => equal k v) (rev (distinct_from [] l) ++ []) =
              existsb (fun k => equal k v) l).
  { apply eq_true_iff_eq. rewrite !existsb_eqb, app_nil_r, <- in_rev, distinct_from_In.
    cbn. tauto. }
  rewrite E. destruct (existsb (fun k => equal k v) l); [now rewrite app_nil_r | reflexivity].
Qed.

Lemma distinct_from_idem (l seen : list T) :
  distinct_from seen (distinct_from seen l) = distinct_from seen l.
Proof.
  revert seen. induction l as [|w l IH]; intros seen; cbn; [reflexivity|].
  destruct (existsb (fun k => equal k w) seen) eqn:E; [apply IH|].
  cbn. rewrite E. f_equal. apply IH.
Qed.

(** C6. [Distinct(S)] yields the first occurrence of each value of [S], in
    the order of [S], and no later occurrence: whatever [S] has yielded so
    far, [Distinct(S)] has yielded the first occurrences in it, and it
    returns when [S] does.  Hence [Distinct(Distinct(S))] yields the same
    as [Distinct(S)]. *)
Theorem Distinct_first_occurrences (S : Seq T) :
  (forall l o, Observes (Distinct S) l o <->
               exists l0, Observes S l0 o /\ l = first_occurrences l0) /\
  SameElements (Distinct (Distinct S)) (Distinct S).
Proof.
  split; [apply Observes_Distinct|].
  intros l o. rewrite Observes_Distinct. split.
  - intros (l1 & H1 & ->). apply Observes_Distinct in H1 as (l0 & H0 & ->).
    apply Observes_Distinct. exists l0. split; [assumption|].
    apply distinct_from_idem.
  - intros H1. exists l. split; [assumption|].
    apply Observes_Distinct in H1 as (l0 & H0 & ->).
    symmetry. apply distinct_from_idem.
Qed.

End Deduplication.

(** ** [DistinctBy] and the distinctor *)

Section DistinctByFacts.
Context {T K : Type} `{Comparable K}.

Lemma map_lookup_marks (seen : list K) (key : K) :
  map_lookup (marks seen) key =
  if existsb (fun k => equal k key) seen then Some true else None.
Proof.
  induction seen as [|k seen IH]; cbn; [reflexivity|].
  destruct (equal k key); [reflexivity | exact IH].
Qed.

(** [mark] answers [true] for a key it has not seen, and has seen it from
    then on. *)
Lemma mark_marks (seen : list K) (key : K) :
  mark {| dm := marks seen |} key =
  if existsb (fun k => equal k key) seen
  then (false, {| dm := marks seen |})
  else (true, {| dm := marks (key :: seen) |}).
Proof.
  unfold mark. cbn [dm]. rewrite map_lookup_marks.
  destruct (existsb (fun k => equal k key) seen); reflexivity.
Qed.

Lemma DistinctBy_loop_sound (keySelector : T -> K) (st : Seq T * distinctor K) l o :
  Observes (DistinctBy_loop keySelector st) l o ->
  forall seen, snd st = {| dm := marks seen |} ->
  exists l0, Observes (fst st) l0 o /\ l = distinct_by keySelector seen l0.
Proof.
  intros Hl. unfold DistinctBy_loop in Hl. apply Observes_iter in Hl.
  induction Hl as [[c yielded] l Hl | [c yielded] l r Hl
                  | [c yielded] [c' yielded'] l1 l2 o Hl _ IH];
    cbn [fst snd] in *; intros seen ->.
  - apply Observes_bind in Hl.
    destruct Hl as [[_ Hl] | (l1 & x & l2 & H1 & H2 & ->)].
    { apply Observes_pull in Hl as [-> _]. exists []. split; [apply Observes_nil | reflexivity]. }
    apply Observes_pull in H1 as [-> [H1 | (y & Hy & Hx)]]; [discriminate|].
    inversion Hy; subst y; clear Hy. destruct x as [[v c']|]; cbv beta iota in H2.
    2:{ obs_inv. exists []. split; [apply Observes_nil | reflexivity]. }
    rewrite mark_marks in H2.
    destruct (existsb (fun k => equal k (keySelector v)) seen) eqn:E; cbn [negb] in H2;
      obs_inv; try solve [exists []; split; [apply Observes_nil | reflexivity]].
    all: exists [v]; (split; [eauto with obs|]); cbn; now rewrite E.
  - apply Observes_bind in Hl.
    destruct Hl as [[Hl' _] | (l1 & x & l2 & H1 & H2 & ->)]; [discriminate|].
    apply Observes_pull in H1 as [-> [H1 | (y & Hy & Hx)]]; [discriminate|].
    inversion Hy; subst y; clear Hy. destruct x as [[v c']|]; cbv beta iota in H2.
    2:{ obs_inv. exists []. split; [eauto with obs | reflexivity]. }
    rewrite mark_marks in H2.
    destruct (existsb (fun k => equal k (keySelector v)) seen) eqn:E; cbn [negb] in H2;
      obs_inv.
  - apply Observes_bind in Hl.
    destruct Hl as [[Hl' _] | (l3 & x & l4 & H1 & H2 & ->)]; [discriminate|].
    apply Observes_pull in H1 as [-> [H1 | (y & Hy & Hx)]]; [discriminate|].
    inversion Hy; subst y; clear Hy. destruct x as [[v c1]|]; cbv beta iota in H2.
    2:{ obs_inv. }
    rewrite mark_marks in H2.
    destruct (existsb (fun k => equal k (keySelector v)) seen) eqn:E; cbn [negb] in H2;
      obs_inv.
    + destruct (IH seen eq_refl) as (l0 & H0 & ->). exists (v :: l0).
      split; [eauto with obs|]. cbn. now rewrite E.
    + destruct (IH (keySelector v :: seen) eq_refl) as (l0 & H0 & ->). exists (v :: l0).
      split; [eauto with obs|]. cbn. now rewrite E.
Qed.

Lemma DistinctBy_loop_complete (keySelector : T -> K) l0 :
  forall (c : Seq T) seen o,
    Observes c l0 o ->
    Observes (DistinctBy_loop keySelector (c, {| dm := marks seen |}))
             (distinct_by keySelector seen l0) o.
Proof.
  induction l0 as [|v l0 IH]; intros c seen o Hc; apply Observes_iter; cbn [distinct_by].
  - destruct o as [[]|]; [|apply IterObs_cut, Observes_nil].
    apply IterObs_exit. apply Observes_bind. right. exists [], None, [].
    repeat split; [now apply Next_pull_done, Observes_done_inv|].
    apply Observes_break. auto.
  - apply Observes_cons_inv in Hc as (c' & Hn & Ho).
    destruct (existsb (fun k => equal k (keySelector v)) seen) eqn:E.
    + apply (IterObs_next _ (c, {| dm := marks seen |}) (c', {| dm := marks seen |}) []
               (distinct_by keySelector seen l0)).
      * apply Observes_bind. right. exists [], (Some (v, c')), [].
        repeat split; [now apply Next_pull|]. cbv beta iota.
        rewrite mark_marks, E. apply Observes_continue. auto.
      * apply Observes_iter. now apply IH.
    + apply (IterObs_next _ (c, {| dm := marks seen |})
               (c', {| dm := marks (keySelector v :: seen) |}) [v]
               (distinct_by keySelector (keySelector v :: seen) l0)).
      * apply Observes_bind. right. exists [], (Some (v, c')), [v].
        repeat split; [now apply Next_pull|]. cbv beta iota.
        rewrite mark_marks, E. cbn [negb]. apply Observes_bind. right. exists [v], true, [].
        repeat split; [apply Observes_yield; auto|]. apply Observes_continue. auto.
      * apply Observes_iter. now apply IH.
Qed.

Lemma Observes_DistinctBy (S : Seq T) (keySelector : T -> K) l o :
  Observes (DistinctBy S keySelector) l o <->
  exists l0, Observes S l0 o /\ l = distinct_by keySelector [] l0.
Proof.
  split.
  - intros Hl. exact (DistinctBy_loop_sound keySelector (S, newDistinctor) l o Hl [] eq_refl).
  - intros (l0 & H0 & ->). exact (DistinctBy_loop_complete keySelector l0 S [] o H0).
Qed.

End DistinctByFacts.

Lemma distinct_by_self {T : Type} `{Comparable T} (l seen : list T) :
  distinct_by (fun v => v) seen l = distinct_from seen l.
Proof.
  revert seen. induction l as [|v l IH]; intros seen; cbn; [reflexivity|].
  now rewrite !IH.
Qed.

(** X1. [Distinct] is [DistinctBy] with the value as its own key: the map of
    the one and the distinctor of the other keep the same values out. *)
Lemma DistinctBy_self {T : Type} `{Comparable T} (S : Seq T) :
  SameElements (DistinctBy S (fun v => v)) (Distinct S).
Proof.
  intros l o. rewrite Observes_DistinctBy, Observes_Distinct.
  unfold first_occurrences. split; intros (l0 & H0 & ->); exists l0;
    (split; [assumption|]); [apply distinct_by_self | symmetry; apply distinct_by_self].
Qed.

(** The values [0, 1, 2, 1, 2, 3, 4], deduplicated. *)
Example Distinct_example :
  Yields (Distinct (Concat [Range Tint 0 3; Range Tint 1 5])) [0; 1; 2; 3; 4].
Proof. exists 100%nat. reflexivity. Qed.

(** ** Slices and ring buffers *)

Section Rings.
Context {T : Type}.

Lemma update_length (s : list T) i v : length (update s i v) = length s.
Proof.
  revert i. induction s as [|x s IH]; intros [|i]; cbn; auto.
Qed.

Lemma nth_error_update_same (s : list T) i v :
  (i < length s)%nat -> nth_error (update s i v) i = Some v.
Proof.
  revert i. induction s as [|x s IH]; intros [|i] L; cbn in *; try lia; auto.
  apply IH. lia.
Qed.

Lemma nth_error_update_other (s : list T) i j v :
  i <> j -> nth_error (update s i v) j = nth_error s j.
Proof.
  revert i j. induction s as [|x s IH]; intros [|i] [|j] E; cbn; auto; try congruence.
Qed.

Lemma store_ok (s : list T) i v :
  0 <= i < len s -> exists s', store s i v = Some s'.
Proof.
  intros L. unfold store.
  destruct (Z.leb_spec 0 i); [|lia]. destruct (Z.ltb_spec i (len s)); [|lia].
  cbn. eauto.
Qed.

Lemma store_spec (s s' : list T) i v :
  store s i v = Some s' ->
  0 <= i < len s /\ len s' = len s /\ load s' i = Some v /\
  forall j, j <> i -> load s' j = load s j.
Proof.
  unfold store, load, len.
  destruct (Z.leb_spec 0 i); [|discriminate].
  destruct (Z.ltb_spec i (Z.of_nat (length s))); [|discriminate].
  cbn. intros E. inversion E; subst. rewrite update_length.
  repeat split; try lia.
  - destruct (Z.ltb_spec i 0); [lia|]. apply nth_error_update_same. lia.
  - intros j Hj. destruct (Z.ltb_spec j 0); [reflexivity|].
    apply nth_error_update_other. lia.
Qed.

Lemma rem_here (x n : Z) : 0 <= x < n -> Z.rem x n = x.
Proof. apply Z.rem_small. Qed.

Lemma rem_over (x n : Z) : n <= x < 2 * n -> Z.rem x n = x - n.
Proof.
  intros L. rewrite Z.rem_mod_nonneg by lia.
  symmetry. apply (Z.mod_unique_pos x n 1); lia.
Qed.

Lemma len_make (zero : T) n : 0 <= n -> len (make zero n) = n.
Proof. intros L. unfold len, make. rewrite repeat_length. lia. Qed.

Lemma Ring_empty (zero : T) n : 0 < n -> Ring n [] (-1, -1, make zero n).
Proof. intros L. cbn. rewrite len_make by lia. repeat split; unfold len; cbn; lia. Qed.

End Rings.

(** Index arithmetic of a ring of capacity [n]: an index below [2 * n] is
    kept or brought back by [n]. *)
Ltac rem_norm n :=
  repeat match goal with
  | |- context [Z.rem ?x n] =>
      first [ rewrite (rem_here x n) by lia | rewrite (rem_over x n) by lia ]
  | H : context [Z.rem ?x n] |- _ =>
      first [ rewrite (rem_here x n) in H by lia | rewrite (rem_over x n) in H by lia ]
  end.

Ltac rem_split n :=
  repeat match goal with
  | |- context [Z.rem ?x n] =>
      destruct (Z_lt_ge_dec x n);
      [ rewrite (rem_here x n) in * by lia | rewrite (rem_over x n) in * by lia ]
  | H : context [Z.rem ?x n] |- _ =>
      destruct (Z_lt_ge_dec x n);
      [ rewrite (rem_here x n) in * by lia | rewrite (rem_over x n) in * by lia ]
  end.

Section RingSteps.
Context {T : Type}.

Lemma Ring_first (n : Z) (v : T) st :
  0 < n -> Ring n [] st ->
  exists buffer', store (snd st) 0 v = Some buffer' /\
                  fst (fst st) = -1 /\ Ring n [v] (0, 0, buffer').
Proof.
  destruct st as [[h t] buf]. intros Hn (Hb & _ & -> & ->). cbn [fst snd].
  destruct (store_ok buf 0 v) as [buf' E]; [lia|].
  exists buf'. split; [assumption|]. split; [reflexivity|].
  apply store_spec in E as (_ & Hl & Hv & _).
  unfold Ring. change (len [v]) with 1. repeat split; try lia.
  intros i Hi. assert (i = 0) as -> by lia.
  rewrite rem_here by lia. exact Hv.
Qed.

Lemma Ring_append (n : Z) (w : list T) (v : T) h t buf :
  w <> [] -> len w < n -> Ring n w (h, t, buf) ->
  (h =? -1) = false /\ (Z.rem (h + n - 1) n =? t) = false /\
  exists buf', store buf (Z.rem (t + 1) n) v = Some buf' /\
               Ring n (w ++ [v]) (h, Z.rem (t + 1) n, buf').
Proof.
  intros Hw Hl (Hb & _ & R). destruct w as [|x w]; [congruence|].
  destruct R as (Hh & -> & R). set (m := len (x :: w)) in *.
  assert (Hm : 1 <= m) by (subst m; len_lia).
  split; [lia|]. split.
  - apply Z.eqb_neq. rem_split n; lia.
  - destruct (store_ok buf (Z.rem (Z.rem (h + m - 1) n + 1) n) v) as [buf' E].
    { rem_split n; lia. }
    exists buf'. split; [assumption|].
    apply store_spec in E as (_ & Hl' & Hv & Ho).
    assert (Em : len ((x :: w) ++ [v]) = m + 1) by (subst m; len_lia).
    cbn [app]. cbn [app] in Em. unfold Ring. rewrite Em.
    repeat split; try lia.
    + rem_split n; lia.
    + intros i Hi. destruct (Z.eq_dec i m) as [-> | Hne].
      * replace (Z.rem (h + m) n) with (Z.rem (Z.rem (h + m - 1) n + 1) n)
          by (rem_split n; lia).
        rewrite Hv. symmetry.
        change (x :: w ++ [v]) with ((x :: w) ++ [v]).
        rewrite nth_error_app2 by (subst m; len_lia).
        replace (Z.to_nat m - length (x :: w))%nat with O by (subst m; len_lia).
        reflexivity.
      * rewrite Ho by (rem_split n; lia).
        rewrite R by lia.
        change (x :: w ++ [v]) with ((x :: w) ++ [v]).
        rewrite nth_error_app1 by (subst m; len_lia). reflexivity.
Qed.

Lemma Ring_rotate (n : Z) (x : T) (w : list T) (v : T) h t buf :
  len (x :: w) = n -> Ring n (x :: w) (h, t, buf) ->
  (h =? -1) = false /\ (Z.rem (h + n - 1) n =? t) = true /\
  load buf h = Some x /\
  exists buf', store buf h v = Some buf' /\
               Ring n (w ++ [v]) (Z.rem (h + 1) n, h, buf').
Proof.
  intros Hl (Hb & _ & Hh & -> & R). rewrite Hl in *.
  split; [lia|]. split; [apply Z.eqb_eq; reflexivity|]. split.
  - specialize (R 0). rewrite rem_here, Z.add_0_r in R by lia. apply R. lia.
  - destruct (store_ok buf h v) as [buf' E]; [lia|].
    exists buf'. split; [assumption|].
    apply store_spec in E as (_ & Hl' & Hv & Ho).
    assert (Em : len (w ++ [v]) = n) by len_lia.
    unfold Ring. rewrite Em. destruct (w ++ [v]) as [|y w'] eqn:Ew.
    { destruct w; discriminate. }
    rewrite <- Ew. repeat split; try lia.
    + rem_split n; lia.
    + rem_split n; lia.
    + rem_split n; lia.
    + intros i Hi. destruct (Z.eq_dec i (n - 1)) as [-> | Hne].
      * replace (Z.rem (Z.rem (h + 1) n + (n - 1)) n) with h by (rem_split n; lia).
        rewrite Hv. symmetry.
        rewrite nth_error_app2 by len_lia.
        replace (Z.to_nat (n - 1) - length w)%nat with O by len_lia. reflexivity.
      * rewrite Ho by (rem_split n; lia).
        replace (Z.rem (Z.rem (h + 1) n + i) n) with (Z.rem (h + (i + 1)) n)
          by (rem_split n; lia).
        rewrite R by lia. rewrite nth_error_app1 by len_lia.
        replace (Z.to_nat (i + 1)) with (S (Z.to_nat i)) by lia. reflexivity.
Qed.

End RingSteps.
(** ** [SkipLast] *)

Section SkipLastFacts.
Context {T : Type}.

Lemma SkipLast_push_grow (n : Z) (w : list T) (c : Seq T) (v : T) h t buf :
  0 < n -> Ring n w (h, t, buf) -> len w < n ->
  exists st', Ring n (w ++ [v]) st' /\
              SkipLast_push n c h t buf v = continue_ (c, fst (fst st'), snd (fst st'), snd st').
Proof.
  intros Hn R Hl. unfold SkipLast_push. destruct w as [|x w].
  - destruct (Ring_first n v _ Hn R) as (buf' & E & Hh & R'). cbn [fst snd] in *.
    subst h. cbn [Z.eqb Pos.eqb]. rewrite E. exists (0, 0, buf'). auto.
  - destruct (Ring_append n (x :: w) v h t buf) as (E1 & E2 & buf' & E & R');
      [discriminate | assumption | assumption |].
    rewrite E1, E2. cbv zeta. rewrite E.
    exists (h, Z.rem (t + 1) n, buf'). auto.
Qed.

Lemma SkipLast_push_full (n : Z) (x : T) (w : list T) (c : Seq T) (v : T) h t buf :
  Ring n (x :: w) (h, t, buf) -> len (x :: w) = n ->
  exists st', Ring n (w ++ [v]) st' /\
              SkipLast_push n c h t buf v =
              (ok <- yield x ;;
               if negb ok then break_ tt
               else continue_ (c, fst (fst st'), snd (fst st'), snd st')).
Proof.
  intros R Hl. unfold SkipLast_push.
  destruct (Ring_rotate n x w v h t buf Hl R) as (E1 & E2 & E3 & buf' & E & R').
  rewrite E1, E2, E3. cbv zeta. rewrite E.
  exists (Z.rem (h + 1) n, h, buf'). auto.
Qed.

Lemma droplast_short (n : Z) (l : list T) : len l <= n -> droplast n l = [].
Proof.
  intros L. unfold droplast.
  replace (length l - Z.to_nat n)%nat with O by len_lia. reflexivity.
Qed.

Lemma droplast_shift (n : Z) (x v : T) (w l : list T) :
  0 <= n -> len (x :: w) = n ->
  droplast n (x :: w ++ v :: l) = x :: droplast n ((w ++ [v]) ++ l).
Proof.
  intros Hn L. unfold droplast.
  replace (length (x :: w ++ v :: l) - Z.to_nat n)%nat with (S (length l)) by len_lia.
  replace (length ((w ++ [v]) ++ l) - Z.to_nat n)%nat with (length l) by len_lia.
  cbn. now rewrite <- app_assoc.
Qed.

Lemma SkipLast_loop_complete (n : Z) l0 :
  0 < n ->
  forall (c : Seq T) w st o,
    Ring n w st -> Observes c l0 o ->
    Observes (SkipLast_loop n (c, fst (fst st), snd (fst st), snd st))
             (droplast n (w ++ l0)) o.
Proof.
  intros Hn. induction l0 as [|v l0 IH]; intros c w [[h t] buf] o R Hc;
    cbn [fst snd]; apply Observes_iter.
  - rewrite app_nil_r, droplast_short by (destruct R as (_ & R & _); exact R).
    destruct o as [[]|]; [|apply IterObs_cut, Observes_nil].
    apply IterObs_exit. apply Observes_bind. right. exists [], None, [].
    repeat split; [now apply Next_pull_done, Observes_done_inv|].
    apply Observes_break. auto.
  - apply Observes_cons_inv in Hc as (c' & Hn' & Ho).
    assert (Hw : len w <= n) by (destruct R as (_ & R & _); exact R).
    destruct (Z_lt_ge_dec (len w) n) as [Hlt | Hge].
    + destruct (SkipLast_push_grow n w c' v h t buf Hn R Hlt) as (st' & R' & E).
      apply (IterObs_next _ (c, h, t, buf) (c', fst (fst st'), snd (fst st'), snd st')
               [] (droplast n (w ++ v :: l0))).
      * apply Observes_bind. right. exists [], (Some (v, c')), [].
        repeat split; [now apply Next_pull|]. cbv beta iota. rewrite E.
        apply Observes_continue. auto.
      * apply Observes_iter.
        replace (w ++ v :: l0) with ((w ++ [v]) ++ l0) by now rewrite <- app_assoc.
        now apply IH.
    + destruct w as [|x w]; [len_lia|].
      assert (Hl : len (x :: w) = n) by lia.
      destruct (SkipLast_push_full n x w c' v h t buf R Hl) as (st' & R' & E).
      cbn [app]. rewrite droplast_shift by lia.
      apply (IterObs_next _ (c, h, t, buf) (c', fst (fst st'), snd (fst st'), snd st')
               [x] (droplast n ((w ++ [v]) ++ l0))).
      * apply Observes_bind. right. exists [], (Some (v, c')), [x].
        repeat split; [now apply Next_pull|]. cbv beta iota. rewrite E.
        apply Observes_bind. right. exists [x], true, [].
        repeat split; [apply Observes_yield; auto|]. apply Observes_continue. auto.
      * apply Observes_iter. now apply IH.
Qed.

Lemma SkipLast_loop_sound (n : Z) (st : Seq T * Z * Z * list T) l o :
  0 < n ->
  Observes (SkipLast_loop n st) l o ->
  forall w, Ring n w (snd (fst (fst st)), snd (fst st), snd st) ->
  exists l0, Observes (fst (fst (fst st))) l0 o /\ l = droplast n (w ++ l0).
Proof.
  intros Hn H. unfold SkipLast_loop in H. apply Observes_iter in H.
  induction H as [[[[c h] t] buf] l H | [[[c h] t] buf] l r H
                 | [[[c h] t] buf] [[[c' h'] t'] buf'] l1 l2 o H _ IH];
    cbn [fst snd] in *; intros w R;
    assert (Hw : len w <= n) by (destruct R as (_ & R' & _); exact R').
  - apply Observes_bind in H.
    destruct H as [[_ H] | (l1 & x & l2 & H1 & H2 & ->)].
    { apply Observes_pull in H as [-> _]. exists [].
      split; [apply Observes_nil | now rewrite app_nil_r, droplast_short]. }
    apply Observes_pull in H1 as [-> [H1 | (y & Hy & Hx)]]; [discriminate|].
    inversion Hy; subst y; clear Hy. destruct x as [[v c']|]; cbv beta iota in H2.
    2:{ obs_inv. exists []. split; [apply Observes_nil | now rewrite app_nil_r, droplast_short]. }
    destruct (Z_lt_ge_dec (len w) n) as [Hlt | Hge].
    + destruct (SkipLast_push_grow n w c' v h t buf Hn R Hlt) as (st' & R' & E).
      rewrite E in H2. obs_inv. exists [].
      split; [apply Observes_nil | now rewrite app_nil_r, droplast_short].
    + destruct w as [|x w]; [len_lia|].
      assert (Hl : len (x :: w) = n) by lia.
      destruct (SkipLast_push_full n x w c' v h t buf R Hl) as (st' & R' & E).
      clear Hl. rewrite E in H2. obs_inv.
      * exists []. split; [apply Observes_nil|].
        cbn [app]. now rewrite app_nil_r, droplast_short.
      * exists [v]. split; [eauto with obs|]. cbn [app].
        rewrite droplast_shift, droplast_short by len_lia. reflexivity.
      * exists [v]. split; [eauto with obs|]. cbn [app].
        rewrite droplast_shift, droplast_short by len_lia. reflexivity.
  - apply Observes_bind in H.
    destruct H as [[H' _] | (l1 & x & l2 & H1 & H2 & ->)]; [discriminate|].
    apply Observes_pull in H1 as [-> [H1 | (y & Hy & Hx)]]; [discriminate|].
    inversion Hy; subst y; clear Hy. destruct x as [[v c']|]; cbv beta iota in H2.
    2:{ obs_inv. exists []. split; [eauto with obs | now rewrite app_nil_r, droplast_short]. }
    destruct (Z_lt_ge_dec (len w) n) as [Hlt | Hge].
    + destruct (SkipLast_push_grow n w c' v h t buf Hn R Hlt) as (st' & R' & E).
      rewrite E in H2. obs_inv.
    + destruct w as [|x w]; [len_lia|].
      assert (Hl : len (x :: w) = n) by lia.
      destruct (SkipLast_push_full n x w c' v h t buf R Hl) as (st' & R' & E).
      clear Hl. rewrite E in H2. obs_inv.
  - apply Observes_bind in H.
    destruct H as [[H' _] | (l3 & x & l4 & H1 & H2 & ->)]; [discriminate|].
    apply Observes_pull in H1 as [-> [H1 | (y & Hy & Hx)]]; [discriminate|].
    inversion Hy; subst y; clear Hy. destruct x as [[v c1]|]; cbv beta iota in H2.
    2:{ obs_inv. }
    destruct (Z_lt_ge_dec (len w) n) as [Hlt | Hge].
    + destruct (SkipLast_push_grow n w c1 v h t buf Hn R Hlt) as ([[h1 t1] buf1] & R' & E).
      rewrite E in H2. cbn [fst snd] in *. obs_inv.
      destruct (IH _ R') as (l0 & H0 & ->). exists (v :: l0).
      split; [eauto with obs|]. cbn [app]. now rewrite <- app_assoc.
    + destruct w as [|x w]; [len_lia|].
      assert (Hl : len (x :: w) = n) by lia.
      destruct (SkipLast_push_full n x w c1 v h t buf R Hl) as ([[h1 t1] buf1] & R' & E).
      clear Hl. rewrite E in H2. cbn [fst snd] in *. obs_inv.
      destruct (IH _ R') as (l0 & H0 & ->). exists (v :: l0).
      split; [eauto with obs|]. cbn [app]. now rewrite droplast_shift by len_lia.
Qed.

Lemma Observes_SkipLast (zero : T) (S : Seq T) (n : Z) l o :
  0 <= n ->
  Observes (SkipLast zero S n) l o <->
  exists l0, Observes S l0 o /\ l = droplast n l0.
Proof.
  intros Hn. unfold SkipLast. destruct (Z.leb_spec n 0) as [Hz | Hp].
  - assert (n = 0) as -> by lia. split.
    + intros H. exists l. split; [assumption|]. unfold droplast.
      rewrite Nat.sub_0_r. now rewrite firstn_all.
    + intros (l0 & H & ->). unfold droplast.
      rewrite Nat.sub_0_r. now rewrite firstn_all.
  - split.
    + intros H. exact (SkipLast_loop_sound n (S, -1, -1, make zero n) l o Hp H []
                         (Ring_empty zero n Hp)).
    + intros (l0 & H & ->).
      exact (SkipLast_loop_complete n l0 Hp S [] (-1, -1, make zero n) o
               (Ring_empty zero n Hp) H).
Qed.

End SkipLastFacts.



(** ** [TakeLast] and [Reverse] *)

Section TakeLastFacts.
Context {T : Type}.









(** *** [Reverse] *)

Lemma Reverse_fill_spec l0 :
  forall (c : Seq T) buffer,
    Yields c l0 -> Observes (Reverse_fill (c, buffer)) [] (Some (buffer ++ l0)).
Proof.
  induction l0 as [|v l0 IH]; intros c buffer Hc; apply Observes_iter.
  - rewrite app_nil_r. apply IterObs_exit.
    apply Observes_bind. right. exists [], None, [].
    repeat split; [now apply Next_pull_done, Observes_done_inv|].
    apply Observes_break. auto.
  - apply Observes_cons_inv in Hc as (c' & Hn' & Ho).
    apply (IterObs_next _ (c, buffer) (c', buffer ++ [v]) [] []).
    + apply Observes_bind. right. exists [], (Some (v, c')), [].
      repeat split; [now apply Next_pull|]. apply Observes_continue. auto.
    + apply Observes_iter. specialize (IH c' (buffer ++ [v]) Ho).
      now rewrite <- app_assoc in IH.
Qed.

Lemma Reverse_drain_spec (buffer : list T) (k : nat) :
  (k <= length buffer)%nat ->
  Yields (Reverse_drain buffer (Z.of_nat k - 1)) (rev (firstn k buffer)).
Proof.
  induction k as [|k IH]; intros L; apply Observes_iter.
  - apply IterObs_exit. cbn. apply Observes_break. auto.
  - assert (E : exists x, nth_error buffer k = Some x).
    { destruct (nth_error buffer k) eqn:E; [eauto|]. apply nth_error_None in E. lia. }
    destruct E as [x E].
    assert (F : firstn (S k) buffer = firstn k buffer ++ [x]).
    { clear IH. revert k L E. induction buffer as [|y b IHb]; intros [|k] L E;
        cbn in *; try discriminate; try lia.
      - now inversion E.
      - f_equal. apply IHb; [lia | assumption]. }
    rewrite F, rev_app_distr. cbn [rev app].
    apply (IterObs_next _ (Z.of_nat (S k) - 1) (Z.of_nat k - 1) [x] (rev (firstn k buffer))).
    + destruct (Z.geb_spec (Z.of_nat (S k) - 1) 0); [|lia].
      unfold load. destruct (Z.ltb_spec (Z.of_nat (S k) - 1) 0); [lia|].
      replace (Z.to_nat (Z.of_nat (S k) - 1)) with k by lia. rewrite E.
      apply Observes_bind. right. exists [x], true, [].
      repeat split; [apply Observes_yield; auto|]. cbn [negb].
      replace (Z.of_nat (S k) - 1 - 1) with (Z.of_nat k - 1) by lia.
      apply Observes_continue. auto.
    + apply Observes_iter. apply IH. lia.
Qed.

Lemma Yields_Reverse (S : Seq T) l0 : Yields S l0 -> Yields (Reverse S) (rev l0).
Proof.
  intros H0. unfold Reverse. apply Observes_bind. right.
  exists [], l0, (rev l0). repeat split.
  - exact (Reverse_fill_spec l0 S [] H0).
  - unfold len. rewrite <- (firstn_all l0) at 3. now apply Reverse_drain_spec.
Qed.

Lemma Yields_Take (S : Seq T) (n : Z) l0 :
  0 < n -> Yields S l0 -> Yields (Take S n) (firstn (Z.to_nat n) l0).
Proof.
  intros Hn H0. apply Observes_Take; [assumption|].
  destruct (Z_lt_ge_dec (len l0) n) as [L | L].
  - left. rewrite firstn_all2 by len_lia. auto.
  - right. repeat split; [len_lia | | auto].
    apply (Observes_cut S _ (skipn (Z.to_nat n) l0) (Some tt)).
    now rewrite firstn_skipn.
Qed.


End TakeLastFacts.


(** ** Fixed-width integers *)

Lemma intMax_maxOf (t : TInt) : intMax t = maxOf t.
Proof. destruct t; reflexivity. Qed.

Lemma intMin_minOf (t : TInt) : intMin t = minOf t.
Proof. destruct t; reflexivity. Qed.

Lemma countBits_bitSize (t : TInt) : countBits t = bitSize t.
Proof. destruct t; reflexivity. Qed.

(** The maximum of [uint64], converted to [int64], is [-1]. *)
Lemma uint64_tMax : wrap Tint64 (intMax Tuint64) = -1.
Proof. reflexivity. Qed.

Ltac pow_consts :=
  change (2 ^ (8 - 1)) with 128 in *; change (2 ^ 8) with 256 in *;
  change (2 ^ (16 - 1)) with 32768 in *; change (2 ^ 16) with 65536 in *;
  change (2 ^ (32 - 1)) with 2147483648 in *; change (2 ^ 32) with 4294967296 in *;
  change (2 ^ (64 - 1)) with 9223372036854775808 in *;
  change (2 ^ 64) with 18446744073709551616 in *;
  change (2 ^ 63) with 9223372036854775808 in *.

Ltac int_unfold :=
  cbv [InRange minOf maxOf wrap int_add int_sub signed bitSize MaxInt64] in *; pow_consts.

Lemma wrap_uint64_nonneg (z : Z) : 0 <= wrap Tuint64 z.
Proof. int_unfold. apply Z.mod_pos_bound. lia. Qed.

Lemma wrap_InRange (t : TInt) (z : Z) : InRange t z -> wrap t z = z.
Proof.
  destruct t; int_unfold; intros L;
    try (rewrite Z.mod_small by lia; lia); rewrite Z.mod_small; lia.
Qed.

Lemma wrap_stepSize (S : TInt) (stepSize : Z) :
  InRange S stepSize -> 0 < stepSize -> wrap Tuint64 stepSize = stepSize.
Proof.
  intros L P. apply (wrap_InRange Tuint64).
  destruct S; int_unfold; lia.
Qed.

(** For the 64-bit unsigned types the check answers [true] whatever the
    range. *)
Lemma willOverflow_uint64 (v step : Z) (inc : bool) :
  0 <= step -> willOverflow Tuint64 v step inc = true /\ willOverflow Tuint v step inc = true.
Proof.
  intros L. unfold willOverflow.
  change (wrap Tint64 (intMax Tuint64)) with (-1).
  change (wrap Tint64 (intMax Tuint)) with (-1).
  change (wrap Tint64 (intMin Tuint64)) with 0.
  change (wrap Tint64 (intMin Tuint)) with 0.
  change (wrap Tuint64 (int_add Tint64 (int_sub Tint64 (-1) 0) 1)) with 0.
  change (negb (-1 =? MaxInt64)) with true. cbn [andb].
  destruct (Z.geb_spec step 0); [auto | lia].
Qed.


(** ** [RangeStep] *)

Lemma Observes_single {T : Type} (v : T) l o :
  Observes (_ <- yield v ;; Ret tt) l o <->
  (l = [] /\ o = None) \/ (l = [v] /\ (o = None \/ o = Some tt)).
Proof.
  rewrite Observes_bind. split.
  - intros [[-> H] | (l1 & x & l2 & H1 & H2 & ->)].
    + apply Observes_yield in H as [[-> _] | [-> _]]; auto.
    + apply Observes_yield in H1 as [[_ H1] | [-> _]]; [discriminate|].
      apply Observes_Ret in H2 as [-> H2]. auto.
  - intros [[-> ->] | [-> [-> | ->]]].
    + left. split; [reflexivity | apply Observes_nil].
    + left. split; [reflexivity|]. apply Observes_yield. auto.
    + right. exists [v], true, []. repeat split.
      * apply Observes_yield. auto.
      * apply Observes_Ret. auto.
Qed.

Lemma RangeStep_overflowing (T S : TInt) (start stop stepSize : Z) :
  0 < stepSize ->
  willOverflow T start (wrap Tuint64 stepSize) (if start >? stop then false else true) = true ->
  Yields (RangeStep T S start stop stepSize) [start] /\
  forall l o, Observes (RangeStep T S start stop stepSize) l o -> l = [] \/ l = [start].
Proof.
  intros Hp E. unfold RangeStep.
  destruct (Z.leb_spec stepSize 0); [lia|]. cbv zeta. rewrite E. split.
  - apply Observes_single. auto.
  - intros l o H'. apply Observes_single in H'. tauto.
Qed.

(** C10. Over [uint64], [RangeStep] with a positive [stepSize] yields
    exactly the single value [start], whatever [start] and [stop] are: the
    maximum of the type, converted to [int64], is [-1], and the check before
    the loop answers [true] for every range. *)
Theorem RangeStep_uint64_single (S : TInt) (start stop stepSize : Z) :
  0 < stepSize ->
  wrap Tint64 (intMax Tuint64) = -1 /\
  (forall v step inc, 0 <= step -> willOverflow Tuint64 v step inc = true) /\
  Yields (RangeStep Tuint64 S start stop stepSize) [start] /\
  (forall l, Yields (RangeStep Tuint64 S start stop stepSize) l -> l = [start]) /\
  (forall l o, Observes (RangeStep Tuint64 S start stop stepSize) l o ->
               l = [] \/ l = [start]).
Proof.
  intros Hp. split; [reflexivity|].
  split; [intros v step inc L; now apply willOverflow_uint64|].
  destruct (RangeStep_overflowing Tuint64 S start stop stepSize Hp) as [HY HO].
  { apply willOverflow_uint64, wrap_uint64_nonneg. }
  repeat split; try assumption.
  intros l Hl. now destruct (Observes_det _ _ _ _ _ Hl HY).
Qed.

Lemma RangeStep_uint64_single_witness :
  0 < 1 /\
  wrap Tint64 (intMax Tuint64) = -1 /\
  (forall v step inc, 0 <= step -> willOverflow Tuint64 v step inc = true) /\
  Yields (RangeStep Tuint64 Tint 0 5 1) [0] /\
  (forall l, Yields (RangeStep Tuint64 Tint 0 5 1) l -> l = [0]) /\
  (forall l o, Observes (RangeStep Tuint64 Tint 0 5 1) l o -> l = [] \/ l = [0]).
Proof. split; [lia | apply RangeStep_uint64_single; lia]. Defined.




(** C2, at the inputs where the code leaves the half-open progression:
    over [uint64], [RangeStep(0, 5, 1)] yields [0] alone, where the same
    call over [int] yields [0, 1, 2, 3, 4]; and [RangeStep(5, 5, 1)] yields
    [5], the value of [stop]. *)
Theorem RangeStep_not_half_open :
  Yields (RangeStep Tuint64 Tint 0 5 1) [0] /\
  ~ Yields (RangeStep Tuint64 Tint 0 5 1) [0; 1; 2; 3; 4] /\
  Yields (RangeStep Tint Tint 0 5 1) [0; 1; 2; 3; 4] /\
  Yields (RangeStep Tint Tint 5 5 1) [5].
Proof.
  assert (HY : Yields (RangeStep Tuint64 Tint 0 5 1) [0]) by (exists 20%nat; reflexivity).
  split; [exact HY|]. split.
  - intros H. destruct (Observes_det _ _ _ _ _ H HY) as [E _]. discriminate E.
  - split; exists 20%nat; reflexivity.
Qed.

(** The example of the half-open progression: [RangeStep(100, 251, 50)]
    over [uint8]. *)
Example RangeStep_uint8_example :
  Yields (RangeStep Tuint8 Tint 100 251 50) [100; 150; 200; 250].
Proof. exists 20%nat. reflexivity. Qed.

(** ** [RangeStep]: the half-open progression *)

(** Outside the 64-bit unsigned types, the check before the loop answers
    [true] exactly when the first step leaves the range of [T]. *)
Lemma willOverflow_spec (T : TInt) (start step : Z) (inc : bool) :
  T <> Tuint64 -> T <> Tuint -> InRange T start -> 0 < step < 2 ^ 64 ->
  willOverflow T start step inc =
  if inc then maxOf T <? start + step else start - step <? minOf T.
Proof.
  intros N1 N2 Hs Hp.
  unfold willOverflow. rewrite intMax_maxOf, intMin_minOf.
  destruct inc; destruct T; try congruence; int_unfold;
    cbn [negb andb Z.eqb Pos.eqb];
    repeat match goal with
           | |- context [Z.geb ?a ?b] => destruct (Z.geb_spec a b)
           | |- context [Z.ltb ?a ?b] => destruct (Z.ltb_spec a b)
           | |- context [Z.gtb ?a ?b] => destruct (Z.gtb_spec a b)
           end; cbn; try reflexivity; exfalso.
  all: Z.to_euclidean_division_equations; lia.
Qed.

(** One step up: the sum, or the sum brought back by [2 ^ bitSize T]. *)
Lemma add_step (T : TInt) (curr step : Z) :
  InRange T curr -> 0 < step < 2 ^ bitSize T ->
  int_add T curr (wrap T step) =
  if curr + step <=? maxOf T then curr + step else curr + step - 2 ^ bitSize T.
Proof.
  intros Hc Hp. destruct (Z.leb_spec (curr + step) (maxOf T));
    destruct T; int_unfold; Z.to_euclidean_division_equations; lia.
Qed.

Lemma sub_step (T : TInt) (curr step : Z) :
  InRange T curr -> 0 < step < 2 ^ bitSize T ->
  int_sub T curr (wrap T step) =
  if minOf T <=? curr - step then curr - step else curr - step + 2 ^ bitSize T.
Proof.
  intros Hc Hp. destruct (Z.leb_spec (minOf T) (curr - step));
    destruct T; int_unfold; Z.to_euclidean_division_equations; lia.
Qed.

Lemma range_width (T : TInt) : maxOf T - minOf T + 1 = 2 ^ bitSize T.
Proof. destruct T; reflexivity. Qed.

Lemma RangeStep_loop_up (T : TInt) (start stop step : Z) (count : nat) :
  InRange T start -> InRange T stop -> 0 < step < 2 ^ bitSize T ->
  forall curr,
    start <= curr -> curr + Z.of_nat count * step < stop ->
    stop <= curr + (Z.of_nat count + 1) * step ->
    Yields (RangeStep_loop T start stop step true curr)
           (progression curr step (S count)).
Proof.
  intros Hs Ht Hp. pose proof (range_width T) as Hw.
  induction count as [|count IH]; intros curr Hc Hlt Hge; apply Observes_iter;
    cbn [progression].
  - apply IterObs_exit. apply Observes_bind. right. exists [curr], true, [].
    repeat split; [apply Observes_yield; auto|]. cbn [negb]. cbv zeta.
    rewrite add_step by (unfold InRange in *; lia).
    replace ((_ >=? stop) || _ || _) with true; [apply Observes_break; auto|].
    symmetry. unfold InRange in *.
    destruct (Z.leb_spec (curr + step) (maxOf T)).
    + destruct (Z.geb_spec (curr + step) stop); [reflexivity | lia].
    + destruct (Z.leb_spec (curr + step - 2 ^ bitSize T) curr); [|lia].
      now rewrite orb_true_r.
  - apply (IterObs_next _ curr (curr + step) [curr]
             (curr + step :: progression (curr + step + step) step count)).
    + apply Observes_bind. right. exists [curr], true, [].
      repeat split; [apply Observes_yield; auto|]. cbn [negb]. cbv zeta.
      rewrite add_step by (unfold InRange in *; lia).
      unfold InRange in *.
      destruct (Z.leb_spec (curr + step) (maxOf T)); [|nia].
      destruct (Z.geb_spec (curr + step) stop); [nia|].
      destruct (Z.ltb_spec (curr + step) start); [lia|].
      destruct (Z.leb_spec (curr + step) curr); [lia|].
      apply Observes_continue. auto.
    + apply Observes_iter. apply (IH (curr + step)); nia.
Qed.

Lemma RangeStep_loop_down (T : TInt) (start stop step : Z) (count : nat) :
  InRange T start -> InRange T stop -> 0 < step < 2 ^ bitSize T ->
  forall curr,
    curr <= start -> stop < curr - Z.of_nat count * step ->
    curr - (Z.of_nat count + 1) * step <= stop ->
    Yields (RangeStep_loop T start stop step false curr)
           (progression curr (- step) (S count)).
Proof.
  intros Hs Ht Hp. pose proof (range_width T) as Hw.
  induction count as [|count IH]; intros curr Hc Hlt Hge; apply Observes_iter;
    cbn [progression].
  - apply IterObs_exit. apply Observes_bind. right. exists [curr], true, [].
    repeat split; [apply Observes_yield; auto|]. cbn [negb]. cbv zeta.
    rewrite sub_step by (unfold InRange in *; lia).
    replace ((_ <=? stop) || _ || _) with true; [apply Observes_break; auto|].
    symmetry. unfold InRange in *.
    destruct (Z.leb_spec (minOf T) (curr - step)).
    + destruct (Z.leb_spec (curr - step) stop); [reflexivity | lia].
    + destruct (Z.geb_spec (curr - step + 2 ^ bitSize T) curr); [|lia].
      now rewrite orb_true_r.
  - apply (IterObs_next _ curr (curr - step) [curr]
             (curr + - step :: progression (curr + - step + - step) (- step) count)).
    + apply Observes_bind. right. exists [curr], true, [].
      repeat split; [apply Observes_yield; auto|]. cbn [negb]. cbv zeta.
      rewrite sub_step by (unfold InRange in *; lia).
      unfold InRange in *.
      destruct (Z.leb_spec (minOf T) (curr - step)); [|nia].
      destruct (Z.leb_spec (curr - step) stop); [nia|].
      destruct (Z.gtb_spec (curr - step) start); [lia|].
      destruct (Z.geb_spec (curr - step) curr); [lia|].
      apply Observes_continue. auto.
    + apply Observes_iter.
      replace (curr + - step) with (curr - step) by lia.
      apply (IH (curr - step)); nia.
Qed.

(** The progression of [RangeStep], by the number of its values. *)
Lemma Yields_RangeStep_count (T S : TInt) (start stop stepSize : Z) (q : nat) :
  T <> Tuint64 -> T <> Tuint ->
  InRange T start -> InRange T stop -> InRange S stepSize -> 0 < stepSize ->
  Z.of_nat q * stepSize < Z.abs (stop - start) <= (Z.of_nat q + 1) * stepSize ->
  Yields (RangeStep T S start stop stepSize)
         (progression start (if start >? stop then - stepSize else stepSize)
                      (Datatypes.S q)).
Proof.
  intros N1 N2 Hs Ht Hz Hp Hq.
  assert (Hstep : 0 < stepSize < 2 ^ 64) by (destruct S; int_unfold; lia).
  pose proof (range_width T) as Hw.
  destruct (willOverflow T start (wrap Tuint64 stepSize)
              (if start >? stop then false else true)) eqn:E.
  - destruct (RangeStep_overflowing T S start stop stepSize Hp E) as [HY _].
    rewrite (wrap_stepSize S), willOverflow_spec in E by assumption.
    assert (q = 0%nat) as ->; [|destruct (start >? stop); exact HY].
    unfold InRange in *.
    destruct (Z.gtb_spec start stop); apply Z.ltb_lt in E; nia.
  - unfold RangeStep. destruct (Z.leb_spec stepSize 0); [lia|]. cbv zeta. rewrite E.
    rewrite (wrap_stepSize S) in * by assumption.
    rewrite willOverflow_spec in E by assumption.
    assert (Hb : stepSize < 2 ^ bitSize T).
    { unfold InRange in *. destruct (Z.gtb_spec start stop); apply Z.ltb_ge in E; lia. }
    destruct (Z.gtb_spec start stop).
    + apply RangeStep_loop_down; auto; try lia; unfold InRange in *; nia.
    + apply RangeStep_loop_up; auto; try lia; unfold InRange in *; nia.
Qed.

(** X2. Outside the 64-bit unsigned types, and for [start <> stop],
    [RangeStep(start, stop, stepSize)] yields the half-open progression:
    [start], [start ± stepSize], ... as long as [stop] is not reached. *)
Theorem RangeStep_half_open (T S : TInt) (start stop stepSize : Z) :
  T <> Tuint64 -> T <> Tuint ->
  InRange T start -> InRange T stop -> InRange S stepSize -> 0 < stepSize ->
  start <> stop ->
  Yields (RangeStep T S start stop stepSize)
         (progression start (if start >? stop then - stepSize else stepSize)
                      (steps_between start stop stepSize)).
Proof.
  intros N1 N2 Hs Ht Hz Hp Hne.
  assert (Hq : 0 <= (Z.abs (stop - start) - 1) / stepSize) by (apply Z.div_pos; lia).
  pose proof (Z.mul_div_le (Z.abs (stop - start) - 1) stepSize Hp) as Hd1.
  pose proof (Z.mul_succ_div_gt (Z.abs (stop - start) - 1) stepSize Hp) as Hd2.
  unfold steps_between.
  replace (Z.to_nat ((Z.abs (stop - start) - 1) / stepSize + 1))
    with (Datatypes.S (Z.to_nat ((Z.abs (stop - start) - 1) / stepSize))) by lia.
  apply Yields_RangeStep_count; auto. rewrite Z2Nat.id by assumption. lia.
Qed.

Lemma RangeStep_half_open_witness :
  Yields (RangeStep Tuint8 Tint 100 251 50) [100; 150; 200; 250] /\
  Yields (RangeStep Tint Tint 8 (-4) 2) [8; 6; 4; 2; 0; -2].
Proof.
  split.
  - apply (RangeStep_half_open Tuint8 Tint 100 251 50);
      first [discriminate | vm_compute; split; discriminate | lia].
  - apply (RangeStep_half_open Tint Tint 8 (-4) 2);
      first [discriminate | vm_compute; split; discriminate | lia].
Defined.

(** ** [RangeTime] *)

Lemma progression_nth (from step : Z) (count i : nat) :
  (i < count)%nat ->
  nth_error (progression from step count) i = Some (from + Z.of_nat i * step).
Proof.
  revert from i. induction count as [|count IH]; intros from [|i] L; cbn [progression nth_error];
    try lia.
  - f_equal. lia.
  - rewrite IH by lia. f_equal. lia.
Qed.

Lemma progression_length (from step : Z) (count : nat) :
  length (progression from step count) = count.
Proof. revert from. induction count as [|count IH]; intros from; cbn; auto. Qed.







(** ** [Cache] *)

Section CacheFacts.
Context {A T C : Type}.

Lemma Runs_to_trans (S S1 S2 : Pipeline A T) l1 v1 l2 v2 :
  Runs_to S l1 v1 S1 -> Runs_to S1 l2 v2 S2 -> Runs_to S (l1 ++ l2) (v1 ++ v2) S2.
Proof.
  intros H1 H2. induction H1 as [S | S Sa log vs S' E _ IH | S a Sa log vs S' E _ IH
                                | S v k log vs S' E _ IH]; cbn [app].
  - assumption.
  - eapply Runs_step; eauto.
  - eapply Runs_invoke; eauto.
  - eapply Runs_produce; eauto.
Qed.

Lemma Runs_to_exhausted (S S' : Pipeline A T) log vs :
  presume S = PReturned -> Runs_to S log vs S' -> log = [] /\ vs = [] /\ S' = S.
Proof. intros E H. inversion H; subst; auto; congruence. Qed.

Lemma replay_app (yield : T -> C -> bool * C) (l1 l2 : list T) (c : C) :
  replay yield (l1 ++ l2) c =
  if fst (replay yield l1 c) then replay yield l2 (snd (replay yield l1 c))
  else (false, snd (replay yield l1 c)).
Proof.
  revert c. induction l1 as [|v l1 IH]; intros c; cbn [app replay fst snd]; [reflexivity|].
  destruct (yield v c) as [[|] c1]; [apply IH | reflexivity].
Qed.

Lemma Cache_continue_spec (fuel : nat) (yield : T -> C -> bool * C) :
  forall rec cur c log (st' : CacheStore A T) c' log',
    Cache_continue fuel yield rec cur c log = Some (st', c', log') ->
    exists invoked vs,
      Runs_to cur invoked vs (upstream st') /\
      log' = log ++ invoked /\
      recorded st' = rec ++ vs /\
      c' = snd (replay yield vs c) /\
      (fst (replay yield vs c) = false \/ presume (upstream st') = PReturned).
Proof.
  induction fuel as [|fuel IH]; intros rec cur c log st' c' log' H; [discriminate|].
  cbn [Cache_continue] in H. destruct (presume cur) as [| cur1 | a cur1 | v k] eqn:E.
  - inversion H; subst. exists [], []. cbn. rewrite !app_nil_r.
    repeat split; auto. apply Runs_here.
  - apply IH in H as (invoked & vs & Hr & Hl & Hv & Hc & Hs).
    exists invoked, vs. repeat split; auto. eapply Runs_step; eauto.
  - apply IH in H as (invoked & vs & Hr & Hl & Hv & Hc & Hs).
    exists (a :: invoked), vs. rewrite <- app_assoc in Hl.
    repeat split; auto. eapply Runs_invoke; eauto.
  - cbv zeta in H. destruct (yield v c) as [[|] c1] eqn:Ey.
    + apply IH in H as (invoked & vs & Hr & Hl & Hv & Hc & Hs).
      exists invoked, (v :: vs). rewrite <- app_assoc in Hv.
      cbn [replay]. rewrite Ey.
      repeat split; auto. eapply Runs_produce; eauto.
    + inversion H; subst. exists [], [v]. cbn [replay recorded upstream]. rewrite Ey.
      rewrite app_nil_r. repeat split; auto.
      eapply Runs_produce; eauto. apply Runs_here.
Qed.

Lemma Cache_drive_spec (fuel : nat) (yield : T -> C -> bool * C)
  (st st' : CacheStore A T) c log c' log' :
  Cache_drive fuel yield st c log = Some (st', c', log') ->
  exists invoked vs,
    Runs_to (upstream st) invoked vs (upstream st') /\
    log' = log ++ invoked /\
    recorded st' = recorded st ++ vs /\
    fed yield c st' c' /\
    (fst (replay yield (recorded st') c) = false \/ presume (upstream st') = PReturned).
Proof.
  unfold Cache_drive, fed. intros H.
  destruct (replay yield (recorded st) c) as [[|] c1] eqn:Er.
  - apply Cache_continue_spec in H as (invoked & vs & Hr & Hl & Hv & Hc & Hs).
    exists invoked, vs. rewrite Hv, replay_app, Er. cbn [fst snd].
    repeat split; auto.
  - inversion H; subst. exists [], []. rewrite !app_nil_r, Er. cbn [fst snd].
    repeat split; auto. apply Runs_here.
Qed.

(** A consumer that stops within the recorded values is served from the
    store alone: the upstream is not resumed, not even for a step. *)
Lemma Cache_drive_replayed (fuel : nat) (yield : T -> C -> bool * C)
  (st : CacheStore A T) c (log : list A) :
  fst (replay yield (recorded st) c) = false ->
  Cache_drive fuel yield st c log = Some (st, snd (replay yield (recorded st) c), log).
Proof.
  unfold Cache_drive. intros H.
  destruct (replay yield (recorded st) c) as [[|] c1]; [discriminate | reflexivity].
Qed.

Lemma Cache_drives_spec (fuel : nat) (consumers : list ((T -> C -> bool * C) * C)) :
  forall (st : CacheStore A T) log st' cs log',
    Cache_drives fuel consumers st log = Some (st', cs, log') ->
    exists invoked vs,
      Runs_to (upstream st) invoked vs (upstream st') /\
      log' = log ++ invoked /\
      recorded st' = recorded st ++ vs /\
      Forall2 (fun consumer c' => fed (fst consumer) (snd consumer) st' c') consumers cs.
Proof.
  induction consumers as [|[yield c] consumers IH]; intros st log st' cs log' H;
    cbn [Cache_drives] in H.
  - inversion H; subst. exists [], []. rewrite !app_nil_r.
    repeat split; [apply Runs_here | constructor].
  - destruct (Cache_drive fuel yield st c log) as [[[st1 c1] log1]|] eqn:E1; [|discriminate].
    destruct (Cache_drives fuel consumers st1 log1) as [[[st2 cs2] log2]|] eqn:E2;
      [|discriminate].
    inversion H; subst; clear H.
    apply Cache_drive_spec in E1 as (i1 & v1 & Hr1 & Hl1 & Hv1 & Hc1 & Hs1).
    apply IH in E2 as (i2 & v2 & Hr2 & Hl2 & Hv2 & Hf2).
    exists (i1 ++ i2), (v1 ++ v2). rewrite Hl2, Hl1, Hv2, Hv1, <- !app_assoc.
    repeat split; [eapply Runs_to_trans; eauto|].
    constructor; [|assumption]. cbn [fst snd]. unfold fed in *.
    destruct Hs1 as [Hs1 | Hs1].
    + rewrite Hv2, replay_app, Hs1. exact Hc1.
    + destruct (Runs_to_exhausted _ _ _ _ Hs1 Hr2) as (_ & -> & _).
      rewrite Hv2, app_nil_r. exact Hc1.
Qed.

End CacheFacts.

(** C7. Whatever the pipeline [S], and however many consumers drive
    [Cache(S)] one after the other, each fully or up to a stop of its own:
    the stage invocations of all the drives together are those of one single
    run of [S], up to where the upstream is left, so that no position has its
    stage invoked twice; every consumer is handed the values of that one run,
    from the first one up to its stop; and a consumer that stops within the
    recorded values is served from the store, without a step of the
    upstream. *)
Theorem Cache_invokes_stage_once {A T C : Type} (S : Pipeline A T) (fuel : nat)
  (consumers : list ((T -> C -> bool * C) * C)) st cs log :
  Cache_drives fuel consumers (Cache S) [] = Some (st, cs, log) ->
  Runs_to S log (recorded st) (upstream st) /\
  Forall2 (fun consumer c' =>
             c' = snd (replay (fst consumer) (recorded st) (snd consumer)))
          consumers cs /\
  (forall yield (c : C), fst (replay yield (recorded st) c) = false ->
     forall fuel', Cache_drive fuel' yield st c log
                   = Some (st, snd (replay yield (recorded st) c), log)).
Proof.
  intros H. apply Cache_drives_spec in H as (invoked & vs & Hr & Hl & Hv & Hf).
  cbn [Cache recorded upstream app] in *. subst log.
  split; [now rewrite Hv|]. split; [exact Hf|].
  intros yield c Hs fuel'. now apply Cache_drive_replayed.
Qed.

(** [TestIterator2_Cache]: a first drive to the end, a second one that stops
    at [6]; the filter has run six times, once per element of the slice. *)
Lemma Cache_invokes_stage_once_witness :
  exists st,
    Cache_drives 20 [(collect_all, []); (until_six, [])]
                 (Cache (counting_filter [1; 2; 3; 4; 5; 6])) []
      = Some (st, [[2; 4; 6]; [2; 4]], [1; 2; 3; 4; 5; 6]) /\
    recorded st = [2; 4; 6] /\
    Runs_to (counting_filter [1; 2; 3; 4; 5; 6]) [1; 2; 3; 4; 5; 6]
            (recorded st) (upstream st).
Proof.
  destruct (Cache_drives 20 [(collect_all, []); (until_six, [])]
              (Cache (counting_filter [1; 2; 3; 4; 5; 6])) [])
    as [[[st cs] log]|] eqn:E; [|discriminate E].
  exists st.
  assert (E' := E). vm_compute in E'. inversion E'; subst; clear E'.
  split; [reflexivity|]. split; [reflexivity|].
  exact (proj1 (Cache_invokes_stage_once _ 20 _ _ _ _ E)).
Defined.

(** ** [Filter] *)

Section Filtering.
Context {T : Type}.

Lemma Filter_sound (predicate : T -> bool) (c : Seq T) l o :
  Observes (Filter c predicate) l o ->
  exists l0, Observes c l0 o /\ l = filter predicate l0.
Proof.
  intros Hl. unfold Filter in Hl. apply Observes_iter in Hl.
  induction Hl as [c l Hl | c l r Hl | c c' l1 l2 o Hl _ IH].
  - obs_inv; try solve [exists []; split; [apply Observes_nil | reflexivity]].
    all: exists [t]; (split; [eauto with obs|]); cbn;
      destruct (predicate t); [reflexivity | discriminate].
  - obs_inv. exists []. split; [eauto with obs | reflexivity].
  - obs_inv; destruct IH as (l0 & H0 & ->); exists (t :: l0);
      (split; [eauto with obs|]); cbn;
      destruct (predicate t); first [reflexivity | discriminate].
Qed.

Lemma Filter_complete (predicate : T -> bool) l0 :
  forall (c : Seq T) o,
    Observes c l0 o -> Observes (Filter c predicate) (filter predicate l0) o.
Proof.
  induction l0 as [|v l0 IH]; intros c o Hc; apply Observes_iter; cbn [filter].
  - destruct o as [[]|]; [|apply IterObs_cut, Observes_nil].
    apply IterObs_exit. apply Observes_bind. right. exists [], None, [].
    repeat split; [now apply Next_pull_done, Observes_done_inv|].
    apply Observes_break. auto.
  - apply Observes_cons_inv in Hc as (c' & Hn & Ho).
    destruct (predicate v) eqn:E.
    + apply (IterObs_next _ c c' [v] (filter predicate l0)).
      * apply Observes_bind. right. exists [], (Some (v, c')), [v].
        repeat split; [now apply Next_pull|]. cbv beta iota.
        rewrite E. cbn [negb]. apply Observes_bind. right. exists [v], true, [].
        repeat split; [apply Observes_yield; auto|]. apply Observes_continue. auto.
      * apply Observes_iter. now apply IH.
    + apply (IterObs_next _ c c' [] (filter predicate l0)).
      * apply Observes_bind. right. exists [], (Some (v, c')), [].
        repeat split; [now apply Next_pull|]. cbv beta iota.
        rewrite E. apply Observes_continue. auto.
      * apply Observes_iter. now apply IH.
Qed.

Lemma Observes_Filter (S : Seq T) (predicate : T -> bool) l o :
  Observes (Filter S predicate) l o <->
  exists l0, Observes S l0 o /\ l = filter predicate l0.
Proof.
  split; [apply Filter_sound|]. intros (l0 & H0 & ->). now apply Filter_complete.
Qed.

Lemma filter_twice (p q : T -> bool) (l : list T) :
  filter q (filter p l) = filter (fun v => p v && q v) l.
Proof.
  induction l as [|v l IH]; cbn; [reflexivity|].
  destruct (p v); cbn; [destruct (q v)|]; now rewrite IH.
Qed.

(** X3. [Filter(S, predicate)] yields the elements of [S] that satisfy the
    predicate, in the order of [S], and nothing else: whatever [S] has
    yielded so far, the filter has yielded the satisfying ones of it, and
    it returns when [S] does. *)
Theorem Filter_keeps_satisfying (S : Seq T) (predicate : T -> bool) :
  (forall l o, Observes (Filter S predicate) l o <->
               exists l0, Observes S l0 o /\ l = filter predicate l0) /\
  (forall l o, Observes (Filter S predicate) l o ->
               Forall (fun v => predicate v = true) l).
Proof.
  split; [apply Observes_Filter|].
  intros l o Hl. apply Observes_Filter in Hl as (l0 & _ & ->).
  apply Forall_forall. intros v Hv. now apply filter_In in Hv.
Qed.

(** X4. Two filters in a row are one filter with both predicates. *)
Theorem Filter_Filter (S : Seq T) (p q : T -> bool) :
  SameElements (Filter (Filter S p) q) (Filter S (fun v => p v && q v)).
Proof.
  intros l o. rewrite !Observes_Filter. split.
  - intros (l1 & H1 & ->). apply Observes_Filter in H1 as (l0 & H0 & ->).
    exists l0. split; [assumption | apply filter_twice].
  - intros (l0 & H0 & ->). exists (filter p l0). split.
    + apply Observes_Filter. eauto.
    + symmetry. apply filter_twice.
Qed.

End Filtering.

(** ** [Take] and [Skip]: prefixes, and how they compose *)

Section Prefixes.
Context {T : Type}.

Lemma Observes_Empty l (o : option unit) :
  Observes (@Empty T) l o <-> l = [] /\ (o = None \/ o = Some tt).
Proof. apply Observes_Ret. Qed.

Lemma option_unit_cases (o : option unit) : o = None \/ o = Some tt.
Proof. destruct o as [[]|]; auto. Qed.

(** X5. [Take(S, n)] yields the first [n] elements of [S] and returns; it
    returns as soon as [S] has yielded [n] elements, whether or not [S]
    would ever return; it never yields more than [n] elements, and only
    elements [S] yields, in the same order. *)
Theorem Take_first_n (S : Seq T) (n : Z) :
  0 < n ->
  (forall l0, Yields S l0 -> Yields (Take S n) (firstn (Z.to_nat n) l0)) /\
  (forall l, Emits S l -> len l = n -> Yields (Take S n) l) /\
  (forall l o, Observes (Take S n) l o -> len l <= n /\ Emits S l).
Proof.
  intros Hn. split; [|split].
  - intros l0 H0. now apply Yields_Take.
  - intros l Hl E. apply Observes_Take; auto.
  - intros l o Hl. apply Observes_Take in Hl; [|assumption].
    destruct Hl as [[L Hl] | (L & Hl & _)]; (split; [lia|]);
      [now apply Observes_partial in Hl | assumption].
Qed.

(** X6. Taking [m] of the first [n] elements is taking [min(n, m)] elements,
    whatever the signs of [n] and [m]. *)
Theorem Take_Take (S : Seq T) (n m : Z) :
  SameElements (Take (Take S n) m) (Take S (Z.min n m)).
Proof.
  intros l o.
  destruct (Z_le_gt_dec m 0) as [Hm | Hm].
  { unfold Take at 1. destruct (Z.leb_spec m 0); [|lia].
    unfold Take. destruct (Z.leb_spec (Z.min n m) 0); [reflexivity | lia]. }
  destruct (Z_le_gt_dec n 0) as [Hn | Hn].
  { rewrite Observes_Take by lia.
    unfold Take. destruct (Z.leb_spec n 0) as [_|]; [|lia].
    destruct (Z.leb_spec (Z.min n m) 0) as [_|]; [|lia].
    rewrite !Observes_Empty. split.
    - intros [[_ H] | (_ & [-> _] & H)]; auto.
    - intros [-> H]. left. split; [len_lia | auto]. }
  rewrite (Observes_Take (Take S n)), !(Observes_Take S) by lia.
  pose proof (option_unit_cases o) as Ho.
  destruct (Z.min_spec n m) as [[Hlt ->] | [Hge ->]]; split.
  - intros [[L [[L' H] | (L' & H & Hr)]] | (L & [[L' H] | (L' & H & Hr)] & Hr')];
      first [ lia | left; split; [lia | assumption] | right; auto ].
  - intros [[L H] | (L & H & Hr)].
    + left. split; [lia|]. left. auto.
    + left. split; [lia|]. right. auto.
  - intros [[L [[L' H] | (L' & H & Hr)]] | (L & [[L' H] | (L' & H & Hr)] & Hr')];
      first [ lia | left; split; [lia | assumption] | right; auto ].
  - intros [[L H] | (L & H & Hr)].
    + left. split; [lia|]. left. split; [lia | assumption].
    + right. split; [assumption|]. split; [|assumption].
      destruct (Z.eq_dec m n) as [-> | Hne].
      * right. auto.
      * left. split; [lia | assumption].
Qed.

Lemma Yields_Skip (S : Seq T) (n : Z) l0 :
  Yields S l0 -> Yields (Skip S n) (skipn (Z.to_nat n) l0).
Proof.
  intros H0. destruct (Z_le_gt_dec n 0) as [Hn | Hn].
  - unfold Skip. destruct (Z.leb_spec n 0); [|lia].
    replace (Z.to_nat n) with 0%nat by lia. exact H0.
  - apply Observes_Skip; [lia|]. exists (firstn (Z.to_nat n) l0).
    rewrite firstn_skipn. split; [assumption|].
    destruct (Z_le_gt_dec n (len l0)); [left; len_lia|].
    right. split; [len_lia|]. apply skipn_all2. len_lia.
Qed.

(** X7. [Skip(S, n)] yields the elements of [S] after the first [n], and
    nothing when [S] has no more than [n] elements; a non-positive [n]
    skips nothing.  What it has yielded at any time is a stretch of
    consecutive elements of [S]. *)
Theorem Skip_drops_first_n (S : Seq T) (n : Z) (l0 : list T) :
  Yields S l0 ->
  Yields (Skip S n) (skipn (Z.to_nat n) l0) /\
  (forall l, Yields (Skip S n) l -> l = skipn (Z.to_nat n) l0) /\
  (len l0 <= n -> Yields (Skip S n) []) /\
  (forall l o, Observes (Skip S n) l o -> exists p rest, l0 = p ++ l ++ rest).
Proof.
  intros H0. pose proof (Yields_Skip S n l0 H0) as HY. split; [exact HY|]. split; [|split].
  - intros l Hl. now destruct (Observes_det _ _ _ _ _ Hl HY).
  - intros L. replace [] with (skipn (Z.to_nat n) l0); [exact HY|].
    apply skipn_all2. len_lia.
  - intros l o Hl. destruct (Z_le_gt_dec n 0) as [Hn | Hn].
    + unfold Skip in Hl. destruct (Z.leb_spec n 0); [|lia]. exists [].
      exact (Observes_prefix _ _ _ _ _ H0 Hl).
    + apply Observes_Skip in Hl as (p & Hp & _); [|lia]. exists p.
      destruct (Observes_prefix _ _ _ _ _ H0 Hp) as [rest ->].
      exists rest. now rewrite <- app_assoc.
Qed.

(** X8. Skipping [n] elements and then [m] more is skipping [n + m]. *)
Theorem Skip_Skip (S : Seq T) (n m : Z) :
  0 <= n -> 0 <= m -> SameElements (Skip (Skip S n) m) (Skip S (n + m)).
Proof.
  intros Hn Hm l o.
  destruct (Z.eq_dec m 0) as [-> | Hm0].
  { rewrite Z.add_0_r. unfold Skip at 1. cbn. reflexivity. }
  destruct (Z.eq_dec n 0) as [-> | Hn0].
  { rewrite Z.add_0_l. unfold Skip at 2. cbn. reflexivity. }
  rewrite (Observes_Skip (Skip S n)), (Observes_Skip S (n + m)) by lia. split.
  - intros (p & H & Hp). apply Observes_Skip in H as (q & H & Hq); [|lia].
    exists (q ++ p). rewrite <- app_assoc. split; [assumption|].
    destruct Hq as [Hq | [Hq E]].
    + destruct Hp as [Hp | [Hp ->]]; [left | right; split; [|reflexivity]]; len_lia.
    + apply app_eq_nil in E as [-> ->]. right. split; [len_lia | reflexivity].
  - intros (r & H & Hr).
    exists (skipn (Z.to_nat n) r). split.
    + apply Observes_Skip; [lia|]. exists (firstn (Z.to_nat n) r).
      rewrite app_assoc, firstn_skipn. split; [assumption|].
      destruct (Z_le_gt_dec n (len r)); [left; len_lia|].
      right. split; [len_lia|].
      destruct Hr as [Hr | [Hr ->]]; [len_lia|].
      rewrite app_nil_r. apply skipn_all2. len_lia.
    + destruct Hr as [Hr | [Hr ->]]; [left | right; split; [|reflexivity]]; len_lia.
Qed.

(** X9. A page of a sequence: [it.Skip(n).Take(m)] yields the [m] elements that
    follow the first [n] of a finite sequence, or those there are when it
    ends before. *)
Theorem Skip_then_Take (it : Seq T) (n m : Z) (l0 : list T) :
  0 < m -> Yields it l0 ->
  Yields (Iterator.Take (Iterator.Skip it n) m)
         (firstn (Z.to_nat m) (skipn (Z.to_nat n) l0)) /\
  (forall l, Yields (Iterator.Take (Iterator.Skip it n) m) l ->
             l = firstn (Z.to_nat m) (skipn (Z.to_nat n) l0)).
Proof.
  intros Hm H0. unfold Iterator.Take, Iterator.Skip.
  assert (HY : Yields (Take (Skip it n) m) (firstn (Z.to_nat m) (skipn (Z.to_nat n) l0))).
  { apply Yields_Take; [assumption|]. now apply Yields_Skip. }
  split; [exact HY|].
  intros l Hl. now destruct (Observes_det _ _ _ _ _ Hl HY).
Qed.

End Prefixes.

Lemma Take_first_n_witness :
  0 < 3 /\
  (forall l0, Yields (Range Tint 0 5) l0 ->
              Yields (Take (Range Tint 0 5) 3) (firstn (Z.to_nat 3) l0)) /\
  (forall l, Emits (Range Tint 0 5) l -> len l = 3 -> Yields (Take (Range Tint 0 5) 3) l) /\
  (forall l o, Observes (Take (Range Tint 0 5) 3) l o -> len l <= 3 /\ Emits (Range Tint 0 5) l).
Proof. split; [lia | apply Take_first_n; lia]. Defined.

Lemma Skip_drops_first_n_witness :
  Yields (Range Tint 0 5) [0; 1; 2; 3; 4] /\
  Yields (Skip (Range Tint 0 5) 3) [3; 4].
Proof.
  assert (H : Yields (Range Tint 0 5) [0; 1; 2; 3; 4]) by (exists 20%nat; reflexivity).
  split; [exact H|]. exact (proj1 (Skip_drops_first_n (Range Tint 0 5) 3 _ H)).
Defined.

Lemma Skip_Skip_witness :
  0 <= 1 /\ 0 <= 2 /\
  SameElements (Skip (Skip (Range Tint 0 5) 1) 2) (Skip (Range Tint 0 5) (1 + 2)).
Proof. split; [lia|]. split; [lia|]. apply Skip_Skip; lia. Defined.

Lemma Skip_then_Take_witness :
  0 < 2 /\ Yields (Range Tint 0 10) [0; 1; 2; 3; 4; 5; 6; 7; 8; 9] /\
  Yields (Iterator.Take (Iterator.Skip (Range Tint 0 10) 3) 2) [3; 4].
Proof.
  assert (H : Yields (Range Tint 0 10) [0; 1; 2; 3; 4; 5; 6; 7; 8; 9])
    by (exists 30%nat; reflexivity).
  split; [lia|]. split; [exact H|].
  destruct (Skip_then_Take (Range Tint 0 10) 3 2 [0; 1; 2; 3; 4; 5; 6; 7; 8; 9]) as [HY _];
    [lia | exact H | exact HY].
Defined.

(** ** [Concat], and buffers that wait for the end of their source *)

Section Chaining.
Context {T : Type}.

Lemma Yields_Concat (seqs : list (Seq T)) (ls : list (list T)) :
  Forall2 Yields seqs ls -> Yields (Concat seqs) (concat ls).
Proof.
  induction 1 as [|seq l seqs ls H _ IH]; cbn [concat].
  - apply Observes_Concat_nil. auto.
  - apply Observes_Concat_cons. right. exists l, (concat ls). auto.
Qed.

(** X10. [Concat(seqs...)] runs its sequences one after the other: when each of
    them yields finitely many elements, it yields all of them, sequence by
    sequence; and it does not get past a sequence that never returns. *)
Theorem Concat_in_sequence (seqs : list (Seq T)) (ls : list (list T)) :
  Forall2 Yields seqs ls ->
  Yields (Concat seqs) (concat ls) /\
  (forall l, Yields (Concat seqs) l -> l = concat ls) /\
  (forall (endless : Seq T) rest l o,
      (forall l', ~ Yields endless l') ->
      Observes (Concat (seqs ++ endless :: rest)) l o ->
      o = None /\
      ((exists l', l = concat ls ++ l' /\ Emits endless l') \/
       (exists l', concat ls = l ++ l'))).
Proof.
  intros HF. pose proof (Yields_Concat seqs ls HF) as HY. split; [exact HY|]. split.
  - intros l Hl. now destruct (Observes_det _ _ _ _ _ Hl HY).
  - intros endless rest l o Hend. clear HY.
    revert l. induction HF as [|seq l1 seqs ls H _ IH]; intros l Hl; cbn [app concat] in *.
    + apply Observes_Concat_cons in Hl as [[-> Hl] | (l1 & l2 & H1 & _)].
      * split; [reflexivity|]. left. exists l. auto.
      * now apply Hend in H1.
    + apply Observes_Concat_cons in Hl as [[-> Hl] | (l1' & l2 & H1 & H2 & ->)].
      * split; [reflexivity|]. right.
        destruct (Observes_prefix _ _ _ _ _ H Hl) as [r ->].
        exists (r ++ concat ls). now rewrite app_assoc.
      * destruct (Observes_det _ _ _ _ _ H H1) as [<- _].
        destruct (IH _ H2) as [-> [(l' & -> & He) | (l' & E)]]; (split; [reflexivity|]).
        -- left. exists l'. now rewrite app_assoc.
        -- right. exists l'. now rewrite E, app_assoc.
Qed.

(** X11. [Concat] is associative: a concatenation used as one of the sequences
    of another one is the concatenation of all of them. *)
Theorem Concat_Concat (xs ys : list (Seq T)) :
  SameElements (Concat [Concat xs; Concat ys]) (Concat (xs ++ ys)).
Proof.
  intros l o. rewrite Observes_Concat2. revert l o.
  induction xs as [|x xs IH]; intros l o; cbn [app].
  - split.
    + intros [[-> H] | (l1 & l2 & H1 & H2 & ->)].
      * apply Observes_Concat_nil in H as [-> _]. apply Observes_nil.
      * apply Observes_Concat_nil in H1 as [-> _]. exact H2.
    + intros H. right. exists [], l. repeat split; [|assumption].
      apply Observes_Concat_nil. auto.
  - rewrite (Observes_Concat_cons x (xs ++ ys)). split.
    + intros [[-> H] | (l1 & l2 & H1 & H2 & ->)].
      * apply Observes_Concat_cons in H as [[_ H] | (l1 & l2 & H1 & H2 & ->)]; [auto|].
        right. exists l1, l2. repeat split; [assumption|]. apply IH. auto.
      * apply Observes_Concat_cons in H1 as [[H1 _] | (l3 & l4 & H3 & H4 & ->)];
          [discriminate|].
        right. exists l3, (l4 ++ l2). rewrite app_assoc. repeat split; [assumption|].
        apply IH. right. eauto.
    + intros [[-> H] | (l1 & l2 & H1 & H2 & ->)].
      * left. split; [reflexivity|]. apply Observes_Concat_cons. auto.
      * apply IH in H2 as [[-> H2] | (l3 & l4 & H3 & H4 & ->)].
        -- left. split; [reflexivity|]. apply Observes_Concat_cons. right. eauto.
        -- right. exists (l1 ++ l3), l4. rewrite app_assoc. repeat split; [|assumption].
           apply Observes_Concat_cons. right. eauto.
Qed.


Lemma Observes_panic {R : Type} l (o : option R) :
  Observes (panic : itree (yieldE T) R) l o -> l = [] /\ o = None.
Proof.
  intros [k H]. revert H. induction k as [|k IH]; cbn.
  - intros H. inversion H. auto.
  - exact IH.
Qed.

Ltac push_cases H :=
  repeat match type of H with
         | Observes (if ?b then _ else _) _ _ => destruct b
         | Observes (match ?x with _ => _ end) _ _ => destruct x
         end.

Lemma TakeLast_fill_sound (n : Z) (st : Seq T * Z * Z * list T) l o :
  Observes (TakeLast_fill n st) l o ->
  l = [] /\ (o <> None -> exists l0, Yields (fst (fst (fst st))) l0).
Proof.
  intros H. unfold TakeLast_fill in H. apply Observes_iter in H.
  induction H as [[[[c h] t] buf] l H | [[[c h] t] buf] l r H
                 | [[[c h] t] buf] [[[c' h'] t'] buf'] l1 l2 o H _ IH];
    cbn [fst snd] in *.
  - apply Observes_bind in H.
    destruct H as [[_ H] | (l1 & x & l2 & H1 & H2 & ->)].
    { apply Observes_pull in H as [-> _]. split; [reflexivity | congruence]. }
    apply Observes_pull in H1 as [-> _]. split; [|congruence].
    destruct x as [[v c']|]; [|now apply Observes_break in H2].
    unfold TakeLast_push in H2. push_cases H2;
      first [ now apply Observes_continue in H2 | now apply Observes_panic in H2 ].
  - apply Observes_bind in H.
    destruct H as [[H _] | (l1 & x & l2 & H1 & H2 & ->)]; [discriminate|].
    apply Observes_pull in H1 as [-> [H1 | (y & Hy & Hx)]]; [discriminate|].
    inversion Hy; subst y; clear Hy.
    destruct x as [[v c']|].
    + unfold TakeLast_push in H2. push_cases H2;
        first [ apply Observes_continue in H2 as [_ [H2 | H2]]; discriminate
              | apply Observes_panic in H2 as [_ H2]; discriminate ].
    + apply Observes_break in H2 as [-> _]. split; [reflexivity|]. intros _.
      exists []. now apply Next_nil.
  - apply Observes_bind in H.
    destruct H as [[H _] | (l3 & x & l4 & H1 & H2 & ->)]; [discriminate|].
    apply Observes_pull in H1 as [-> [H1 | (y & Hy & Hx)]]; [discriminate|].
    inversion Hy; subst y; clear Hy.
    destruct x as [[v c1]|]; [|apply Observes_break in H2 as [_ [H2 | H2]]; discriminate].
    assert (l4 = [] /\ c1 = c') as [-> ->].
    { unfold TakeLast_push in H2. push_cases H2;
        first [ apply Observes_continue in H2 as [-> [H2 | H2]];
                [discriminate | inversion H2; auto]
              | apply Observes_panic in H2 as [_ H2]; discriminate ]. }
    destruct IH as [-> IH]. split; [reflexivity|]. intros Ho.
    destruct (IH Ho) as (l0 & H0). exists (v :: l0). unfold Yields in *. eauto with obs.
Qed.

Lemma Reverse_fill_sound (st : Seq T * list T) l o :
  Observes (Reverse_fill st) l o ->
  l = [] /\ (o <> None -> exists l0, Yields (fst st) l0).
Proof.
  intros H. unfold Reverse_fill in H. apply Observes_iter in H.
  induction H as [[c buf] l H | [c buf] l r H | [c buf] [c' buf'] l1 l2 o H _ IH];
    cbn [fst snd] in *.
  - split; [|congruence]. obs_inv; reflexivity.
  - obs_inv. split; [reflexivity|]. intros _. exists []. now apply Next_nil.
  - obs_inv. destruct IH as [-> IH]. split; [reflexivity|]. intros Ho.
    destruct (IH Ho) as (l0 & H0). exists (t :: l0). unfold Yields in *. eauto with obs.
Qed.

(** X13. [TakeLast] and [Reverse] buffer their source: neither yields anything,
    nor returns, before the source has returned.  On a sequence that never
    ends they stay silent for ever. *)
Theorem buffered_until_the_end (zero : T) (S : Seq T) (n : Z) :
  0 < n ->
  (forall l o, Observes (TakeLast zero S n) l o -> l <> [] \/ o <> None ->
               exists l0, Yields S l0) /\
  (forall l o, Observes (Reverse S) l o -> l <> [] \/ o <> None ->
               exists l0, Yields S l0).
Proof.
  intros Hn. split; intros l o H Hl.
  - unfold TakeLast in H. destruct (Z.leb_spec n 0) as [|_]; [lia|].
    apply Observes_bind in H as [[-> H] | (l1 & x & l2 & H1 & H2 & ->)].
    + apply TakeLast_fill_sound in H as [-> _]. destruct Hl; congruence.
    + apply TakeLast_fill_sound in H1 as [_ H1]. apply H1. discriminate.
  - unfold Reverse in H.
    apply Observes_bind in H as [[-> H] | (l1 & x & l2 & H1 & H2 & ->)].
    + apply Reverse_fill_sound in H as [-> _]. destruct Hl; congruence.
    + apply Reverse_fill_sound in H1 as [_ H1]. apply H1. discriminate.
Qed.

(** X14. [Reverse(S)] yields the elements of a finite [S] from the last to the
    first, and reversing twice gives [S] back. *)
Theorem Reverse_Reverse (S : Seq T) (l0 : list T) :
  Yields S l0 ->
  Yields (Reverse S) (rev l0) /\
  (forall l, Yields (Reverse S) l -> l = rev l0) /\
  Yields (Reverse (Reverse S)) l0.
Proof.
  intros H0. pose proof (Yields_Reverse S l0 H0) as HR. split; [exact HR|]. split.
  - intros l Hl. now destruct (Observes_det _ _ _ _ _ Hl HR).
  - rewrite <- (rev_involutive l0). now apply Yields_Reverse.
Qed.

End Chaining.

Lemma Concat_in_sequence_witness :
  Forall2 Yields [Range Tint 0 2; Range Tint 5 7] [[0; 1]; [5; 6]] /\
  Yields (Concat [Range Tint 0 2; Range Tint 5 7]) [0; 1; 5; 6].
Proof.
  assert (H : Forall2 Yields [Range Tint 0 2; Range Tint 5 7] [[0; 1]; [5; 6]]).
  { repeat constructor; exists 20%nat; reflexivity. }
  split; [exact H|]. exact (proj1 (Concat_in_sequence _ _ H)).
Defined.


Lemma buffered_until_the_end_witness :
  0 < 2 /\
  (forall l o, Observes (TakeLast 0 (Range Tint 0 5) 2) l o -> l <> [] \/ o <> None ->
               exists l0, Yields (Range Tint 0 5) l0) /\
  (forall l o, Observes (Reverse (Range Tint 0 5)) l o -> l <> [] \/ o <> None ->
               exists l0, Yields (Range Tint 0 5) l0).
Proof. split; [lia|]. apply buffered_until_the_end. lia. Defined.

Lemma Reverse_Reverse_witness :
  Yields (Range Tint 0 5) [0; 1; 2; 3; 4] /\
  Yields (Reverse (Range Tint 0 5)) [4; 3; 2; 1; 0] /\
  Yields (Reverse (Reverse (Range Tint 0 5))) [0; 1; 2; 3; 4].
Proof.
  assert (H : Yields (Range Tint 0 5) [0; 1; 2; 3; 4]) by (exists 20%nat; reflexivity).
  split; [exact H|]. destruct (Reverse_Reverse _ _ H) as (H1 & _ & H2). split; assumption.
Defined.

(** ** More compositions *)

Section Compositions.
Context {T : Type}.

Lemma droplast_droplast (n m : Z) (l : list T) :
  0 <= n -> 0 <= m -> droplast m (droplast n l) = droplast (n + m) l.
Proof.
  intros Hn Hm. unfold droplast. rewrite length_firstn, firstn_firstn.
  f_equal. lia.
Qed.

(** X15. Dropping the last [n] elements and then the last [m] of the rest is
    dropping the last [n + m]. *)
Theorem SkipLast_SkipLast (zero : T) (S : Seq T) (n m : Z) :
  0 <= n -> 0 <= m ->
  SameElements (SkipLast zero (SkipLast zero S n) m) (SkipLast zero S (n + m)).
Proof.
  intros Hn Hm l o. rewrite !Observes_SkipLast by lia. split.
  - intros (l1 & H1 & ->). apply Observes_SkipLast in H1 as (l0 & H0 & ->); [|lia].
    exists l0. split; [assumption | now apply droplast_droplast].
  - intros (l0 & H0 & ->). exists (droplast n l0). split.
    + apply Observes_SkipLast; [lia|]. eauto.
    + symmetry. now apply droplast_droplast.
Qed.

Lemma distinct_from_filter `{Comparable T} (p : T -> bool) (l seen seen' : list T) :
  (forall v, p v = true -> (In v seen <-> In v seen')) ->
  distinct_from seen (filter p l) = filter p (distinct_from seen' l).
Proof.
  revert seen seen'. induction l as [|w l IH]; intros seen seen' E; cbn [filter distinct_from];
    [reflexivity|].
  destruct (p w) eqn:Pw; cbn [distinct_from].
  - assert (Ew : existsb (fun k => equal k w) seen = existsb (fun k => equal k w) seen').
    { apply eq_true_iff_eq. rewrite !existsb_eqb. now apply E. }
    rewrite Ew. destruct (existsb (fun k => equal k w) seen'); [now apply IH|].
    cbn [filter]. rewrite Pw. f_equal. apply IH.
    intros v Pv. cbn. rewrite (E v Pv). tauto.
  - destruct (existsb (fun k => equal k w) seen'); [now apply IH|].
    cbn [filter]. rewrite Pw. apply IH.
    intros v Pv. cbn. rewrite (E v Pv). split; [tauto|].
    intros [-> | ?]; [congruence | assumption].
Qed.

(** X16. Filtering and deduplicating commute: the distinct values that satisfy
    a predicate are the satisfying values, deduplicated. *)
Theorem Filter_Distinct `{Comparable T} (S : Seq T) (predicate : T -> bool) :
  SameElements (Filter (Distinct S) predicate) (Distinct (Filter S predicate)).
Proof.
  intros l o. rewrite Observes_Filter, Observes_Distinct. split.
  - intros (l1 & H1 & ->). apply Observes_Distinct in H1 as (l0 & H0 & ->).
    exists (filter predicate l0). split; [apply Observes_Filter; eauto|].
    symmetry. apply distinct_from_filter. tauto.
  - intros (l1 & H1 & ->). apply Observes_Filter in H1 as (l0 & H0 & ->).
    exists (first_occurrences l0). split; [apply Observes_Distinct; eauto|].
    apply distinct_from_filter. tauto.
Qed.

End Compositions.

Lemma SkipLast_SkipLast_witness :
  0 <= 1 /\ 0 <= 2 /\
  SameElements (SkipLast 0 (SkipLast 0 (Range Tint 0 5) 1) 2)
               (SkipLast 0 (Range Tint 0 5) (1 + 2)).
Proof. split; [lia|]. split; [lia|]. apply SkipLast_SkipLast; lia. Defined.

(** ** The distinctor, [DistinctBy], and the operators on pairs *)

(** Loops and binds with the same observations, piece by piece. *)
Lemma Observes_bind_ext {T R U : Type} (t : itree (yieldE T) R)
  (k1 k2 : R -> itree (yieldE T) U) :
  (forall x l o, Observes (k1 x) l o <-> Observes (k2 x) l o) ->
  forall l o, Observes (ITree.bind t k1) l o <-> Observes (ITree.bind t k2) l o.
Proof.
  intros E l o. rewrite !Observes_bind.
  split; (intros [H | (l1 & x & l2 & H1 & H2 & ->)]; [left; exact H | right]);
    exists l1, x, l2; repeat split; try assumption; now apply E.
Qed.

Lemma Observes_iter_ext {T I R : Type} (f g : I -> itree (yieldE T) (I + R)) :
  (forall i l o, Observes (f i) l o <-> Observes (g i) l o) ->
  forall i l o, Observes (ITree.iter f i) l o <-> Observes (ITree.iter g i) l o.
Proof.
  intros E i l o. rewrite !Observes_iter.
  split; induction 1 as [i l H | i l r H | i i' l1 l2 o H _ IH];
    [ apply IterObs_cut | apply IterObs_exit | eapply IterObs_next; [|exact IH]
    | apply IterObs_cut | apply IterObs_exit | eapply IterObs_next; [|exact IH] ];
    now apply E.
Qed.

Section Distinctor.
Context {K : Type} `{Comparable K}.

Lemma equal_refl (k : K) : equal k k = true.
Proof. now apply equal_eq. Qed.

Lemma equal_neq (k k' : K) : k <> k' -> equal k k' = false.
Proof.
  intros N. destruct (equal k k') eqn:E; [|reflexivity]. now apply equal_eq in E.
Qed.

(** X17. [mark] answers [true] for a key exactly once: on a fresh distinctor
    every key is new; once marked, a key is never new again; and marking
    one key leaves the answers for the other keys as they were. *)
Theorem mark_once (d : distinctor K) (key : K) :
  fst (mark newDistinctor key) = true /\
  (fst (mark d key) = true <-> map_lookup (dm d) key = None) /\
  fst (mark (snd (mark d key)) key) = false /\
  (forall key', key' <> key ->
                fst (mark (snd (mark d key)) key') = fst (mark d key')).
Proof.
  split; [reflexivity|]. unfold mark.
  destruct (map_lookup (dm d) key) as [b|] eqn:E; cbn [fst snd dm].
  - split; [split; discriminate|]. rewrite E. split; [reflexivity|]. reflexivity.
  - split; [tauto|]. cbn [map_set map_lookup]. rewrite equal_refl.
    split; [reflexivity|]. intros key' N. rewrite (equal_neq key key') by congruence.
    destruct (map_lookup (dm d) key'); reflexivity.
Qed.

End Distinctor.

Section DistinctByKeys.
Context {T K : Type} `{Comparable K}.

Lemma map_distinct_by (key : T -> K) (l : list T) (seen : list K) :
  map key (distinct_by key seen l) = distinct_from seen (map key l).
Proof.
  revert seen. induction l as [|v l IH]; intros seen; cbn; [reflexivity|].
  destruct (existsb (fun k => equal k (key v)) seen); cbn; now rewrite IH.
Qed.

(** X18. [DistinctBy(S, keySelector)] yields, of the elements of [S] with the
    same key, the first one only, in the order of [S]: no two elements it
    yields have the same key, and every key of a finite [S] is the key of an
    element it yields. *)
Theorem DistinctBy_first_of_each_key (S : Seq T) (keySelector : T -> K) :
  (forall l o, Observes (DistinctBy S keySelector) l o <->
               exists l0, Observes S l0 o /\ l = distinct_by keySelector [] l0) /\
  (forall l o, Observes (DistinctBy S keySelector) l o -> NoDup (map keySelector l)) /\
  (forall l0 l, Yields S l0 -> Yields (DistinctBy S keySelector) l ->
                forall k, In k (map keySelector l) <-> In k (map keySelector l0)).
Proof.
  split; [apply Observes_DistinctBy|]. split.
  - intros l o Hl. apply Observes_DistinctBy in Hl as (l0 & _ & ->).
    rewrite map_distinct_by. apply distinct_from_NoDup.
  - intros l0 l H0 Hl k. apply Observes_DistinctBy in Hl as (l1 & H1 & ->).
    destruct (Observes_det _ _ _ _ _ H0 H1) as [<- _].
    rewrite map_distinct_by, distinct_from_In. cbn. tauto.
Qed.

End DistinctByKeys.

Section DistinctValues.
Context {T : Type} `{Comparable T}.


End DistinctValues.

Section Pairs.
Context {T1 T2 : Type}.

Lemma DistinctV1_DistinctBy `{Comparable T1} (S : Seq2 T1 T2) :
  SameElements (DistinctV1 S) (DistinctBy S fst).
Proof.
  intros l o. unfold DistinctV1, DistinctBy, DistinctBy_loop.
  apply Observes_iter_ext. intros [next yielded] l' o'.
  apply Observes_bind_ext. intros [[[v1 v2] c]|] l'' o''; reflexivity.
Qed.

Lemma DistinctV2_DistinctBy `{Comparable T2} (S : Seq2 T1 T2) :
  SameElements (DistinctV2 S) (DistinctBy S snd).
Proof.
  intros l o. unfold DistinctV2, DistinctBy, DistinctBy_loop.
  apply Observes_iter_ext. intros [next yielded] l' o'.
  apply Observes_bind_ext. intros [[[v1 v2] c]|] l'' o''; reflexivity.
Qed.

Lemma Distinct2By_DistinctBy {K : Type} `{Comparable K} (S : Seq2 T1 T2)
  (keySelector : T1 -> T2 -> K) :
  SameElements (Distinct2By S keySelector)
               (DistinctBy S (fun p => keySelector (fst p) (snd p))).
Proof.
  intros l o. unfold Distinct2By, DistinctBy, DistinctBy_loop.
  apply Observes_iter_ext. intros [next yielded] l' o'.
  apply Observes_bind_ext. intros [[[v1 v2] c]|] l'' o''; reflexivity.
Qed.

(** X20. [DistinctV1] keeps, of the pairs with the same first value, the first
    one; [DistinctV2] does so by the second value, and [Distinct2By] by the
    key computed from both. *)
Theorem Distinct_on_pairs {K : Type} `{Comparable T1} `{Comparable T2} `{Comparable K}
  (S : Seq2 T1 T2) (keySelector : T1 -> T2 -> K) :
  (forall l o, Observes (DistinctV1 S) l o <->
               exists l0, Observes S l0 o /\ l = distinct_by fst [] l0) /\
  (forall l o, Observes (DistinctV2 S) l o <->
               exists l0, Observes S l0 o /\ l = distinct_by snd [] l0) /\
  (forall l o, Observes (Distinct2By S keySelector) l o <->
               exists l0, Observes S l0 o /\
                          l = distinct_by (fun p => keySelector (fst p) (snd p)) [] l0).
Proof.
  split; [|split]; intros l o.
  - rewrite (DistinctV1_DistinctBy S l o). apply Observes_DistinctBy.
  - rewrite (DistinctV2_DistinctBy S l o). apply Observes_DistinctBy.
  - rewrite (Distinct2By_DistinctBy S keySelector l o). apply Observes_DistinctBy.
Qed.

End Pairs.

(** ** The operators on pairs *)

Section PairVersions.
Context {T1 T2 : Type}.

Lemma Filter2_Filter (S : Seq2 T1 T2) (predicate : T1 -> T2 -> bool) :
  SameElements (Filter2 S predicate) (Filter S (fun p => predicate (fst p) (snd p))).
Proof.
  intros l o. unfold Filter2, Filter.
  apply Observes_iter_ext. intros next l' o'.
  apply Observes_bind_ext. intros [[[v1 v2] c]|] l'' o''; reflexivity.
Qed.

Lemma Take2_Take (S : Seq2 T1 T2) (n : Z) : SameElements (Take2 S n) (Take S n).
Proof.
  intros l o. unfold Take2, Take, Take_loop. destruct (n <=? 0); [reflexivity|].
  apply Observes_iter_ext. intros [next count] l' o'.
  apply Observes_bind_ext. intros [[[v1 v2] c]|] l'' o''; reflexivity.
Qed.

Lemma Skip2_Skip (S : Seq2 T1 T2) (n : Z) : SameElements (Skip2 S n) (Skip S n).
Proof.
  intros l o. unfold Skip2, Skip, Skip_loop. destruct (n <=? 0); [reflexivity|].
  apply Observes_iter_ext. intros [next count] l' o'.
  apply Observes_bind_ext. intros [[[v1 v2] c]|] l'' o''; reflexivity.
Qed.

Lemma Concat2_Concat (seqs : list (Seq2 T1 T2)) :
  SameElements (Concat2 seqs) (Concat seqs).
Proof.
  induction seqs as [|seq seqs IH]; intros l o; cbn [Concat2 Concat]; [reflexivity|].
  rewrite !Observes_bind.
  assert (E : forall l x, Observes (for_range seq (fun '(v1, v2) => yield (v1, v2))) l x <->
                          Observes (for_range seq (fun v => yield v)) l x).
  { intros l' x. unfold for_range. apply Observes_iter_ext. intros c l'' o''.
    destruct (resume c) as [| |[v1 v2] k]; reflexivity. }
  split; (intros [[-> H] | (l1 & x & l2 & H1 & H2 & ->)];
          [left; split; [reflexivity | now apply E] | right]);
    exists l1, x, l2; (repeat split; [now apply E|]);
    destruct x; first [now apply IH | assumption].
Qed.

(** X21. The operators on pairs do to the pairs what their counterparts do
    to single values: [Filter2], [Take2], [Skip2] and [Concat2] yield what
    [Filter], [Take], [Skip] and [Concat] yield of the same sequences. *)
Theorem operators_on_pairs (S : Seq2 T1 T2) (seqs : list (Seq2 T1 T2)) (n : Z)
  (predicate : T1 -> T2 -> bool) :
  SameElements (Filter2 S predicate) (Filter S (fun p => predicate (fst p) (snd p))) /\
  SameElements (Take2 S n) (Take S n) /\
  SameElements (Skip2 S n) (Skip S n) /\
  SameElements (Concat2 seqs) (Concat seqs).
Proof.
  split; [apply Filter2_Filter|]. split; [apply Take2_Take|].
  split; [apply Skip2_Skip | apply Concat2_Concat].
Qed.

End PairVersions.

(** ** [RangeStep]: what holds for every type and every range *)

Lemma RangeStep_goes_up (next stop start curr : Z) :
  (next >=? stop) || (next <? start) || (next <=? curr) = false ->
  curr < next /\ start <= next < stop.
Proof.
  destruct (Z.geb_spec next stop), (Z.ltb_spec next start), (Z.leb_spec next curr);
    cbn; intros E; first [discriminate E | lia].
Qed.

Lemma RangeStep_goes_down (next stop start curr : Z) :
  (next <=? stop) || (next >? start) || (next >=? curr) = false ->
  next < curr /\ stop < next <= start.
Proof.
  destruct (Z.leb_spec next stop), (Z.gtb_spec next start), (Z.geb_spec next curr);
    cbn; intros E; first [discriminate E | lia].
Qed.

Lemma RangeStep_loop_bounds_up (T : TInt) (start stop step : Z) (curr : Z) l o :
  Observes (RangeStep_loop T start stop step true curr) l o ->
  StronglySorted Z.lt l /\
  Forall (fun v => v = curr \/ (curr < v /\ start <= v < stop)) l.
Proof.
  intros H. unfold RangeStep_loop in H. apply Observes_iter in H.
  induction H as [curr l H | curr l r H | curr next l1 l2 o H _ IH].
  - obs_inv; repeat constructor.
  - obs_inv; repeat constructor.
  - obs_inv.
    destruct IH as [IHs IHf]. rewrite Forall_forall in IHf.
    match goal with E : _ = false |- _ => apply RangeStep_goes_up in E as L end.
    set (next := int_add T curr (wrap T step)) in *.
    split.
    + constructor; [assumption|]. apply Forall_forall. intros v Hv.
      destruct (IHf v Hv) as [-> | ?]; lia.
    + constructor; [auto|]. apply Forall_forall. intros v Hv.
      destruct (IHf v Hv) as [-> | ?]; right; lia.
Qed.

Lemma RangeStep_loop_bounds_down (T : TInt) (start stop step : Z) (curr : Z) l o :
  Observes (RangeStep_loop T start stop step false curr) l o ->
  StronglySorted Z.gt l /\
  Forall (fun v => v = curr \/ (v < curr /\ stop < v <= start)) l.
Proof.
  intros H. unfold RangeStep_loop in H. apply Observes_iter in H.
  induction H as [curr l H | curr l r H | curr next l1 l2 o H _ IH].
  - obs_inv; repeat constructor.
  - obs_inv; repeat constructor.
  - obs_inv.
    destruct IH as [IHs IHf]. rewrite Forall_forall in IHf.
    match goal with E : _ = false |- _ => apply RangeStep_goes_down in E as L end.
    set (next := int_sub T curr (wrap T step)) in *.
    split.
    + constructor; [assumption|]. apply Forall_forall. intros v Hv.
      destruct (IHf v Hv) as [-> | ?]; lia.
    + constructor; [auto|]. apply Forall_forall. intros v Hv.
      destruct (IHf v Hv) as [-> | ?]; right; lia.
Qed.

Lemma RangeStep_loop_ends_up (T : TInt) (start stop step : Z) (k : nat) :
  forall curr, stop - curr <= Z.of_nat k ->
               exists l, Yields (RangeStep_loop T start stop step true curr) l.
Proof.
  induction k as [|k IH]; intros curr Hk;
    set (next := int_add T curr (wrap T step));
    destruct ((next >=? stop) || (next <? start) || (next <=? curr)) eqn:E.
  1,3: exists [curr]; apply Observes_iter, IterObs_exit, Observes_bind; right;
       exists [curr], true, []; (repeat split; [apply Observes_yield; auto|]);
       cbn [negb]; cbv zeta; fold next; rewrite E; apply Observes_break; auto.
  - apply RangeStep_goes_up in E. lia.
  - destruct (IH next) as [l Hl]; [apply RangeStep_goes_up in E; lia|].
    exists (curr :: l). apply Observes_iter.
    apply (IterObs_next _ curr next [curr] l); [|now apply Observes_iter].
    apply Observes_bind. right. exists [curr], true, [].
    repeat split; [apply Observes_yield; auto|].
    cbn [negb]. cbv zeta. fold next. rewrite E. apply Observes_continue. auto.
Qed.

Lemma RangeStep_loop_ends_down (T : TInt) (start stop step : Z) (k : nat) :
  forall curr, curr - stop <= Z.of_nat k ->
               exists l, Yields (RangeStep_loop T start stop step false curr) l.
Proof.
  induction k as [|k IH]; intros curr Hk;
    set (next := int_sub T curr (wrap T step));
    destruct ((next <=? stop) || (next >? start) || (next >=? curr)) eqn:E.
  1,3: exists [curr]; apply Observes_iter, IterObs_exit, Observes_bind; right;
       exists [curr], true, []; (repeat split; [apply Observes_yield; auto|]);
       cbn [negb]; cbv zeta; fold next; rewrite E; apply Observes_break; auto.
  - apply RangeStep_goes_down in E. lia.
  - destruct (IH next) as [l Hl]; [apply RangeStep_goes_down in E; lia|].
    exists (curr :: l). apply Observes_iter.
    apply (IterObs_next _ curr next [curr] l); [|now apply Observes_iter].
    apply Observes_bind. right. exists [curr], true, [].
    repeat split; [apply Observes_yield; auto|].
    cbn [negb]. cbv zeta. fold next. rewrite E. apply Observes_continue. auto.
Qed.

(** X22. [RangeStep] never wraps around and never runs for ever, whatever the
    type, the range and the step: it returns after finitely many values,
    and the values it yields go strictly up (when [start <= stop]) or
    strictly down (when [start > stop]), each of them either [start] itself
    or strictly between [start] and [stop]. *)
Theorem RangeStep_never_wraps (T S : TInt) (start stop stepSize : Z) :
  (exists l, Yields (RangeStep T S start stop stepSize) l) /\
  (forall l o, Observes (RangeStep T S start stop stepSize) l o ->
     if start >? stop
     then StronglySorted Z.gt l /\ Forall (fun v => v = start \/ stop < v < start) l
     else StronglySorted Z.lt l /\ Forall (fun v => v = start \/ start < v < stop) l).
Proof.
  unfold RangeStep. destruct (Z.leb_spec stepSize 0) as [|Hp].
  { split; [exists []; apply Observes_Ret; auto|].
    intros l o H'. apply Observes_Ret in H' as [-> _].
    destruct (start >? stop); split; constructor. }
  cbv zeta.
  destruct (willOverflow T start (wrap Tuint64 stepSize)
              (if start >? stop then false else true)).
  { split; [exists [start]; apply Observes_single; auto|].
    intros l o H'. apply Observes_single in H' as [[-> _] | [-> _]];
      destruct (start >? stop); repeat constructor. }
  destruct (Z.gtb_spec start stop) as [Hgt | Hle]; split.
  - apply (RangeStep_loop_ends_down T start stop _ (Z.to_nat (start - stop))). lia.
  - intros l o H'. apply RangeStep_loop_bounds_down in H' as [Hs Hf].
    split; [assumption|]. eapply Forall_impl; [|exact Hf].
    cbv beta. intros v [-> | ?]; [auto | right; lia].
  - apply (RangeStep_loop_ends_up T start stop _ (Z.to_nat (stop - start))). lia.
  - intros l o H'. apply RangeStep_loop_bounds_up in H' as [Hs Hf].
    split; [assumption|]. eapply Forall_impl; [|exact Hf].
    cbv beta. intros v [-> | ?]; [auto | right; lia].
Qed.

(** X23. With a positive step, [RangeStep] yields [start] first, whatever the
    range; and [RangeStep(start, start, stepSize)] yields exactly [start],
    although the range from [start] to [start] has no value in it. *)
Theorem RangeStep_starts_at_start (T S : TInt) (start stop stepSize : Z) :
  0 < stepSize ->
  Emits (RangeStep T S start stop stepSize) [start] /\
  (start = stop ->
   Yields (RangeStep T S start stop stepSize) [start] /\
   forall l, Yields (RangeStep T S start stop stepSize) l -> l = [start]).
Proof.
  intros Hp.
  assert (HE : Emits (RangeStep T S start stop stepSize) [start]).
  { unfold RangeStep. destruct (Z.leb_spec stepSize 0) as [|_]; [lia|]. cbv zeta.
    destruct (willOverflow _ _ _ _); [apply Observes_single; auto|].
    apply Observes_iter, IterObs_cut, Observes_bind. left.
    split; [reflexivity|]. apply Observes_yield. auto. }
  split; [exact HE|]. intros <-.
  destruct (RangeStep_never_wraps T S start start stepSize) as [[l0 H0] Hb].
  assert (l0 = [start]) as ->.
  { destruct (Observes_prefix _ _ _ _ _ H0 HE) as [rest ->].
    specialize (Hb _ _ H0). rewrite Z.gtb_ltb, Z.ltb_irrefl in Hb.
    destruct Hb as [Hs Hf]. destruct rest as [|v rest]; [reflexivity|]. exfalso.
    cbn [app] in *. inversion Hf as [|? ? _ Hf']. inversion Hf' as [|? ? Hv _].
    inversion Hs as [|? ? _ Hlt]. inversion Hlt as [|? ? Hsv _]. lia. }
  split; [exact H0|]. intros l Hl. now destruct (Observes_det _ _ _ _ _ Hl H0).
Qed.

Lemma RangeStep_starts_at_start_witness :
  0 < 1 /\
  Emits (RangeStep Tint Tint 5 5 1) [5] /\
  Yields (RangeStep Tint Tint 5 5 1) [5].
Proof.
  split; [lia|].
  destruct (RangeStep_starts_at_start Tint Tint 5 5 1) as [H1 H2]; [lia|].
  split; [exact H1 | exact (proj1 (H2 eq_refl))].
Defined.

(** X24. Over [uint], as wide as [uint64], [RangeStep] with a positive step yields
    the single value [start], whatever [start] and [stop] are: the check
    before the loop answers [true] for every range, as it does over
    [uint64]. *)
Theorem RangeStep_uint_single (S : TInt) (start stop stepSize : Z) :
  0 < stepSize ->
  bitSize Tuint = bitSize Tuint64 /\
  (forall v step inc, 0 <= step -> willOverflow Tuint v step inc = true) /\
  Yields (RangeStep Tuint S start stop stepSize) [start] /\
  (forall l, Yields (RangeStep Tuint S start stop stepSize) l -> l = [start]).
Proof.
  intros Hp. split; [reflexivity|].
  split; [intros v step inc L; now apply willOverflow_uint64|].
  destruct (RangeStep_overflowing Tuint S start stop stepSize Hp) as [HY _].
  { apply willOverflow_uint64, wrap_uint64_nonneg. }
  split; [exact HY|]. intros l Hl. now destruct (Observes_det _ _ _ _ _ Hl HY).
Qed.

Lemma RangeStep_uint_single_witness :
  0 < 1 /\ Yields (RangeStep Tuint Tint 0 5 1) [0].
Proof.
  split; [lia|].
  destruct (RangeStep_uint_single Tint 0 5 1) as (_ & _ & H & _); [lia | exact H].
Defined.

(** X25. [Range(start, stop)] counts from [start] towards [stop], one by one, up
    or down, and stops before [stop] (for every type but [uint] and
    [uint64], and [start <> stop]). *)
Theorem Range_counts_to_stop (T : TInt) (start stop : Z) :
  T <> Tuint64 -> T <> Tuint ->
  InRange T start -> InRange T stop -> start <> stop ->
  Yields (Range T start stop)
         (progression start (if start >? stop then -1 else 1)
                      (Z.to_nat (Z.abs (stop - start)))).
Proof.
  intros N1 N2 Hs Ht Hne. unfold Range.
  replace (Z.to_nat (Z.abs (stop - start)))
    with (Datatypes.S (Z.to_nat (Z.abs (stop - start) - 1))) by lia.
  apply Yields_RangeStep_count; auto; [|lia|lia]. vm_compute. split; discriminate.
Qed.

Lemma Range_counts_to_stop_witness :
  Yields (Range Tint8 3 (-2)) [3; 2; 1; 0; -1] /\
  Yields (Range Tuint16 7 10) [7; 8; 9].
Proof.
  split.
  - apply (Range_counts_to_stop Tint8 3 (-2));
      first [discriminate | vm_compute; split; discriminate].
  - apply (Range_counts_to_stop Tuint16 7 10);
      first [discriminate | vm_compute; split; discriminate].
Defined.

(** ** The bounds of the integer types *)

(** X26. [intMin] and [intMax] compute the least and the greatest value of each
    of the ten integer types from the bit pattern of [^T(0)], and
    [countBits] its width. *)
Theorem intMin_intMax_bounds (t : TInt) :
  intMin t = (if signed t then - 2 ^ (countBits t - 1) else 0) /\
  intMax t = (if signed t then 2 ^ (countBits t - 1) - 1 else 2 ^ countBits t - 1) /\
  countBits t = bitSize t /\
  (forall z, InRange t z <-> intMin t <= z <= intMax t).
Proof.
  rewrite intMin_minOf, intMax_maxOf, countBits_bitSize.
  repeat split; unfold InRange in *; lia.
Qed.

(** X27. For every type but [uint] and [uint64], [willOverflow] answers [true]
    exactly when one step from [v], up or down, leaves the range of the
    type. *)
Theorem willOverflow_exact (T : TInt) (v step : Z) :
  T <> Tuint64 -> T <> Tuint -> InRange T v -> 0 < step < 2 ^ 64 ->
  (willOverflow T v step true = true <-> maxOf T < v + step) /\
  (willOverflow T v step false = true <-> v - step < minOf T).
Proof.
  intros N1 N2 Hv Hp. rewrite !willOverflow_spec by assumption.
  split; apply Z.ltb_lt.
Qed.

Lemma willOverflow_exact_witness :
  (willOverflow Tint8 100 28 true = true <-> maxOf Tint8 < 100 + 28) /\
  (willOverflow Tint8 100 28 false = true <-> 100 - 28 < minOf Tint8).
Proof.
  apply (willOverflow_exact Tint8 100 28);
    first [discriminate | vm_compute; split; discriminate | vm_compute; split; reflexivity].
Defined.

(** ** [Sequence] *)

Section Generators.
Context {G T : Type}.

Lemma Sequence_complete (generator : G -> T * bool * G) (calls : nat) :
  forall g l r, generated generator calls g = (l, r) ->
                Observes (Sequence generator g) l r.
Proof.
  induction calls as [|calls IH]; intros g l r E; cbn [generated] in E.
  - inversion E. apply Observes_nil.
  - unfold Sequence. apply Observes_iter.
    destruct (generator g) as [[v hasMore] g'] eqn:Eg. destruct hasMore.
    + destruct (generated generator calls g') as [l' r'] eqn:E'. inversion E; subst.
      apply (IterObs_next _ g g' [v] l'); [|apply Observes_iter, IH, E'].
      rewrite Eg. cbn [negb]. apply Observes_bind. right. exists [v], true, [].
      repeat split; [apply Observes_yield; auto|]. apply Observes_continue. auto.
    + inversion E; subst. apply IterObs_exit. rewrite Eg. apply Observes_break. auto.
Qed.

(** X28. [Sequence(generator)] yields the values the generator gives, call after
    call, up to its first answer [false], whose value it drops; it calls
    the generator once per value and once more, and leaves it there. *)
Theorem Sequence_until_exhausted (generator : G -> T * bool * G) (calls : nat)
  (g g' : G) (l : list T) :
  generated generator calls g = (l, Some g') ->
  Observes (Sequence generator g) l (Some g') /\
  (forall l' r, Observes (Sequence generator g) l' (Some r) -> l' = l /\ r = g') /\
  (forall l' r, Observes (Sequence generator g) l' r -> exists rest, l = l' ++ rest).
Proof.
  intros E. pose proof (Sequence_complete generator calls g l _ E) as HY.
  split; [exact HY|]. split.
  - intros l' r H'. exact (Observes_det _ _ _ _ _ H' HY).
  - intros l' r H'. exact (Observes_prefix _ _ _ _ _ HY H').
Qed.

End Generators.

(** [Sequence(genFib(5))] yields [1 1 2 3 5]; run again, it yields nothing:
    the generator is exhausted. *)
Lemma Sequence_until_exhausted_witness :
  generated genFib 6 (5, 0, 1) = ([1; 1; 2; 3; 5], Some (0, 5, 8)) /\
  Observes (Sequence genFib (5, 0, 1)) [1; 1; 2; 3; 5] (Some (0, 5, 8)) /\
  Observes (Sequence genFib (0, 5, 8)) [] (Some (0, 5, 8)).
Proof.
  split; [reflexivity|]. split.
  - exact (proj1 (Sequence_until_exhausted genFib 6 (5, 0, 1) (0, 5, 8) _ eq_refl)).
  - exact (proj1 (Sequence_until_exhausted genFib 1 (0, 5, 8) (0, 5, 8) _ eq_refl)).
Defined.

(** ** The answer [false]: every operator returns at once *)

Section YieldPoints.
Context {T : Type}.

Lemma YieldPoint_resume {R : Type} (t t' : itree (yieldE T) R) v k :
  resume t = resume t' -> YieldPoint t v k -> YieldPoint t' v k.
Proof.
  intros E H. destruct H as [t v k H | t t1 v k H H1 | t v' k' v k H H1];
    rewrite E in H.
  - now apply YieldPoint_here.
  - eapply YieldPoint_step; eauto.
  - eapply YieldPoint_next; eauto.
Qed.

Lemma YieldPoint_Ret {R : Type} (r : R) v k :
  ~ YieldPoint (Ret r : itree (yieldE T) R) v k.
Proof. intros H. inversion H; discriminate. Qed.

Lemma YieldPoint_Tau {R : Type} (t : itree (yieldE T) R) v k :
  YieldPoint (Tau t) v k -> YieldPoint t v k.
Proof.
  intros H. inversion H as [? ? ? E | ? ? ? ? E H1 | ? ? ? ? ? E H1]; subst;
    try discriminate E.
  cbn in E. inversion E; subst. exact H1.
Qed.

Lemma YieldPoint_panic {R : Type} v k :
  ~ YieldPoint (panic : itree (yieldE T) R) v k.
Proof.
  intros H. remember (panic : itree (yieldE T) R) as t eqn:Et.
  induction H as [t v k E | t t' v k E _ IH | t v' k' v k E _ _]; subst;
    try discriminate E.
  apply IH. cbn in E. now inversion E.
Qed.

Lemma YieldPoint_yield (w : T) v k :
  YieldPoint (yield w) v k -> v = w /\ k = (fun b => Ret b).
Proof.
  intros H. inversion H as [? ? ? E | ? ? ? ? E H1 | ? ? ? ? ? E H1]; subst;
    cbn in E; try discriminate E.
  - inversion E; subst. auto.
  - inversion E; subst. now apply YieldPoint_Ret in H1.
Qed.

(** A yield point of [t ;; g] is one of [t], or one of [g] after [t]. *)
Lemma YieldPoint_bind {R U : Type} (t : itree (yieldE T) R)
  (g : R -> itree (yieldE T) U) v k :
  YieldPoint (ITree.bind t g) v k ->
  (exists k0, YieldPoint t v k0 /\ k = fun b => ITree.bind (k0 b) g) \/
  (exists x, YieldPoint (g x) v k).
Proof.
  intros H. remember (ITree.bind t g) as u eqn:Eu.
  assert (E : resume u = resume (ITree.bind t g)) by now subst.
  clear Eu. revert t E.
  induction H as [u v k Hu | u u' v k Hu H1 IH | u v' k' v k Hu H1 IH]; intros t E;
    rewrite resume_bind in E; rewrite E in Hu; clear E;
    destruct (resume t) as [x | t' | w h] eqn:Et; try discriminate Hu.
  - right. exists x. now apply YieldPoint_here.
  - inversion Hu; subst. left. exists h. split; [now apply YieldPoint_here | reflexivity].
  - right. exists x. eapply YieldPoint_step; eauto.
  - inversion Hu; subst.
    destruct (IH t' eq_refl) as [(k0 & H0 & ->) | (x & Hx)]; [left | right; eauto].
    exists k0. split; [|reflexivity]. eapply YieldPoint_step; eauto.
  - right. exists x. eapply YieldPoint_next; eauto.
  - inversion Hu; subst.
    destruct (IH (h true) eq_refl) as [(k0 & H0 & ->) | (x & Hx)]; [left | right; eauto].
    exists k0. split; [|reflexivity]. eapply YieldPoint_next; eauto.
Qed.

(** A yield point of a loop is one of its body, in some iteration. *)
Lemma YieldPoint_iter {I R : Type} (f : I -> itree (yieldE T) (I + R)) (i : I) v k :
  YieldPoint (ITree.iter f i) v k ->
  exists i' k0,
    YieldPoint (f i') v k0 /\
    k = fun b => ITree.bind (k0 b) (fun lr =>
                   match lr with
                   | inl i'' => Tau (ITree.iter f i'')
                   | inr r => Ret r
                   end).
Proof.
  intros H. remember (ITree.iter f i) as u eqn:Eu.
  assert (G : exists t, resume u = resume (ITree.bind t (fun lr =>
                match lr with
                | inl i'' => Tau (ITree.iter f i'')
                | inr r => Ret r
                end)) /\
              forall w h, YieldPoint t w h -> exists i', YieldPoint (f i') w h).
  { exists (f i). subst u. split; [apply resume_iter | eauto]. }
  clear Eu i. destruct G as (t & E & Ht). revert t E Ht.
  induction H as [u v k Hu | u u' v k Hu _ IH | u v' k' v k Hu _ IH]; intros t E Ht;
    rewrite resume_bind in E; rewrite E in Hu; clear E;
    destruct (resume t) as [[i' | r] | t' | w h] eqn:Et; cbn in Hu; try discriminate Hu.
  - inversion Hu; subst.
    destruct (Ht v h) as [i' Hi]; [now apply YieldPoint_here|]. eauto.
  - inversion Hu; subst. apply (IH (f i')); [apply resume_iter | eauto].
  - inversion Hu; subst. apply (IH t'); [reflexivity|].
    intros w h Hw. apply Ht. eapply YieldPoint_step; eauto.
  - inversion Hu; subst. apply (IH (h true)); [reflexivity|].
    intros w' h' Hw. apply Ht. eapply YieldPoint_next; eauto.
Qed.

Lemma YieldPoint_pull (c : Seq T) v k : ~ YieldPoint (pull c) v k.
Proof.
  intros H. unfold pull in H. apply YieldPoint_iter in H as (c' & k0 & H & _).
  destruct (resume c'); now apply YieldPoint_Ret in H.
Qed.

End YieldPoints.

(** The yield points of straight-line code, statement by statement. *)
Ltac yp_step :=
  match goal with
  | H : YieldPoint (ITree.bind _ _) _ _ |- _ =>
      apply YieldPoint_bind in H; destruct H as [(? & H & ?) | (? & H)]; cbv beta in H
  | H : YieldPoint (pull _) _ _ |- _ => now apply YieldPoint_pull in H
  | H : YieldPoint (yield _) _ _ |- _ => apply YieldPoint_yield in H; destruct H
  | H : YieldPoint (Ret _) _ _ |- _ => now apply YieldPoint_Ret in H
  | H : YieldPoint (break_ _) _ _ |- _ => now apply YieldPoint_Ret in H
  | H : YieldPoint (continue_ _) _ _ |- _ => now apply YieldPoint_Ret in H
  | H : YieldPoint panic _ _ |- _ => now apply YieldPoint_panic in H
  | H : YieldPoint (Tau _) _ _ |- _ => apply YieldPoint_Tau in H
  | H : YieldPoint (match ?x with _ => _ end) _ _ |- _ => destruct x
  | H : YieldPoint (let '(_, _) := ?x in _) _ _ |- _ => destruct x
  end.

Ltac yp_inv := repeat (yp_step; subst; cbn [negb] in * ).

(** The loop was left at its yield point: nothing more is yielded. *)
Ltac stopped := eexists; exists 4%nat; reflexivity.

Ltac stops_in_loop H :=
  apply YieldPoint_iter in H as (? & ? & H & ->); yp_inv; stopped.

Section Stopping.
Context {T : Type}.

Lemma Filter_stops (S : Seq T) (predicate : T -> bool) :
  StopsWhenTold (Filter S predicate).
Proof. intros v k H. unfold Filter in H. stops_in_loop H. Qed.

Lemma Empty_stops : StopsWhenTold (@Empty T).
Proof. intros v k H. now apply YieldPoint_Ret in H. Qed.

Lemma Take_stops (S : Seq T) (n : Z) : StopsWhenTold (Take S n).
Proof.
  unfold Take. destruct (n <=? 0); [apply Empty_stops|].
  intros v k H. unfold Take_loop in H. stops_in_loop H.
Qed.

Lemma Skip_stops (S : Seq T) (n : Z) :
  StopsWhenTold S -> StopsWhenTold (Skip S n).
Proof.
  unfold Skip. destruct (n <=? 0); [auto|].
  intros _ v k H. unfold Skip_loop in H. stops_in_loop H.
Qed.

Lemma SkipLast_stops (zero : T) (S : Seq T) (n : Z) :
  StopsWhenTold S -> StopsWhenTold (SkipLast zero S n).
Proof.
  unfold SkipLast. destruct (n <=? 0); [auto|].
  intros _ v k H. unfold SkipLast_loop, SkipLast_push in H. stops_in_loop H.
Qed.

Lemma TakeLast_stops (zero : T) (S : Seq T) (n : Z) : StopsWhenTold (TakeLast zero S n).
Proof.
  unfold TakeLast. destruct (n <=? 0); [apply Empty_stops|].
  intros v k H. apply YieldPoint_bind in H as [(k0 & H & ->) | ([[h t] buf] & H)].
  - exfalso. unfold TakeLast_fill, TakeLast_push in H.
    apply YieldPoint_iter in H as (? & ? & H & ->). yp_inv.
  - destruct (h <? 0); [now apply YieldPoint_Ret in H|].
    unfold TakeLast_drain in H. stops_in_loop H.
Qed.

Lemma Concat_stops (seqs : list (Seq T)) : StopsWhenTold (Concat seqs).
Proof.
  induction seqs as [|seq seqs IH]; intros v k H; cbn [Concat] in H.
  - now apply YieldPoint_Ret in H.
  - apply YieldPoint_bind in H as [(k0 & H & ->) | ([|] & H)].
    + unfold for_range in H. apply YieldPoint_iter in H as (c & k1 & H & ->).
      destruct (resume c); yp_inv. stopped.
    + exact (IH v k H).
    + now apply YieldPoint_Ret in H.
Qed.

Lemma Reverse_stops (S : Seq T) : StopsWhenTold (Reverse S).
Proof.
  intros v k H. unfold Reverse in H.
  apply YieldPoint_bind in H as [(k0 & H & ->) | (buffer & H)].
  - exfalso. unfold Reverse_fill in H.
    apply YieldPoint_iter in H as (? & ? & H & ->). yp_inv.
  - unfold Reverse_drain in H. stops_in_loop H.
Qed.

Lemma Distinct_stops `{Comparable T} (S : Seq T) : StopsWhenTold (Distinct S).
Proof. intros v k Hk. unfold Distinct, Distinct_loop in Hk. stops_in_loop Hk. Qed.

Lemma DistinctBy_stops {K : Type} `{Comparable K} (S : Seq T) (keySelector : T -> K) :
  StopsWhenTold (DistinctBy S keySelector).
Proof. intros v k Hk. unfold DistinctBy, DistinctBy_loop in Hk. stops_in_loop Hk. Qed.

End Stopping.

Lemma RangeStep_stops (T S : TInt) (start stop stepSize : Z) :
  StopsWhenTold (RangeStep T S start stop stepSize).
Proof.
  unfold RangeStep. destruct (stepSize <=? 0); [apply Empty_stops|]. cbv zeta.
  destruct (willOverflow _ _ _ _); intros v k H.
  - yp_inv. stopped.
  - unfold RangeStep_loop in H. stops_in_loop H.
Qed.

Lemma RangeTime_stops (from to : time.Time) (interval : time.Duration) :
  StopsWhenTold (RangeTime from to interval).
Proof.
  unfold RangeTime. destruct (interval <=? 0); [apply Empty_stops|].
  destruct (_ || _); intros v k H.
  - unfold RangeTime_up in H. stops_in_loop H.
  - unfold RangeTime_down in H. stops_in_loop H.
Qed.

Lemma Sequence_stops {G T : Type} (generator : G -> T * bool * G) (g : G) :
  StopsWhenTold (Sequence generator g).
Proof. intros v k H. unfold Sequence in H. stops_in_loop H. Qed.

(** X29. The sequences that produce their values themselves return at once when
    the consumer answers [false], at whichever value it does: [RangeStep],
    [RangeTime] and [Sequence] never call [yield] again. *)
Theorem generators_stop_when_told {G U : Type} (T S : TInt) (start stop stepSize : Z)
  (from to : time.Time) (interval : time.Duration)
  (generator : G -> U * bool * G) (g : G) :
  StopsWhenTold (RangeStep T S start stop stepSize) /\
  StopsWhenTold (Range T start stop) /\
  StopsWhenTold (RangeTime from to interval) /\
  StopsWhenTold (Sequence generator g).
Proof.
  split; [apply RangeStep_stops|]. split; [apply RangeStep_stops|].
  split; [apply RangeTime_stops | apply Sequence_stops].
Qed.

(** X30. The operators pass the answer [false] on: when the consumer answers
    [false] to a value, they return without calling [yield] again.  Their
    deferred [stop()] lets the source unwind, and [Concat] answers [false]
    to the sequence it is ranging over: the sources have to stop when told
    for the operators to return. *)
Theorem operators_stop_when_told {T K : Type} `{Comparable T} `{Comparable K}
  (zero : T) (S : Seq T) (seqs : list (Seq T)) (n : Z)
  (predicate : T -> bool) (keySelector : T -> K) :
  StopsWhenTold S -> Forall StopsWhenTold seqs ->
  StopsWhenTold (Filter S predicate) /\
  StopsWhenTold (Take S n) /\
  StopsWhenTold (TakeLast zero S n) /\
  StopsWhenTold (Skip S n) /\
  StopsWhenTold (SkipLast zero S n) /\
  StopsWhenTold (Distinct S) /\
  StopsWhenTold (DistinctBy S keySelector) /\
  StopsWhenTold (Reverse S) /\
  StopsWhenTold (Concat seqs).
Proof.
  intros HS _.
  split; [apply Filter_stops|]. split; [apply Take_stops|].
  split; [apply TakeLast_stops|]. split; [now apply Skip_stops|].
  split; [now apply SkipLast_stops|]. split; [apply Distinct_stops|].
  split; [apply DistinctBy_stops|]. split; [apply Reverse_stops | apply Concat_stops].
Qed.

Lemma operators_stop_when_told_witness :
  StopsWhenTold (Range Tint 0 5) /\
  StopsWhenTold (Filter (Range Tint 0 5) Z.even) /\
  StopsWhenTold (Take (Range Tint 0 5) 2) /\
  StopsWhenTold (Concat [Range Tint 0 5; Range Tint 0 5]).
Proof.
  assert (HS : StopsWhenTold (Range Tint 0 5)) by apply RangeStep_stops.
  destruct (operators_stop_when_told 0 (Range Tint 0 5) [Range Tint 0 5; Range Tint 0 5]
              2 Z.even (fun v => v) HS) as (H1 & H2 & _ & _ & _ & _ & _ & _ & H9).
  { repeat constructor; exact HS. }
  repeat split; assumption.
Defined.
